(** * whapp-irc: the per-connection orchestration of [connection.go]

    A shallow embedding of [Connection] (handshake / setup with retry,
    catch-up replay, live relay, join protocol, chat list maintenance) and of
    the helper [ircSafeString], followed by the properties proved of them.

    Conventions.
    - Go [int64] timestamps are [Z]; only comparisons are performed on them,
      [math.MinInt64] is written out as [-2^63].
    - A Go [string] that is only compared, concatenated or printed is a
      [string]; the one string that is scanned rune by rune
      ([ircSafeString]) is the list of its decoded runes.
    - Go [error] values are [option Err] with [None] for [nil]; [Err] is the
      text [err.Error()] returns.
    - Calls that leave this file (platform API, record store, blob store,
      socket writes, the logger) are fields of an [Env] record acting on an
      abstract world; what the connection does to the outside is recorded in
      a trace of [Event]s. *)

From Stdlib Require Import ZArith List Bool Lia.
From stdpp Require Import base list gmap strings fin_maps pretty sorting.

Local Open Scope Z_scope.

(* ===================================================================== *)
(** ** util.go: [ircSafeString] *)
(* ===================================================================== *)

Module Util.

(** A decoded rune (Unicode code point). *)
Definition rune := Z.

Definition isLower (r : rune) : bool := (97 <=? r) && (r <=? 122).
Definition isUpper (r : rune) : bool := (65 <=? r) && (r <=? 90).
Definition isDigit (r : rune) : bool := (48 <=? r) && (r <=? 57).
Definition isPlus (r : rune) : bool := r =? 43.

(** The two non-ASCII runes whose simple case folding orbit meets [a-z]:
    U+017F (long s, folds with s) and U+212A (Kelvin sign, folds with k).
    Under the flag [(?i)] Go's regexp adds them to the class [a-z]. *)
Definition foldsIntoLetter (r : rune) : bool := (r =? 383) || (r =? 8490).

(** The character class [a-z\d+] under [(?i)]: what the negated class of
    [unsafeRegex] does NOT match. *)
Definition inSafeClass (r : rune) : bool :=
  isLower r || isUpper r || isDigit r || isPlus r || foldsIntoLetter r.

(** [unsafeRegex = regexp.MustCompile(`(?i)[^a-z\d+]`)]: a one-rune match. *)
Definition unsafeRegex (r : rune) : bool := negb (inSafeClass r).

(** [unsafeRegex.ReplaceAllLiteralString(str, "")]: every match is one rune
    wide and is replaced by the empty string. *)
Definition ReplaceAllLiteralString_empty (str : list rune) : list rune :=
  List.filter (fun r => negb (unsafeRegex r)) str.

(** An ASCII letter, a decimal digit or ['+']. *)
Definition asciiAlnumPlus (r : rune) : bool :=
  isLower r || isUpper r || isDigit r || isPlus r.

Definition isASCII (r : rune) : bool := (0 <=? r) && (r <? 128).

(** [func ircSafeString(str string) string], over the transliterator
    [unidecode.Unidecode] of the library [go-unidecode]. *)
Definition ircSafeString (Unidecode : list rune -> list rune)
    (str : list rune) : list rune :=
  let str := Unidecode str in
  ReplaceAllLiteralString_empty str.

(** A stand-in transliterator used to exercise the statements below: ASCII
    runes are kept, every other rune becomes ['?']. *)
Definition toyUnidecode (s : list rune) : list rune :=
  List.map (fun r => if isASCII r then r else 63) s.

End Util.

(* ===================================================================== *)
(** ** Data model of [connection.go] *)
(* ===================================================================== *)

(** The text of a Go [error] ([err.Error()]); [nil] is [None]. *)
Definition Err := string.

(** [whapp.Message]; only [Timestamp] is read by this file. *)
Record Message := { Timestamp : Z; Body : string }.

(** [database.User], the Persisted User Record. *)
Record User := {
  LocalStorage : gmap string string;
  LastReceivedReceipts : gmap string Z
}.

(** [whapp.Participant] as converted by [Participant(p)]. *)
Record Participant := {
  IsAdmin : bool;
  Contact_IsMe : bool;
  Contact_Name : string
}.

(** [fs.AddBlob]'s result; only [URL] is read. *)
Record File := { URL : string }.

(** [whapp.Loggedin] / [whapp.Loggedout], the result of [WI.Open]. *)
Inductive LoginState := Loggedin | Loggedout.

(** What the connection does to the outside, in program order. *)
Inductive Event :=
| EvLogPrintf (format : string) (args : list string)
| EvLogPrintln (args : list string)
| EvWriteIRC (line : string) (res : option Err)
| EvStatus (msg : string)
| EvBridgeStart
| EvBridgeStop
| EvSleep (milliseconds : Z)
| EvGoSaveDatabaseEntry
| EvSaveItem (key : string) (user : User) (res : option Err)
| EvGetMessages (chatKey : string) (since : Z)
| EvHandleWhappMessage (msg : Message)
| EvCloseWelcomeCh.

(** Modelled from the spec: [TimestampMap], the Watermark Map, a type of
    this package declared outside [connection.go] ("mapping from chat
    identifier to the timestamp of the newest message already delivered").
    A missing key reads as Go's zero value with [found = false]. *)
Module TimestampMap.
Definition MakeTimestampMap : gmap string Z := ∅.
Definition Length (m : gmap string Z) : nat := size m.
Definition Get (m : gmap string Z) (key : string) : Z * bool :=
  match m !! key with
  | Some v => (v, true)
  | None => (0, false)
  end.
Definition Set_ (m : gmap string Z) (key : string) (v : Z) : gmap string Z :=
  <[key := v]> m.
Definition Swap (m new : gmap string Z) : gmap string Z := new.
Definition GetCopy (m : gmap string Z) : gmap string Z := m.
End TimestampMap.

(** [math.MinInt64]. *)
Definition MinInt64 : Z := - 2 ^ 63.

(** The capability that gates replay. *)
Definition replayCapability : string := "whapp-irc/replay".

Section Types.
(** [whapp.ID] (a comparable struct with a [String] method) and [whapp.Me]
    are declared in package [whapp]; they are parameters here. *)
Context {whappID Me : Type}.

(** [whapp.Chat], the platform's record of a conversation; [raw_Title] is
    what its method [Title()] returns. *)
Record whappChat := {
  raw_ID : whappID;
  raw_Title : string;
  raw_IsGroupChat : bool;
  raw_Timestamp : Z;
  raw_Description : option string
}.

(** [Chat], the projection kept in [Connection.Chats]. *)
Record Chat := {
  ID : whappID;
  Name : string;
  IsGroupChat : bool;
  Participants : list Participant;
  Joined : bool;
  MessageIDs : list string;
  rawChat : whappChat
}.

(** [Connection]; [bridge] and [socket] live in the world, [welcomeCh] is
    represented by whether it has been closed. Modelled from the spec: the
    capability set [caps] (package [capabilities]) is the set of names the
    client asserted. *)
Record Connection := {
  Chats : list Chat;
  nickname : string;
  me : option Me;
  caps : gset string;
  welcomed : bool;
  welcomeCh_closed : bool;
  localStorage : gmap string string;
  timestampMap : gmap string Z
}.

Definition HasCapability (conn : Connection) (name : string) : bool :=
  bool_decide (name ∈ caps conn).

(** [MakeConnection]. *)
Definition MakeConnection : Connection :=
  {| Chats := []; nickname := ""; me := None; caps := ∅;
     welcomed := false; welcomeCh_closed := false;
     localStorage := ∅;
     timestampMap := TimestampMap.MakeTimestampMap |}.

Definition set_Chats (l : list Chat) (c : Connection) : Connection :=
  {| Chats := l; nickname := nickname c; me := me c; caps := caps c;
     welcomed := welcomed c; welcomeCh_closed := welcomeCh_closed c;
     localStorage := localStorage c; timestampMap := timestampMap c |}.
Definition set_nickname (n : string) (c : Connection) : Connection :=
  {| Chats := Chats c; nickname := n; me := me c; caps := caps c;
     welcomed := welcomed c; welcomeCh_closed := welcomeCh_closed c;
     localStorage := localStorage c; timestampMap := timestampMap c |}.
Definition set_me (m : option Me) (c : Connection) : Connection :=
  {| Chats := Chats c; nickname := nickname c; me := m; caps := caps c;
     welcomed := welcomed c; welcomeCh_closed := welcomeCh_closed c;
     localStorage := localStorage c; timestampMap := timestampMap c |}.
Definition set_welcomed (b : bool) (c : Connection) : Connection :=
  {| Chats := Chats c; nickname := nickname c; me := me c; caps := caps c;
     welcomed := b; welcomeCh_closed := welcomeCh_closed c;
     localStorage := localStorage c; timestampMap := timestampMap c |}.
Definition set_welcomeCh_closed (b : bool) (c : Connection) : Connection :=
  {| Chats := Chats c; nickname := nickname c; me := me c; caps := caps c;
     welcomed := welcomed c; welcomeCh_closed := b;
     localStorage := localStorage c; timestampMap := timestampMap c |}.
Definition set_localStorage (m : gmap string string) (c : Connection) : Connection :=
  {| Chats := Chats c; nickname := nickname c; me := me c; caps := caps c;
     welcomed := welcomed c; welcomeCh_closed := welcomeCh_closed c;
     localStorage := m; timestampMap := timestampMap c |}.
Definition set_timestampMap (m : gmap string Z) (c : Connection) : Connection :=
  {| Chats := Chats c; nickname := nickname c; me := me c; caps := caps c;
     welcomed := welcomed c; welcomeCh_closed := welcomeCh_closed c;
     localStorage := localStorage c; timestampMap := m |}.

(** [chat.Joined = true] through the pointer. *)
Definition set_Joined (b : bool) (c : Chat) : Chat :=
  {| ID := ID c; Name := Name c; IsGroupChat := IsGroupChat c;
     Participants := Participants c; Joined := b;
     MessageIDs := MessageIDs c; rawChat := rawChat c |}.

End Types.

Arguments whappChat : clear implicits.
Arguments Chat : clear implicits.
Arguments Connection : clear implicits.

(* ===================================================================== *)
(** ** The world outside [connection.go] *)
(* ===================================================================== *)

(** The collaborators of the connection, each a function of an abstract
    world [W]: the Session Bridge, the platform API handle [bridge.WI], the
    record store [userDb], the blob store [fs], the decoders, and the
    methods of this package that live in other files ([writeIRCNow],
    [status], [handleWhappMessage], [Identifier], [SafeName]). A Go result
    [(v, err)] of which [v] is only used when [err == nil] is [Err + V];
    one whose [v] is stored whatever [err] is a pair. *)
Record Env {whappID Me Obj W : Type} := {
  ID_String : whappID -> string;
  Identifier : Chat whappID -> string;
  SafeName : Participant -> string;
  strings_TrimSpace : string -> string;
  strings_Replace_newlines : string -> string;
  bridge_Start : W -> W * option Err;
  bridge_Stop : W -> W;
  userDb_GetItem : string -> W -> W * (Err + option Obj);
  userDb_SaveItem : string -> User -> W -> W * option Err;
  mapstructure_Decode : Obj -> Err + User;
  WI_Open : W -> W * (Err + LoginState);
  WI_SetLocalStorage : gmap string string -> W -> W * option Err;
  WI_GetLoginCode : W -> W * (Err + string);
  WI_WaitLogin : W -> W * option Err;
  WI_GetLocalStorage : W -> W * (gmap string string * option Err);
  WI_GetMe : W -> W * (option Me * option Err);
  WI_GetAllChats : W -> W * (Err + list (whappChat whappID));
  chat_Participants : whappChat whappID -> W -> W * (Err + list Participant);
  GetMessagesFromChatTillDate :
    whappChat whappID -> Z -> W -> W * (Err + list Message);
  qrcode_Encode : string -> Err + string;
  strTimestamp : W -> W * string;
  fs_AddBlob : string -> string -> string -> W -> W * (Err + File);
  fs_RemoveFile : File -> W -> W * option Err;
  writeIRCNow : string -> W -> W * option Err;
  conn_status : Connection whappID Me -> string -> W -> W * option Err;
  handleWhappMessage :
    Message -> Connection whappID Me * W ->
    (Connection whappID Me * W) * option Err
}.
Arguments Env : clear implicits.

(* ===================================================================== *)
(** ** State passing *)
(* ===================================================================== *)

Section Monad.
Context {whappID Me W : Type}.

(** The state threaded through every method of the connection. *)
Record St := { conn : Connection whappID Me; world : W; trace : list Event }.

Definition M (A : Type) : Type := St -> St * A.

Definition ret {A} (a : A) : M A := fun s => (s, a).
Definition bind {A B} (c : M A) (k : A -> M B) : M B :=
  fun s => let (s', a) := c s in k a s'.

(** Append one event to the trace. *)
Definition emit (e : Event) : M unit :=
  fun s => ({| conn := conn s; world := world s; trace := trace s ++ [e] |}, tt).

(** Read and update the connection's fields. *)
Definition getConn : M (Connection whappID Me) := fun s => (s, conn s).
Definition modifyConn (f : Connection whappID Me -> Connection whappID Me) : M unit :=
  fun s => ({| conn := f (conn s); world := world s; trace := trace s |}, tt).

(** Call a collaborator that only touches the world. *)
Definition callWorld {A} (f : W -> W * A) : M A :=
  fun s => let (w, a) := f (world s) in
           ({| conn := conn s; world := w; trace := trace s |}, a).

(** Go's [if err := c; err != nil { return err }] followed by [k]. *)
Definition andThen (c : M (option Err)) (k : M (option Err)) : M (option Err) :=
  bind c (fun e => match e with Some err => ret (Some err) | None => k end).

(** Go's [v, err := c; if err != nil { return err }] followed by [k v]. *)
Definition tryBind {A} (c : M (Err + A)) (k : A -> M (option Err)) : M (option Err) :=
  bind c (fun r => match r with inl err => ret (Some err) | inr a => k a end).

(** A [for _, x := range l] loop whose body may [return err]. *)
Fixpoint forRange {A} (body : A -> M (option Err)) (l : list A) : M (option Err) :=
  match l with
  | [] => ret None
  | x :: l' => andThen (body x) (forRange body l')
  end.

End Monad.

Arguments St : clear implicits.
Arguments M : clear implicits.

Declare Scope conn_scope.
Delimit Scope conn_scope with conn.
Notation "x <- c ;; k" := (bind c (fun x => k))
  (at level 100, c at next level, right associativity) : conn_scope.
Notation "c ;; k" := (bind c (fun _ => k))
  (at level 100, right associativity) : conn_scope.
Notation "c ;;? k" := (andThen c k)
  (at level 100, right associativity) : conn_scope.
Notation "x <-? c ;; k" := (tryBind c (fun x => k))
  (at level 100, c at next level, right associativity) : conn_scope.

(** *** Readings of a trace *)

(** The lines the socket accepted. *)
Definition writtenLines (evs : list Event) : list string :=
  flat_map (fun e => match e with EvWriteIRC line None => [line] | _ => [] end) evs.

(** The messages handed to [handleWhappMessage]. *)
Definition handledMessages (evs : list Event) : list Message :=
  flat_map (fun e => match e with EvHandleWhappMessage m => [m] | _ => [] end) evs.

(** The history fetches issued. *)
Definition fetches (evs : list Event) : list (string * Z) :=
  flat_map (fun e => match e with EvGetMessages k t => [(k, t)] | _ => [] end) evs.

(** Bridge starts, bridge stops and delays: what the retry supervisor does. *)
Definition isSupervision (e : Event) : bool :=
  match e with
  | EvBridgeStart | EvBridgeStop | EvSleep _ => true
  | _ => false
  end.

Definition supervision (evs : list Event) : list Event :=
  List.filter isSupervision evs.

Section Observations.
Context {whappID Me W : Type}.

(** A computation that returns an error from every state. *)
Definition AlwaysFails (f : M whappID Me W (option Err)) : Prop :=
  forall s, (f s).2 <> None.

(** A computation that only appends to the trace, and appends no bridge
    start, bridge stop or delay. *)
Definition Unsupervised {A} (f : M whappID Me W A) : Prop :=
  forall s, exists evs, trace (f s).1 = trace s ++ evs /\ supervision evs = [].

End Observations.

(** [MessageRes], the resolved future delivered by the message queue. *)
Record MessageRes := { res_Message : Message; res_Err : option Err }.

(** What the live-relay task's [select] can receive. *)
Inductive LiveEvent :=
| CtxDone
| ErrCh (err : Err)
| Queue (msgRes : MessageRes).

(** Whether a loop iteration ends in [continue] or in [return]. *)
Inductive LoopCtl := Continue | Return.

(* ===================================================================== *)
(** ** The methods of [Connection] *)
(* ===================================================================== *)

Section Ops.
Context {whappID Me Obj W : Type} `{EqDecision whappID}.
Variable env : Env whappID Me Obj W.

Local Open Scope conn_scope.
Local Abbreviation Mc := (M whappID Me W).

(** *** Calls that leave the file, with the event each one records *)

Definition logPrintf (format : string) (args : list string) : Mc unit :=
  emit (EvLogPrintf format args).

Definition logPrintln (args : list string) : Mc unit :=
  emit (EvLogPrintln args).

(** [log.Printf(format, err.Error())] under [if err != nil]. *)
Definition logIfErr (format : string) (e : option Err) : Mc unit :=
  match e with
  | Some err => logPrintf format [err]
  | None => ret tt
  end.

Definition writeIRC (line : string) : Mc (option Err) :=
  r <- callWorld (writeIRCNow env line) ;;
  emit (EvWriteIRC line r) ;;
  ret r.

Definition status (msg : string) : Mc (option Err) :=
  emit (EvStatus msg) ;;
  c <- getConn ;;
  callWorld (conn_status env c msg).

Definition bridgeStart : Mc (option Err) :=
  emit EvBridgeStart ;; callWorld (bridge_Start env).

Definition bridgeStop : Mc unit :=
  emit EvBridgeStop ;; callWorld (fun w => (bridge_Stop env w, tt)).

Definition sleep (milliseconds : Z) : Mc unit := emit (EvSleep milliseconds).

Definition handle (msg : Message) : Mc (option Err) :=
  emit (EvHandleWhappMessage msg) ;;
  (fun s => let '((c, w), r) := handleWhappMessage env msg (conn s, world s) in
            ({| conn := c; world := w; trace := trace s |}, r)).

(** *** [saveDatabaseEntry] *)

Definition saveDatabaseEntry : Mc (option Err) :=
  c <- getConn ;;
  let user := {| LocalStorage := localStorage c;
                 LastReceivedReceipts := TimestampMap.GetCopy (timestampMap c) |} in
  err <- callWorld (userDb_SaveItem env (nickname c) user) ;;
  emit (EvSaveItem (nickname c) user err) ;;
  logIfErr "error while updating user entry: %s\n" err ;;
  ret err.

(** *** [joinChat] *)

(** The loop over [chat.Participants]: MODE for an admin self, a name for
    everyone else. *)
Fixpoint joinNames (identifier nick : string) (ps : list Participant)
    (names : list string) : Mc (list string) :=
  match ps with
  | [] => ret names
  | participant :: ps' =>
      if Contact_IsMe participant then
        (if IsAdmin participant
         then _ <- writeIRC (":whapp-irc MODE " +:+ identifier +:+ " +o " +:+ nick) ;; ret tt
         else ret tt) ;;
        joinNames identifier nick ps' names
      else
        let prefix := if IsAdmin participant then "@" else "" in
        joinNames identifier nick ps' (names ++ [prefix +:+ SafeName env participant])
  end.

(** The topic line, with the flattened description when there is one. *)
Definition topicLine (nick identifier : string) (chat : Chat whappID) : string :=
  let topic := ":whapp-irc 332 " +:+ nick +:+ " " +:+ identifier +:+ " :" +:+ Name chat in
  match raw_Description (rawChat chat) with
  | Some desc =>
      let d := strings_TrimSpace env desc in
      if bool_decide (d = "") then topic
      else topic +:+ ": " +:+ strings_Replace_newlines env d
  | None => topic
  end.

(** [joinChat(chat *Chat)]: [None] is the nil pointer; the first component
    of the result is the pointee after the call. The pointee is passed by
    value: where Go's [chat.Joined = true] is also seen through the pointer
    stored in [conn.Chats], here [Chats] is left as it was, so nothing below
    looks a chat up in the list after it was joined. *)
Definition joinChat (chat : option (Chat whappID))
    : Mc (option (Chat whappID) * option Err) :=
  match chat with
  | None => ret (None, Some "chat is nil")
  | Some c =>
      if negb (IsGroupChat c) then ret (Some c, Some "not a group chat")
      else if Joined c then ret (Some c, None)
      else
        cn <- getConn ;;
        let nick := nickname cn in
        let identifier := Identifier env c in
        e <- writeIRC (":" +:+ nick +:+ " JOIN " +:+ identifier) ;;
        match e with Some err => ret (Some c, Some err) | None =>
        e <- writeIRC (topicLine nick identifier c) ;;
        match e with Some err => ret (Some c, Some err) | None =>
        names <- joinNames identifier nick (Participants c) [] ;;
        e <- writeIRC (":whapp-irc 353 " +:+ nick +:+ " @ " +:+ identifier
                        +:+ " :" +:+ String.concat " " names) ;;
        match e with Some err => ret (Some c, Some err) | None =>
        e <- writeIRC (":whapp-irc 366 " +:+ nick +:+ " " +:+ identifier
                        +:+ " :End of /NAMES list.") ;;
        match e with Some err => ret (Some c, Some err) | None =>
        ret (Some (set_Joined true c), None)
        end end end end
  end.

(** The JOIN/TOPIC/NAMES sequence of a chat, as section 4.6 of the
    specification lists it: JOIN, topic, a MODE grant per admin self
    participant, the membership listing without the self participant, and
    the end-of-list line. *)
Definition joinSequence (nick : string) (c : Chat whappID) : list string :=
  let identifier := Identifier env c in
  let modes :=
    List.map (fun _ : Participant =>
                ":whapp-irc MODE " +:+ identifier +:+ " +o " +:+ nick)
             (List.filter (fun p => Contact_IsMe p && IsAdmin p) (Participants c)) in
  let names :=
    List.map (fun p => (if IsAdmin p then "@" else "") +:+ SafeName env p)
             (List.filter (fun p => negb (Contact_IsMe p)) (Participants c)) in
  [":" +:+ nick +:+ " JOIN " +:+ identifier; topicLine nick identifier c]
  ++ modes
  ++ [":whapp-irc 353 " +:+ nick +:+ " @ " +:+ identifier +:+ " :"
        +:+ String.concat " " names;
      ":whapp-irc 366 " +:+ nick +:+ " " +:+ identifier +:+ " :End of /NAMES list."].

(** *** [GetChatByID], [convertChat], [addChat] *)

Definition GetChatByID (cn : Connection whappID Me) (id : whappID)
    : option (Chat whappID) :=
  List.find (fun c => bool_decide (ID c = id)) (Chats cn).

Definition convertChat (chat : whappChat whappID) : Mc (Err + Chat whappID) :=
  r <- callWorld (chat_Participants env chat) ;;
  match r with
  | inl err => ret (inl err)
  | inr participants =>
      let converted := List.map (fun p : Participant => p) participants in
      ret (inr {| ID := raw_ID chat; Name := raw_Title chat;
                  IsGroupChat := raw_IsGroupChat chat;
                  Participants := converted;
                  Joined := false; MessageIDs := [];
                  rawChat := chat |})
  end.

(** Index of the first chat of [l] whose ID is [id]. *)
Fixpoint indexOfID (id : whappID) (l : list (Chat whappID)) : option nat :=
  match l with
  | [] => None
  | c :: l' => if decide (ID c = id) then Some 0%nat else S <$> indexOfID id l'
  end.

(** The tail of [addChat]: overwrite the slot of the first chat with the
    same ID, or append. *)
Definition upsertChat (chat : Chat whappID) (l : list (Chat whappID))
    : list (Chat whappID) :=
  match indexOfID (ID chat) l with
  | Some i => <[i := chat]> l
  | None => l ++ [chat]
  end.

Definition addChat (rawChat : whappChat whappID) : Mc (Err + Chat whappID) :=
  r <- convertChat rawChat ;;
  match r with
  | inl err => ret (inl err)
  | inr chat =>
      (if IsGroupChat chat
       then logPrintf "%-30s %3d participants\n"
              [Identifier env chat; pretty (length (Participants chat))]
       else logPrintln [Identifier env chat]) ;;
      modifyConn (fun cn => set_Chats (upsertChat chat (Chats cn)) cn) ;;
      ret (inr chat)
  end.

(** *** [setup] *)

(** The [else if found] block: decode the record, restore the Watermark
    Map, open the session and push the stored local storage. *)
Definition restoreUser (obj : Obj) : Mc (option Err) :=
  match mapstructure_Decode env obj with
  | inl err => ret (Some err)
  | inr user =>
      modifyConn (fun cn =>
        set_timestampMap
          (TimestampMap.Swap (timestampMap cn) (LastReceivedReceipts user)) cn) ;;
      _ <-? callWorld (WI_Open env) ;;
      e <- callWorld (WI_SetLocalStorage env (LocalStorage user)) ;;
      logIfErr "error while setting local storage: %s\n" e ;;
      ret None
  end.

(** [conn.localStorage, err = GetLocalStorage(...)] and the save that
    follows it. *)
Definition persistLocalStorage : Mc (option Err) :=
  r <- callWorld (WI_GetLocalStorage env) ;;
  modifyConn (set_localStorage (fst r)) ;;
  match snd r with
  | Some err => logPrintf "error while getting local storage: %s\n" [err] ;; ret None
  | None => saveDatabaseEntry
  end.

(** [GetAllChats] and the loop of [addChat]. *)
Definition addAllChats : Mc (option Err) :=
  chats <-? callWorld (WI_GetAllChats env) ;;
  forRange (fun chat =>
              r <- addChat chat ;;
              ret (match r with inl err => Some err | inr _ => None end))
           chats.

(** From [WaitLogin] to the end of [setup]. *)
Definition setupLoggedIn : Mc (option Err) :=
  callWorld (WI_WaitLogin env) ;;?
  (_ <- status "logged in" ;;
   persistLocalStorage ;;?
   (r <- callWorld (WI_GetMe env) ;;
    modifyConn (set_me (fst r)) ;;
    match snd r with
    | Some err => ret (Some err)
    | None => addAllChats
    end)).

(** The [state == whapp.Loggedout] block. Its [defer] runs when [setup]
    returns, so the rest of [setup] is the continuation [k]; the deferred
    function assigns the block's own [err], not [setup]'s result. *)
Definition showLoginCode (k : Mc (option Err)) : Mc (option Err) :=
  code <-? (r <- callWorld (WI_GetLoginCode env) ;;
            ret (match r with
                 | inl err => inl ("Error while retrieving login code: " +:+ err)
                 | inr code => inr code
                 end)) ;;
  match qrcode_Encode env code with
  | inl err => ret (Some err)
  | inr bytes =>
      ts <- callWorld (strTimestamp env) ;;
      qrFile <-? callWorld (fs_AddBlob env ("qr-" +:+ ts) "png" bytes) ;;
      res <- (status ("Scan this QR code: " +:+ URL qrFile) ;;? k) ;;
      e <- callWorld (fs_RemoveFile env qrFile) ;;
      logIfErr "error while removing QR code: %s\n" e ;;
      ret res
  end.

Definition setup : Mc (option Err) :=
  bridgeStart ;;?
  (cn <- getConn ;;
   found <-? callWorld (userDb_GetItem env (nickname cn)) ;;
   (match found with
    | Some obj => restoreUser obj
    | None => ret None
    end) ;;?
   (state <-? callWorld (WI_Open env) ;;
    match state with
    | Loggedout => showLoginCode setupLoggedIn
    | Loggedin => setupLoggedIn
    end)).

(** *** The welcome closure and the retry supervisor *)

(** Modelled from the spec: [retry.Do] of the library [retry-go], whose
    source is outside [connection.go] ("retried, up to 5 attempts with a
    fixed 1-second delay between attempts; exhausting attempts surfaces the
    last error").
    [retryLoop n] makes one attempt and has [n] more in reserve. *)
Fixpoint retryLoop (n : nat) (delay : Z) (f : Mc (option Err)) : Mc (option Err) :=
  r <- f ;;
  match r with
  | None => ret None
  | Some err =>
      match n with
      | O => ret (Some err)
      | S n' => sleep delay ;; retryLoop n' delay f
      end
  end.

Definition retry_Do (f : Mc (option Err)) (attempts : nat) (delay : Z)
    : Mc (option Err) :=
  match attempts with
  | O => ret None
  | S n => retryLoop n delay f
  end.

(** The function handed to [retry.Do]. *)
Definition setupAttempt : Mc (option Err) :=
  bridgeStop ;;
  err <- setup ;;
  logIfErr "err while setting up: %s\n" err ;;
  ret err.

(** [retry.Do(..., retry.Attempts(5), retry.Delay(time.Second))]. *)
Definition superviseSetup : Mc (option Err) :=
  retry_Do setupAttempt 5 1000.

Definition welcome : Mc (bool * option Err) :=
  cn <- getConn ;;
  if welcomed cn || bool_decide (nickname cn = "") then ret (false, None)
  else
    e <- writeIRC (":whapp-irc 001 " +:+ nickname cn
                    +:+ " Welcome to whapp-irc, " +:+ nickname cn +:+ ".") ;;
    match e with Some err => ret (false, Some err) | None =>
    e <- writeIRC (":whapp-irc 002 " +:+ nickname cn +:+ " Enjoy the ride.") ;;
    match e with Some err => ret (false, Some err) | None =>
    modifyConn (set_welcomed true) ;;
    err <- superviseSetup ;;
    match err with
    | Some e => ret (false, Some e)
    | None =>
        modifyConn (set_welcomeCh_closed true) ;;
        emit EvCloseWelcomeCh ;;
        ret (true, None)
    end end end.

(** The dispatch task's [msg.Command == "NICK"] case; [Return] ends the
    task, whose deferred [cancel()] then fires. *)
Definition onNick (nick : string) : Mc LoopCtl :=
  modifyConn (set_nickname nick) ;;
  r <- welcome ;;
  match snd r with
  | Some err =>
      _ <- status ("giving up trying to setup whapp bridge: " +:+ err) ;;
      ret Return
  | None => ret Continue
  end.

(** *** Catch-up *)

(** Body of [for _, msg := range messages]. *)
Definition replayMessage (prevTimestamp : Z) (msg : Message) : Mc (option Err) :=
  if Timestamp msg <=? prevTimestamp then ret None
  else
    e <- handle msg ;;
    match e with
    | Some err =>
        logPrintf "error handling older whapp message: %s\n" [err] ;;
        ret (Some err)
    | None => ret None
    end.

(** Body of [for _, c := range conn.Chats]; [empty] was computed before the
    loop. [go conn.saveDatabaseEntry()] is recorded as the start of a
    detached task, whose result nobody receives. *)
Definition catchUpChat (empty : bool) (c : Chat whappID) : Mc (option Err) :=
  cn <- getConn ;;
  let key := ID_String env (ID c) in
  let '(prevTimestamp, found) := TimestampMap.Get (timestampMap cn) key in
  if empty || negb (HasCapability cn replayCapability) then
    modifyConn (fun cn =>
      set_timestampMap
        (TimestampMap.Set_ (timestampMap cn) key (raw_Timestamp (rawChat c))) cn) ;;
    emit EvGoSaveDatabaseEntry ;;
    ret None
  else if raw_Timestamp (rawChat c) <=? prevTimestamp then ret None
  else
    let prevTimestamp := if found then prevTimestamp else MinInt64 in
    emit (EvGetMessages key prevTimestamp) ;;
    r <- callWorld (GetMessagesFromChatTillDate env (rawChat c) prevTimestamp) ;;
    match r with
    | inl err =>
        logPrintf "error while loading earlier messages: %s\n" [err] ;;
        ret (Some err)
    | inr messages => forRange (replayMessage prevTimestamp) messages
    end.

(** Lines 166-204 of [BindSocket]; [Some err] is [return err]. The range
    expression [conn.Chats] is evaluated once, before the first iteration,
    and the loop runs over the chats as they were then: an element that
    [handleWhappMessage] replaces in place while an earlier chat is
    replayed, which Go's loop would read at its turn, is not seen here. *)
Definition catchUp : Mc (option Err) :=
  cn <- getConn ;;
  let empty := Nat.eqb (TimestampMap.Length (timestampMap cn)) 0 in
  forRange (catchUpChat empty) (Chats cn) ;;?
  (_ <- status "ready for new messages" ;; ret None).

(** *** Live relay *)

(** The [case msgFut := <-queue] branch. *)
Definition relayOne (msgRes : MessageRes) : Mc unit :=
  err <- (match res_Err msgRes with
          | None => handle (res_Message msgRes)
          | Some e => ret (Some e)
          end) ;;
  logIfErr "error handling new whapp message: %s\n" err.

(** The live-relay task over what its [select] receives, in order. *)
Fixpoint liveRelay (evs : list LiveEvent) : Mc unit :=
  match evs with
  | [] => ret tt
  | CtxDone :: _ => ret tt
  | ErrCh err :: _ =>
      logPrintf "error while listening for whatsapp messages: %s\n" [err]
  | Queue msgRes :: evs' => relayOne msgRes ;; liveRelay evs'
  end.

End Ops.

(* ===================================================================== *)
(** ** The tasks of [BindSocket] and the lookups of [Connection] *)
(* ===================================================================== *)

(** [irc.Message]; only [Command] and [Params] are read by this file. *)
Record IrcMessage := { Command : string; Params : list string }.

(** An error returned by [handleIRCCommand]: its text, and whether it is
    the value [io.ErrClosedPipe] itself. The dispatch task tests identity
    ([err == io.ErrClosedPipe]), which the text does not decide. *)
Record HandlerErr := { he_Error : Err; he_isErrClosedPipe : bool }.

(** How far a task (goroutine) got on the input it was given: it is still
    waiting for more, it returned, or it panicked (an index out of range or
    a nil dereference, which nothing recovers). *)
Inductive TaskEnd := Waiting | Returned | Panicked.

(** What the dispatch task's [select] can receive: the cancellation, the
    close of [ircCh] ([ok == false]), or a message. *)
Inductive DispatchEvent :=
| DispatchCtxDone
| DispatchClosed
| DispatchMsg (msg : IrcMessage).

(** Every line handed to [writeIRCNow], accepted or not. *)
Definition attemptedLines (evs : list Event) : list string :=
  flat_map (fun e => match e with EvWriteIRC line _ => [line] | _ => [] end) evs.

(** The status lines sent. *)
Definition statusLines (evs : list Event) : list string :=
  flat_map (fun e => match e with EvStatus msg => [msg] | _ => [] end) evs.

(** The results the live-relay task takes from the queue before its [select]
    receives the cancellation or an error. *)
Fixpoint queuedBeforeStop (evs : list LiveEvent) : list MessageRes :=
  match evs with
  | Queue msgRes :: evs' => msgRes :: queuedBeforeStop evs'
  | _ => []
  end.

(** The errors of the saves of the record that the store refused. *)
Definition refusedSaves (evs : list Event) : list Err :=
  flat_map (fun e => match e with EvSaveItem _ _ (Some err) => [err] | _ => [] end) evs.

(** What the [select] of the login-state task can receive. *)
Inductive LoginEvent :=
| LoginCtxDone
| LoginErr (err : Err)
| LoginRes (res : bool).

Section MoreObservations.
Context {whappID Me W : Type}.

(** A computation that only appends to the trace, and only events in [P]. *)
Definition Emits {A} (P : Event -> Prop) (f : M whappID Me W A) : Prop :=
  forall s, exists evs, trace (f s).1 = trace s ++ evs /\ Forall P evs.

(** A computation that leaves a reading [proj] of the connection as it is. *)
Definition Preserves {X A} (proj : Connection whappID Me -> X)
    (f : M whappID Me W A) : Prop :=
  forall s, proj (conn (f s).1) = proj (conn s).

(** A computation that returns the error of any save the store refused
    while it ran. *)
Definition ReturnsRefusedSave (f : M whappID Me W (option Err)) : Prop :=
  forall s, exists evs,
    trace (f s).1 = trace s ++ evs /\
    forall err, err ∈ refusedSaves evs -> (f s).2 = Some err.

End MoreObservations.

Section MoreOps.
Context {whappID Me Obj W Presence : Type} `{EqDecision whappID}.
Variable env : Env whappID Me Obj W.

(** Collaborators that only the functions below call: [strings.ToLower],
    [whapp.Chat.GetPresence] with the zero [whapp.Presence],
    and [handleIRCCommand] (another file of this package). *)
Variable strings_ToLower : string -> string.
Variable zeroPresence : Presence.
Variable GetPresence : whappChat whappID -> W -> W * (Presence * option Err).
Variable handleIRCCommand :
  IrcMessage -> Connection whappID Me * W ->
  (Connection whappID Me * W) * option HandlerErr.

Local Open Scope conn_scope.
Local Abbreviation Mc := (M whappID Me W).

(** The environment with another record store behind [userDb.SaveItem]. *)
Definition withSaveItem (save : string -> User -> W -> W * option Err)
    : Env whappID Me Obj W := {|
  ID_String := ID_String env;
  Identifier := Identifier env;
  SafeName := SafeName env;
  strings_TrimSpace := strings_TrimSpace env;
  strings_Replace_newlines := strings_Replace_newlines env;
  bridge_Start := bridge_Start env;
  bridge_Stop := bridge_Stop env;
  userDb_GetItem := userDb_GetItem env;
  userDb_SaveItem := save;
  mapstructure_Decode := mapstructure_Decode env;
  WI_Open := WI_Open env;
  WI_SetLocalStorage := WI_SetLocalStorage env;
  WI_GetLoginCode := WI_GetLoginCode env;
  WI_WaitLogin := WI_WaitLogin env;
  WI_GetLocalStorage := WI_GetLocalStorage env;
  WI_GetMe := WI_GetMe env;
  WI_GetAllChats := WI_GetAllChats env;
  chat_Participants := chat_Participants env;
  GetMessagesFromChatTillDate := GetMessagesFromChatTillDate env;
  qrcode_Encode := qrcode_Encode env;
  strTimestamp := strTimestamp env;
  fs_AddBlob := fs_AddBlob env;
  fs_RemoveFile := fs_RemoveFile env;
  writeIRCNow := writeIRCNow env;
  conn_status := conn_status env;
  handleWhappMessage := handleWhappMessage env
|}.

(** *** [GetChatByIdentifier] *)

Definition GetChatByIdentifier (cn : Connection whappID Me) (identifier : string)
    : option (Chat whappID) :=
  let identifier := strings_ToLower identifier in
  List.find
    (fun c => bool_decide (strings_ToLower (Identifier env c) = identifier))
    (Chats cn).

(** *** [getPresenceByUserID] *)

(** The loop over [conn.Chats]; the result is [(presence, found, err)]. *)
Fixpoint presenceOf (userID : whappID) (chats : list (Chat whappID))
    : Mc (Presence * bool * option Err) :=
  match chats with
  | [] => ret (zeroPresence, false, None)
  | c :: chats' =>
      if decide (ID c = userID) then
        r <- callWorld (GetPresence (rawChat c)) ;;
        ret (fst r, true, snd r)
      else presenceOf userID chats'
  end.

Definition getPresenceByUserID (userID : whappID)
    : Mc (Presence * bool * option Err) :=
  cn <- getConn ;;
  presenceOf userID (Chats cn).

(** *** The reader task of [BindSocket] *)

Definition pongLine (param : string) : string :=
  ":whapp-irc PONG whapp-irc :" +:+ param.

(** The reader over the results of [decoder.Decode()], in order: [inl err]
    is a decoding error, [inr None] a nil message without error. [sent] are
    the messages put on [ircCh] so far; the first component of the result is
    what dispatch can receive. [msg.Params[0]] on an empty [Params] and
    [msg.Command] on a nil message panic. *)
Fixpoint readLoop (decoded : list (Err + option IrcMessage))
    (sent : list IrcMessage) : Mc (list IrcMessage * TaskEnd) :=
  match decoded with
  | [] => ret (sent, Waiting)
  | inl err :: _ =>
      logPrintf "error while listening for IRC messages: %s\n" [err] ;;
      ret (sent, Returned)
  | inr None :: _ => ret (sent, Panicked)
  | inr (Some msg) :: decoded' =>
      if bool_decide (Command msg = "PING") then
        match Params msg with
        | [] => ret (sent, Panicked)
        | param :: _ =>
            e <- writeIRC env (pongLine param) ;;
            match e with
            | Some _ => ret (sent, Returned)
            | None => readLoop decoded' sent
            end
        end
      else readLoop decoded' (sent ++ [msg])
  end.

(** *** The dispatch task of [BindSocket] *)

Definition callHandleIRCCommand (msg : IrcMessage) : Mc (option HandlerErr) :=
  fun s => let '((c, w), r) := handleIRCCommand msg (conn s, world s) in
           ({| conn := c; world := w; trace := trace s |}, r).

(** The dispatch task over what its [select] receives, in order. [handed]
    are the messages passed to [handleIRCCommand] so far. [msg.Params[0]]
    of a NICK without parameter panics. *)
Fixpoint dispatchLoop (evs : list DispatchEvent) (handed : list IrcMessage)
    : Mc (list IrcMessage * TaskEnd) :=
  match evs with
  | [] => ret (handed, Waiting)
  | DispatchCtxDone :: _ => ret (handed, Returned)
  | DispatchClosed :: _ => ret (handed, Returned)
  | DispatchMsg msg :: evs' =>
      if bool_decide (Command msg = "NICK") then
        match Params msg with
        | [] => ret (handed, Panicked)
        | nick :: _ =>
            ctl <- onNick env nick ;;
            match ctl with
            | Return => ret (handed, Returned)
            | Continue => dispatchLoop evs' handed
            end
        end
      else
        e <- callHandleIRCCommand msg ;;
        match e with
        | Some err =>
            logPrintf "error handling new irc message: %s\n" [he_Error err] ;;
            if he_isErrClosedPipe err then ret (handed ++ [msg], Returned)
            else dispatchLoop evs' (handed ++ [msg])
        | None => dispatchLoop evs' (handed ++ [msg])
        end
  end.

(** *** The main flow of [BindSocket] at line 163 *)

(** [<-conn.welcomeCh]. Nothing is ever sent on the channel and the receive
    is not in a [select] with [ctx.Done()], so it completes exactly when
    [welcome] has closed the channel. Until then the main flow is
    [Waiting]: it has not reached [<-ctx.Done()], it has not returned, and
    the deferred [cancel()], [conn.bridge.Stop()] and [socket.Close()] have
    not run. *)
Definition awaitWelcome (cn : Connection whappID Me) : TaskEnd :=
  if welcomeCh_closed cn then Returned else Waiting.

(** *** The login-state task of [BindSocket] *)

(** The task over what its [select] receives, in order: the cancellation,
    an error of the listener, or a login state. *)
Fixpoint watchLogin (evs : list LoginEvent) : Mc TaskEnd :=
  match evs with
  | [] => ret Waiting
  | LoginCtxDone :: _ => ret Returned
  | LoginErr err :: _ =>
      logPrintf "error while listening for whatsapp loggedin state: %s\n" [err] ;;
      ret Returned
  | LoginRes res :: evs' =>
      if res then watchLogin evs'
      else logPrintln ["logged out of whatsapp!"] ;; ret Returned
  end.

End MoreOps.

(** What [handleIRCCommand] does to the connection and the world over a
    run of commands, and the log lines owed for it: one per command whose
    handling returned an error, with that error's text, in order. *)
Fixpoint handleAll {whappID Me W : Type}
    (handleIRCCommand : IrcMessage -> Connection whappID Me * W ->
                        (Connection whappID Me * W) * option HandlerErr)
    (msgs : list IrcMessage) (cw : Connection whappID Me * W)
    : (Connection whappID Me * W) * list Event :=
  match msgs with
  | [] => (cw, [])
  | msg :: msgs' =>
      let '(cw1, r) := handleIRCCommand msg cw in
      let '(cw2, logs) := handleAll handleIRCCommand msgs' cw1 in
      (cw2, match r with
            | Some err =>
                EvLogPrintf "error handling new irc message: %s\n" [he_Error err] :: logs
            | None => logs
            end)
  end.

(** What ends the login-state task: the first thing it receives that is not
    the state logged in. *)
Definition firstNews (evs : list LoginEvent) : option LoginEvent :=
  List.find (fun e => match e with LoginRes true => false | _ => true end) evs.

(** Readings of the reader's input: the messages that are not PINGs, the
    PONG lines owed to the PINGs, and the inputs on which the reader's
    indexing or dereference panics. *)
Definition forwardable (decoded : list (Err + option IrcMessage)) : list IrcMessage :=
  flat_map (fun d => match d with
                     | inr (Some msg) =>
                         if bool_decide (Command msg = "PING") then [] else [msg]
                     | _ => []
                     end) decoded.

Definition pongsDue (decoded : list (Err + option IrcMessage)) : list string :=
  flat_map (fun d => match d with
                     | inr (Some msg) =>
                         if bool_decide (Command msg = "PING")
                         then match Params msg with
                              | param :: _ => [pongLine param]
                              | [] => []
                              end
                         else []
                     | _ => []
                     end) decoded.

Definition panicsReader (d : Err + option IrcMessage) : bool :=
  match d with
  | inl _ => false
  | inr None => true
  | inr (Some msg) =>
      bool_decide (Command msg = "PING") && bool_decide (Params msg = [])
  end.

(* ===================================================================== *)
(** ** util.go: file extensions *)
(* ===================================================================== *)

Module Extensions.
Section Extensions.
Context {Bytes : Type}.

(** [filetype.Match(bytes)], read through the matched type's [Extension],
    and [mime.ExtensionsByType(typ)]. *)
Variable filetype_Match : Bytes -> Err + string.
Variable mime_ExtensionsByType : string -> Err + list string.

Definition getExtension (bytes : Bytes) : string :=
  match filetype_Match bytes with
  | inl _ => ""
  | inr res => if bool_decide (res = "unknown") then "" else res
  end.

(** The slice [s[1:]]; [None] is the panic on an empty [s]. *)
Definition sliceFrom1 (s : string) : option string :=
  match s with
  | EmptyString => None
  | String _ rest => Some rest
  end.

(** [getExtensionByMime]; [None] is a panic, [Some (res, err)] a return. *)
Definition getExtensionByMime (typ : string) : option (string * option Err) :=
  match mime_ExtensionsByType typ with
  | inl err => Some ("", Some err)
  | inr [] => Some ("", None)
  | inr (first :: _) =>
      match sliceFrom1 first with
      | Some res => Some (res, None)
      | None => None
      end
  end.

Definition getExtensionByMimeOrBytes (mime : string) (bytes : Bytes)
    : option string :=
  match getExtensionByMime mime with
  | None => None
  | Some (res, err) =>
      if negb (bool_decide (res = "")) && bool_decide (err = None)
      then Some res
      else Some (getExtension bytes)
  end.

End Extensions.
End Extensions.

(* ===================================================================== *)
(** ** The Ordered Resolution Pipeline *)
(* ===================================================================== *)

(** Modelled from the spec: [GetMessageQueue], a function of this package
    declared outside [connection.go] (section 4.5: "each accepted event is assigned a monotonically
    increasing sequence slot; resolution work is dispatched concurrently;
    the consumer reads slots strictly in sequence, awaiting the result for
    slot n before ever reading slot n+1 ... the concurrency window bounds
    memory and in-flight resolution work"). Resolution latencies are the
    order in which a schedule finishes the slots. *)
Module Pipeline.
Section Pipeline.
Context {A B : Type}.
Variable resolve : A -> B.
Variable window : nat.

(** One slot of the window: the event and whether its resolution is over. *)
Record Slot := { slot_event : A; slot_done : bool }.

Record State := {
  pending : list A;
  slots : list Slot;
  consumed : list B
}.

Inductive Action :=
| Accept
| Finish (i : nat)
| Consume.

Definition init (input : list A) : State :=
  {| pending := input; slots := []; consumed := [] |}.

(** One transition; [None] when the action is not enabled. *)
Definition step (a : Action) (st : State) : option State :=
  match a with
  | Accept =>
      match pending st with
      | e :: p =>
          if decide (length (slots st) < window)%nat
          then Some {| pending := p;
                       slots := slots st ++ [{| slot_event := e; slot_done := false |}];
                       consumed := consumed st |}
          else None
      | [] => None
      end
  | Finish i =>
      match slots st !! i with
      | Some sl =>
          if slot_done sl then None
          else Some {| pending := pending st;
                       slots := <[i := {| slot_event := slot_event sl;
                                          slot_done := true |}]> (slots st);
                       consumed := consumed st |}
      | None => None
      end
  | Consume =>
      match slots st with
      | sl :: rest =>
          if slot_done sl
          then Some {| pending := pending st; slots := rest;
                       consumed := consumed st ++ [resolve (slot_event sl)] |}
          else None
      | [] => None
      end
  end.

(** A schedule; an action that is not enabled leaves the state as it is. *)
Fixpoint run (sched : list Action) (st : State) : State :=
  match sched with
  | [] => st
  | a :: sched' => run sched' (default st (step a st))
  end.

(** Events whose resolution is in flight. *)
Definition resolving (st : State) : nat :=
  length (List.filter (fun sl => negb (slot_done sl)) (slots st)).

(** No action is enabled. *)
Definition quiescent (st : State) : Prop := forall a, step a st = None.

(** Consumed results, then the window, then the events not yet accepted,
    always spell the input; and the window is never over-full. *)
Definition Inv (input : list A) (st : State) : Prop :=
  resolve <$> input
  = consumed st ++ ((fun sl => resolve (slot_event sl)) <$> slots st)
    ++ (resolve <$> pending st) /\
  (length (slots st) <= window)%nat.

End Pipeline.
End Pipeline.

(** [GetMessageQueue(ctx, messageCh, 50)]. *)
Definition queueSize : nat := 50.

(* ===================================================================== *)
(** ** Concrete scenarios *)
(* ===================================================================== *)

(** A small family of worlds on which the definitions above run: chat IDs
    are strings, the stored object is the decoded record itself, and the
    world counts the socket writes made so far. *)
Module Demo.

Record Scenario := {
  sc_startErr : option Err;
  sc_saveErr : option Err;
  sc_stored : option User;
  sc_loginState : LoginState;
  sc_chats : list (whappChat string);
  sc_history : list Message;
  sc_handleErr : Message -> option Err;
  sc_failedWrite : option nat
}.

Definition demoEnv (sc : Scenario) : Env string unit User nat := {|
  ID_String := fun id => id;
  Identifier := fun c => (if IsGroupChat c then "#" else "") +:+ Name c;
  SafeName := Contact_Name;
  strings_TrimSpace := fun d => d;
  strings_Replace_newlines := fun d => d;
  bridge_Start := fun w => (w, sc_startErr sc);
  bridge_Stop := fun w => w;
  userDb_GetItem := fun _ w => (w, inr (sc_stored sc));
  userDb_SaveItem := fun _ _ w => (w, sc_saveErr sc);
  mapstructure_Decode := fun obj => inr obj;
  WI_Open := fun w => (w, inr (sc_loginState sc));
  WI_SetLocalStorage := fun _ w => (w, None);
  WI_GetLoginCode := fun w => (w, inr "login-code");
  WI_WaitLogin := fun w => (w, None);
  WI_GetLocalStorage := fun w => (w, (∅, None));
  WI_GetMe := fun w => (w, (Some tt, None));
  WI_GetAllChats := fun w => (w, inr (sc_chats sc));
  chat_Participants := fun _ w => (w, inr []);
  GetMessagesFromChatTillDate := fun _ _ w => (w, inr (sc_history sc));
  qrcode_Encode := fun code => inr code;
  strTimestamp := fun w => (w, "0");
  fs_AddBlob := fun name ext _ w => (w, inr {| URL := "http://localhost/" +:+ name |});
  fs_RemoveFile := fun _ w => (w, None);
  writeIRCNow := fun _ w =>
    (S w, if bool_decide (sc_failedWrite sc = Some w) then Some "broken pipe" else None);
  conn_status := fun _ _ w => (w, None);
  handleWhappMessage := fun msg cw => (cw, sc_handleErr sc msg)
|}.

(** Everything succeeds, the store is empty, nobody has written yet. *)
Definition quiet : Scenario := {|
  sc_startErr := None; sc_saveErr := None; sc_stored := None;
  sc_loginState := Loggedin; sc_chats := []; sc_history := [];
  sc_handleErr := fun _ => None; sc_failedWrite := None
|}.

Definition rawC1 (ts : Z) : whappChat string := {|
  raw_ID := "C1"; raw_Title := "family"; raw_IsGroupChat := true;
  raw_Timestamp := ts; raw_Description := None
|}.

Definition rawC2 (ts : Z) : whappChat string := {|
  raw_ID := "C2"; raw_Title := "work"; raw_IsGroupChat := true;
  raw_Timestamp := ts; raw_Description := None
|}.

Definition alice : Participant :=
  {| IsAdmin := true; Contact_IsMe := false; Contact_Name := "alice" |}.
Definition myself : Participant :=
  {| IsAdmin := true; Contact_IsMe := true; Contact_Name := "me" |}.

Definition chatOf (raw : whappChat string) (ps : list Participant) : Chat string := {|
  ID := raw_ID raw; Name := raw_Title raw; IsGroupChat := raw_IsGroupChat raw;
  Participants := ps; Joined := false; MessageIDs := []; rawChat := raw
|}.

(** A connection of nickname [bob] after setup, with the given chats,
    capabilities and watermarks. *)
Definition bob (chats : list (Chat string)) (cs : gset string)
    (tm : gmap string Z) : Connection string unit := {|
  Chats := chats; nickname := "bob"; me := Some tt; caps := cs;
  welcomed := true; welcomeCh_closed := true;
  localStorage := ∅; timestampMap := tm
|}.

Definition start (cn : Connection string unit) : St string unit nat :=
  {| conn := cn; world := 0%nat; trace := [] |}.

Definition msg (ts : Z) : Message := {| Timestamp := ts; Body := "hello" |}.

(** Scenarios. *)
Definition outOfOrder : Scenario := {|
  sc_startErr := None; sc_saveErr := None; sc_stored := None;
  sc_loginState := Loggedin; sc_chats := []; sc_history := [msg 140; msg 120];
  sc_handleErr := fun _ => None; sc_failedWrite := None
|}.

Definition inOrder : Scenario := {|
  sc_startErr := None; sc_saveErr := None; sc_stored := None;
  sc_loginState := Loggedin; sc_chats := [];
  sc_history := [msg 90; msg 120; msg 140];
  sc_handleErr := fun _ => None; sc_failedWrite := None
|}.


Definition noBrowser : Scenario := {|
  sc_startErr := Some "no browser"; sc_saveErr := None; sc_stored := None;
  sc_loginState := Loggedin; sc_chats := []; sc_history := [];
  sc_handleErr := fun _ => None; sc_failedWrite := None
|}.

Definition diskFull : Scenario := {|
  sc_startErr := None; sc_saveErr := Some "disk full"; sc_stored := None;
  sc_loginState := Loggedin; sc_chats := []; sc_history := [];
  sc_handleErr := fun _ => None; sc_failedWrite := None
|}.

Definition brokenPipe : Scenario := {|
  sc_startErr := None; sc_saveErr := None; sc_stored := None;
  sc_loginState := Loggedin; sc_chats := []; sc_history := [];
  sc_handleErr := fun _ => None; sc_failedWrite := Some 1%nat
|}.

Definition family : Chat string := chatOf (rawC1 150) [alice; myself].
Definition work : Chat string := chatOf (rawC2 90) [].

(** Replay not asserted; [C1] has watermark 100 and is now at 150. *)
Definition sNoReplay : St string unit nat :=
  start (bob [family; work] ∅ {[ "C1" := 100 ]}).

(** Replay not asserted; [C1] has watermark 200 but is now at 150. *)
Definition sStale : St string unit nat :=
  start (bob [family] ∅ {[ "C1" := 200 ]}).

(** Replay asserted; watermarks 100 for [C1] and 50 for [C2]. *)
Definition sReplay : St string unit nat :=
  start (bob [family; work] {[ replayCapability ]} {[ "C1" := 100; "C2" := 50 ]}).

(** Before the first NICK. *)
Definition sFresh : St string unit nat := start MakeConnection.

End Demo.

(** Further scenarios and collaborators for the demonstration environment. *)
Module MoreDemo.
Import Demo.

(** The record of a user who has been here before. *)
Definition storedUser : User :=
  {| LocalStorage := ∅; LastReceivedReceipts := {[ "C1" := 100 ]} |}.

Definition returning : Scenario := {|
  sc_startErr := None; sc_saveErr := None; sc_stored := Some storedUser;
  sc_loginState := Loggedin; sc_chats := [rawC1 150]; sc_history := [];
  sc_handleErr := fun _ => None; sc_failedWrite := None
|}.

(** No record; the platform enumerates two chats. *)
Definition firstTime : Scenario := {|
  sc_startErr := None; sc_saveErr := None; sc_stored := None;
  sc_loginState := Loggedin; sc_chats := [rawC1 150; rawC2 90]; sc_history := [];
  sc_handleErr := fun _ => None; sc_failedWrite := None
|}.

(** The socket refuses the very first line. *)
Definition refusing : Scenario := {|
  sc_startErr := None; sc_saveErr := None; sc_stored := None;
  sc_loginState := Loggedin; sc_chats := []; sc_history := [];
  sc_handleErr := fun _ => None; sc_failedWrite := Some 0%nat
|}.

(** Replay asserted; [C1] has watermark 200 and is now at 150. *)
Definition sCurrent : St string unit nat :=
  start (bob [family] {[ replayCapability ]} {[ "C1" := 200 ]}).

(** Replay asserted; [C1] has a watermark, [C2] has none. *)
Definition sNewChat : St string unit nat :=
  start (bob [family; work] {[ replayCapability ]} {[ "C1" := 100 ]}).



(** [C1] has been joined. *)
Definition sJoined : St string unit nat :=
  start (bob [set_Joined true family; work] ∅ ∅).

Definition ErrClosedPipe : HandlerErr :=
  {| he_Error := "io: read/write on closed pipe"; he_isErrClosedPipe := true |}.
Definition unknownChat : HandlerErr :=
  {| he_Error := "unknown chat"; he_isErrClosedPipe := false |}.

(** A command handler that fails on PRIVMSG, with a closed pipe on QUIT. *)
Definition demoHandle (m : IrcMessage) (cw : Connection string unit * nat)
    : (Connection string unit * nat) * option HandlerErr :=
  (cw, if bool_decide (Command m = "QUIT") then Some ErrClosedPipe
       else if bool_decide (Command m = "PRIVMSG") then Some unknownChat
       else None).

(** A handler that never returns [io.ErrClosedPipe]. *)
Definition demoHandleOpen (m : IrcMessage) (cw : Connection string unit * nat)
    : (Connection string unit * nat) * option HandlerErr :=
  (cw, if bool_decide (Command m = "PRIVMSG") then Some unknownChat else None).

Definition privmsg : IrcMessage := {| Command := "PRIVMSG"; Params := ["#family"; "hi"] |}.
Definition join : IrcMessage := {| Command := "JOIN"; Params := ["#family"] |}.
Definition quit : IrcMessage := {| Command := "QUIT"; Params := [] |}.

End MoreDemo.

(* ===================================================================== *)
(** * Properties *)
(* ===================================================================== *)

(** ** [ircSafeString] *)

Module UtilFacts.
Import Util.

Lemma safe_ascii_is_alnum (r : rune) :
  isASCII r = true -> inSafeClass r = true -> asciiAlnumPlus r = true.
Proof.
  unfold isASCII, inSafeClass, asciiAlnumPlus, foldsIntoLetter.
  intros Ha Hs.
  destruct (isLower r || isUpper r || isDigit r || isPlus r) eqn:E; [done|].
  simpl in Hs. apply andb_true_iff in Ha as [_ Hlt].
  apply Z.ltb_lt in Hlt.
  apply orb_true_iff in Hs as [Hs | Hs]; apply Z.eqb_eq in Hs; lia.
Qed.

Lemma alnum_is_safe (r : rune) : asciiAlnumPlus r = true -> inSafeClass r = true.
Proof.
  unfold inSafeClass, asciiAlnumPlus. intros ->. reflexivity.
Qed.

Lemma replace_keeps_alnum (s : list rune) :
  Forall (fun r => isASCII r = true) s ->
  Forall (fun r => asciiAlnumPlus r = true) (ReplaceAllLiteralString_empty s).
Proof.
  induction 1 as [| r s Hr _ IH]; simpl; [constructor|].
  unfold unsafeRegex. rewrite negb_involutive.
  destruct (inSafeClass r) eqn:E; [|exact IH].
  constructor; [by apply safe_ascii_is_alnum | exact IH].
Qed.

Lemma replace_fixes_alnum (s : list rune) :
  Forall (fun r => asciiAlnumPlus r = true) s ->
  ReplaceAllLiteralString_empty s = s.
Proof.
  induction 1 as [| r s Hr _ IH]; simpl; [reflexivity|].
  unfold unsafeRegex. rewrite negb_involutive, (alnum_is_safe _ Hr).
  f_equal. exact IH.
Qed.

(** The regular expression alone lets the Kelvin sign through: the ASCII
    output of the transliterator is what the result's alphabet rests on. *)
Example kelvin_sign_survives_regexp :
  ReplaceAllLiteralString_empty [75; 8490; 33] = [75; 8490].
Proof. reflexivity. Qed.

Lemma toyUnidecode_ascii (s : list rune) :
  Forall (fun r => isASCII r = true) (toyUnidecode s).
Proof.
  induction s as [| r s IH]; simpl; constructor; [|exact IH].
  destruct (isASCII r) eqn:E; [exact E | reflexivity].
Qed.

Lemma alnum_is_ascii (r : rune) : asciiAlnumPlus r = true -> isASCII r = true.
Proof.
  unfold asciiAlnumPlus, isASCII, isLower, isUpper, isDigit, isPlus. intros H.
  apply andb_true_iff. rewrite Z.leb_le, Z.ltb_lt.
  repeat (apply orb_true_iff in H as [H | H]);
    try (apply andb_true_iff in H as [H1 H2]; apply Z.leb_le in H1, H2; lia).
  apply Z.eqb_eq in H. lia.
Qed.

Lemma toyUnidecode_fixes_alnum (s : list rune) :
  Forall (fun r => asciiAlnumPlus r = true) s -> toyUnidecode s = s.
Proof.
  induction 1 as [| r s Hr _ IH]; simpl; [reflexivity|].
  rewrite (alnum_is_ascii _ Hr). f_equal. exact IH.
Qed.

(** C10. Whenever the transliterator returns ASCII text and leaves text made
    of ASCII letters, digits and ['+'] alone, the output of [ircSafeString]
    contains only ASCII letters, decimal digits and ['+'], and applying
    [ircSafeString] to its own output returns that output unchanged. *)
Theorem ircSafeString_alphabet_idempotent
    (Unidecode : list rune -> list rune)
    (Hascii : forall s, Forall (fun r => isASCII r = true) (Unidecode s))
    (Hfix : forall s, Forall (fun r => asciiAlnumPlus r = true) s -> Unidecode s = s)
    (str : list rune) :
  Forall (fun r => asciiAlnumPlus r = true) (ircSafeString Unidecode str) /\
  ircSafeString Unidecode (ircSafeString Unidecode str) = ircSafeString Unidecode str.
Proof.
  assert (Hout : Forall (fun r => asciiAlnumPlus r = true) (ircSafeString Unidecode str)).
  { unfold ircSafeString. apply replace_keeps_alnum, Hascii. }
  split; [exact Hout|].
  unfold ircSafeString at 1. cbv zeta.
  rewrite (Hfix _ Hout). by apply replace_fixes_alnum.
Qed.

(** The statement above at the stand-in transliterator, on "Hé, wörld+1". *)
Lemma ircSafeString_alphabet_idempotent_witness :
  Forall (fun r => asciiAlnumPlus r = true)
         (ircSafeString toyUnidecode [72; 233; 44; 32; 119; 246; 114; 108; 100; 43; 49]) /\
  ircSafeString toyUnidecode
    (ircSafeString toyUnidecode [72; 233; 44; 32; 119; 246; 114; 108; 100; 43; 49])
  = ircSafeString toyUnidecode [72; 233; 44; 32; 119; 246; 114; 108; 100; 43; 49].
Proof.
  apply (ircSafeString_alphabet_idempotent toyUnidecode
           toyUnidecode_ascii toyUnidecode_fixes_alnum).
Defined.

End UtilFacts.

(** ** The connection *)

Section Facts.
Context {whappID Me Obj W : Type} `{EqDecision whappID}.
Variable env : Env whappID Me Obj W.

Local Open Scope conn_scope.
Local Abbreviation Mc := (M whappID Me W).
Local Abbreviation State := (St whappID Me W).

(** *** Chat list *)

Lemma indexOfID_Some (id : whappID) (l : list (Chat whappID)) (i : nat) :
  indexOfID id l = Some i ->
  exists old, l !! i = Some old /\ ID old = id.
Proof.
  revert i. induction l as [| c l IH]; intros i; simpl; [done|].
  destruct (decide (ID c = id)) as [Heq | Hne].
  - intros [= <-]. by exists c.
  - destruct (indexOfID id l) as [j|] eqn:E; simpl; [|done].
    intros [= <-]. destruct (IH j eq_refl) as (old & Hl & Hid). by exists old.
Qed.

Lemma indexOfID_None (id : whappID) (l : list (Chat whappID)) :
  indexOfID id l = None -> id ∉ ID <$> l.
Proof.
  induction l as [| c l IH]; simpl; [intros _; apply not_elem_of_nil|].
  destruct (decide (ID c = id)) as [Heq | Hne]; [done|].
  destruct (indexOfID id l) eqn:E; simpl; [done|].
  intros _. rewrite not_elem_of_cons. split; [congruence | by apply IH].
Qed.

Lemma indexOfID_is_Some (id : whappID) (l : list (Chat whappID)) :
  id ∈ ID <$> l -> is_Some (indexOfID id l).
Proof.
  intros Hin. destruct (indexOfID id l) eqn:E; [by eexists|].
  by apply indexOfID_None in E.
Qed.

Lemma upsertChat_IDs (chat : Chat whappID) (l : list (Chat whappID)) :
  ID <$> upsertChat chat l
  = if decide (ID chat ∈ ID <$> l) then ID <$> l else (ID <$> l) ++ [ID chat].
Proof.
  unfold upsertChat. destruct (indexOfID (ID chat) l) as [i|] eqn:E.
  - destruct (indexOfID_Some _ _ _ E) as (old & Hl & Hid).
    rewrite decide_True.
    + rewrite list_fmap_insert. apply list_insert_id.
      by rewrite list_lookup_fmap, Hl; simpl; rewrite Hid.
    + apply list_elem_of_fmap. exists old. split; [done|].
      by eapply list_elem_of_lookup_2.
  - rewrite decide_False by by apply indexOfID_None.
    by rewrite fmap_app.
Qed.

Lemma upsertChat_NoDup (chat : Chat whappID) (l : list (Chat whappID)) :
  NoDup (ID <$> l) -> NoDup (ID <$> upsertChat chat l).
Proof.
  intros Hnd. rewrite upsertChat_IDs. case_decide; [done|].
  apply NoDup_app. split; [done|]. split; [|apply NoDup_singleton].
  intros x Hx Hx'. apply list_elem_of_singleton in Hx'. by subst.
Qed.

(** What [addChat] does, by the outcome of fetching the participants. *)
Lemma addChat_unfold (raw : whappChat whappID) (s : State) :
  match chat_Participants env raw (world s) with
  | (w, inl err) =>
      addChat env raw s = ({| conn := conn s; world := w; trace := trace s |}, inl err)
  | (w, inr ps) =>
      exists chat ev,
        chat = {| ID := raw_ID raw; Name := raw_Title raw;
                  IsGroupChat := raw_IsGroupChat raw;
                  Participants := ps; Joined := false; MessageIDs := [];
                  rawChat := raw |} /\
        addChat env raw s
        = ({| conn := set_Chats (upsertChat chat (Chats (conn s))) (conn s);
              world := w; trace := trace s ++ [ev] |}, inr chat)
  end.
Proof.
  unfold addChat, convertChat, bind, callWorld, ret, modifyConn, logPrintf,
    logPrintln, emit.
  destruct (chat_Participants env raw (world s)) as [w [err | ps]]; simpl; [done|].
  rewrite map_id.
  destruct (raw_IsGroupChat raw); simpl; eauto.
Qed.

Lemma addChat_NoDup (raw : whappChat whappID) (s : State) :
  NoDup (ID <$> Chats (conn s)) ->
  NoDup (ID <$> Chats (conn (addChat env raw s).1)).
Proof.
  intros Hnd. pose proof (addChat_unfold raw s) as Hu.
  destruct (chat_Participants env raw (world s)) as [w [err | ps]].
  - by rewrite Hu.
  - destruct Hu as (chat & ev & _ & ->). simpl. by apply upsertChat_NoDup.
Qed.

Lemma indexOfID_first (id : whappID) (l : list (Chat whappID)) (i : nat) :
  indexOfID id l = Some i ->
  forall j c, (j < i)%nat -> l !! j = Some c -> ID c <> id.
Proof.
  revert i. induction l as [| c0 l IH]; intros i; simpl; [done|].
  destruct (decide (ID c0 = id)) as [Heq | Hne].
  - intros [= <-] j c Hj. lia.
  - destruct (indexOfID id l) as [i'|] eqn:E; simpl; [|done].
    intros [= <-] [| j] c Hj; simpl.
    + by intros [= <-].
    + apply (IH i' eq_refl). lia.
Qed.

(** C6. From a chat list with at most one chat per ID (the fresh
    connection's empty list in particular), every sequence of [addChat]
    calls leaves at most one chat per ID. A call succeeds exactly when the
    participants can be fetched, and then stores the fresh projection of the
    platform's chat: in place of the existing entry, at the position of the
    first chat with that ID and with the list length unchanged, when the ID
    is already in the list; appended at the end when it is new. When the
    participants cannot be fetched the call returns that error and the list
    is unchanged. *)
Theorem addChat_one_chat_per_ID
    (raws : list (whappChat whappID)) (s0 : State)
    (Hfresh : NoDup (ID <$> Chats (conn s0))) :
  NoDup (ID <$> Chats (conn (foldl (fun s raw => (addChat env raw s).1) s0 raws))) /\
  forall (raw : whappChat whappID) (s : State),
    match chat_Participants env raw (world s) with
    | (w, inr ps) =>
        let chat := {| ID := raw_ID raw; Name := raw_Title raw;
                       IsGroupChat := raw_IsGroupChat raw;
                       Participants := ps; Joined := false; MessageIDs := [];
                       rawChat := raw |} in
        exists s',
          addChat env raw s = (s', inr chat) /\
          world s' = w /\
          (raw_ID raw ∈ ID <$> Chats (conn s) ->
             exists i old,
               Chats (conn s) !! i = Some old /\ ID old = raw_ID raw /\
               (forall j c, (j < i)%nat -> Chats (conn s) !! j = Some c ->
                            ID c <> raw_ID raw) /\
               Chats (conn s') = <[i := chat]> (Chats (conn s)) /\
               Chats (conn s') !! i = Some chat /\
               length (Chats (conn s')) = length (Chats (conn s))) /\
          (raw_ID raw ∉ ID <$> Chats (conn s) ->
             Chats (conn s') = Chats (conn s) ++ [chat])
    | (w, inl err) =>
        addChat env raw s
        = ({| conn := conn s; world := w; trace := trace s |}, inl err)
    end.
Proof.
  split.
  - revert s0 Hfresh. induction raws as [| raw raws IH]; intros s0 Hfresh; simpl.
    + exact Hfresh.
    + apply IH. by apply addChat_NoDup.
  - intros raw s.
    pose proof (addChat_unfold raw s) as Hu.
    destruct (chat_Participants env raw (world s)) as [w [err | ps]]; [exact Hu|].
    destruct Hu as (chat' & ev & -> & Hu). cbv zeta.
    eexists. split; [exact Hu|]. cbn [conn world set_Chats Chats].
    split; [reflexivity|]. unfold upsertChat. cbn [ID]. split.
    + intros Hin. destruct (indexOfID_is_Some _ _ Hin) as [i Hi]. rewrite Hi.
      destruct (indexOfID_Some _ _ _ Hi) as (old & Hl & Hold).
      exists i, old. split; [exact Hl|]. split; [exact Hold|].
      split; [exact (indexOfID_first _ _ _ Hi)|]. split; [reflexivity|]. split.
      * apply list_lookup_insert_eq. by eapply lookup_lt_Some.
      * apply length_insert.
    + intros Hnin.
      destruct (indexOfID (raw_ID raw) (Chats (conn s))) as [i|] eqn:E; [|done].
      destruct (indexOfID_Some _ _ _ E) as (old & Hl & Hold).
      exfalso. apply Hnin. apply list_elem_of_fmap. exists old.
      split; [done|]. by eapply list_elem_of_lookup_2.
Qed.

(** *** Reading traces and running loops *)

Lemma handledMessages_app (evs1 evs2 : list Event) :
  handledMessages (evs1 ++ evs2) = handledMessages evs1 ++ handledMessages evs2.
Proof. unfold handledMessages. apply flat_map_app. Qed.

Lemma fetches_app (evs1 evs2 : list Event) :
  fetches (evs1 ++ evs2) = fetches evs1 ++ fetches evs2.
Proof. unfold fetches. apply flat_map_app. Qed.

Lemma writtenLines_app (evs1 evs2 : list Event) :
  writtenLines (evs1 ++ evs2) = writtenLines evs1 ++ writtenLines evs2.
Proof. unfold writtenLines. apply flat_map_app. Qed.

Lemma supervision_app (evs1 evs2 : list Event) :
  supervision (evs1 ++ evs2) = supervision evs1 ++ supervision evs2.
Proof. unfold supervision. apply List.filter_app. Qed.

(** A [return err] in the body ends a range loop at once. *)
Lemma forRange_return {A} (body : A -> Mc (option Err)) (x : A) (l : list A)
    (s s' : State) (err : Err) :
  body x s = (s', Some err) -> forRange body (x :: l) s = (s', Some err).
Proof. intros Hb. simpl. unfold andThen, bind. by rewrite Hb. Qed.

Lemma forRange_continue {A} (body : A -> Mc (option Err)) (x : A) (l : list A)
    (s s' : State) :
  body x s = (s', None) -> forRange body (x :: l) s = forRange body l s'.
Proof. intros Hb. simpl. unfold andThen, bind. by rewrite Hb. Qed.

Lemma state_eta (s : State) :
  {| conn := conn s; world := world s; trace := trace s |} = s.
Proof. by destruct s. Qed.

Lemma set_timestampMap_same (cn : Connection whappID Me) :
  set_timestampMap (timestampMap cn) cn = cn.
Proof. by destruct cn. Qed.

Lemma status_unfold (msg : string) (s : State) :
  status env msg s
  = ({| conn := conn s; world := (conn_status env (conn s) msg (world s)).1;
        trace := trace s ++ [EvStatus msg] |},
     (conn_status env (conn s) msg (world s)).2).
Proof.
  unfold status, bind, emit, getConn, callWorld. simpl.
  by destruct (conn_status env (conn s) msg (world s)).
Qed.

Lemma handle_unfold (msg : Message) (s : State) :
  handle env msg s
  = ({| conn := (handleWhappMessage env msg (conn s, world s)).1.1;
        world := (handleWhappMessage env msg (conn s, world s)).1.2;
        trace := trace s ++ [EvHandleWhappMessage msg] |},
     (handleWhappMessage env msg (conn s, world s)).2).
Proof.
  unfold handle, bind, emit. simpl.
  by destruct (handleWhappMessage env msg (conn s, world s)) as [[c w] r].
Qed.

(** *** Catch-up without replay *)

(** The watermark key of a chat and the writes of a reset run. *)
Local Abbreviation chatKey c := (ID_String env (ID c)).
Local Abbreviation resetAll tm chats :=
  (foldl (fun (m : gmap string Z) (c : Chat whappID) =>
            <[chatKey c := raw_Timestamp (rawChat c)]> m) tm chats).

Lemma catchUpChat_reset (empty : bool) (c : Chat whappID) (s : State) :
  empty || negb (HasCapability (conn s) replayCapability) = true ->
  catchUpChat env empty c s
  = ({| conn := set_timestampMap
                  (<[chatKey c := raw_Timestamp (rawChat c)]> (timestampMap (conn s)))
                  (conn s);
        world := world s;
        trace := trace s ++ [EvGoSaveDatabaseEntry] |}, None).
Proof.
  intros Hreset. unfold catchUpChat, bind, getConn.
  destruct (TimestampMap.Get (timestampMap (conn s)) (chatKey c)) as [prev found].
  rewrite Hreset. reflexivity.
Qed.

Lemma catchUp_loop_reset (empty : bool) (chats : list (Chat whappID)) (s : State) :
  empty || negb (HasCapability (conn s) replayCapability) = true ->
  forRange (catchUpChat env empty) chats s
  = ({| conn := set_timestampMap (resetAll (timestampMap (conn s)) chats) (conn s);
        world := world s;
        trace := trace s ++ ((fun _ => EvGoSaveDatabaseEntry) <$> chats) |}, None).
Proof.
  revert s. induction chats as [| c chats IH]; intros s Hreset.
  - simpl. unfold ret. rewrite set_timestampMap_same, app_nil_r.
    by rewrite state_eta.
  - rewrite (forRange_continue _ _ _ _ _ (catchUpChat_reset empty c s Hreset)).
    rewrite IH by exact Hreset. simpl. by rewrite <- app_assoc.
Qed.

Lemma resetAll_other (k : string) (chats : list (Chat whappID)) (tm : gmap string Z) :
  k ∉ (fun c => chatKey c) <$> chats -> resetAll tm chats !! k = tm !! k.
Proof.
  revert tm. induction chats as [| c chats IH]; intros tm Hk; simpl; [done|].
  rewrite fmap_cons, not_elem_of_cons in Hk. destruct Hk as [Hne Hk].
  rewrite IH by exact Hk. by apply lookup_insert_ne.
Qed.

Lemma resetAll_chat (c : Chat whappID) (chats : list (Chat whappID)) (tm : gmap string Z) :
  NoDup ((fun c => chatKey c) <$> chats) -> c ∈ chats ->
  resetAll tm chats !! chatKey c = Some (raw_Timestamp (rawChat c)).
Proof.
  revert tm. induction chats as [| c0 chats IH]; intros tm Hnd Hin.
  - by apply elem_of_nil in Hin.
  - rewrite fmap_cons in Hnd. apply NoDup_cons in Hnd as [Hfresh Hnd].
    apply elem_of_cons in Hin as [-> | Hin]; simpl.
    + rewrite resetAll_other by exact Hfresh. apply lookup_insert_eq.
    + by apply IH.
Qed.

Lemma reset_flag (s : State) :
  TimestampMap.Length (timestampMap (conn s)) = 0%nat \/
  HasCapability (conn s) replayCapability = false ->
  Nat.eqb (TimestampMap.Length (timestampMap (conn s))) 0
  || negb (HasCapability (conn s) replayCapability) = true.
Proof. intros [-> | ->]; [reflexivity | apply orb_true_r]. Qed.

(** The Watermark Map after a catch-up run without replay. *)
Lemma catchUp_reset_map (s : State) :
  TimestampMap.Length (timestampMap (conn s)) = 0%nat \/
  HasCapability (conn s) replayCapability = false ->
  timestampMap (conn (catchUp env s).1)
  = resetAll (timestampMap (conn s)) (Chats (conn s)).
Proof.
  intros Hreset. unfold catchUp, andThen. unfold bind, getConn.
  rewrite (catchUp_loop_reset _ _ _ (reset_flag s Hreset)), status_unfold.
  reflexivity.
Qed.


(** *** Catch-up with replay *)

(** The replay loop hands over, in fetch order, messages newer than
    [prevTimestamp], and stops at the first one whose handling fails. *)
Lemma replay_loop (prev : Z) (msgs : list Message) (s : State) :
  exists evs rest,
    trace (forRange (replayMessage env prev) msgs s).1 = trace s ++ evs /\
    fetches evs = [] /\
    List.filter (fun m => prev <? Timestamp m) msgs = handledMessages evs ++ rest.
Proof.
  revert s. induction msgs as [| m msgs IH]; intros s.
  - exists [], []. simpl. by rewrite app_nil_r.
  - simpl. unfold andThen. unfold bind at 1. unfold replayMessage at 1.
    destruct (Timestamp m <=? prev) eqn:Hle.
    + assert (Hlt : (prev <? Timestamp m) = false) by lia. rewrite Hlt.
      unfold ret at 1. apply IH.
    + assert (Hlt : (prev <? Timestamp m) = true) by lia. rewrite Hlt.
      unfold bind at 1. rewrite handle_unfold.
      destruct (handleWhappMessage env m (conn s, world s)) as [[cn w] [err|]]; simpl.
      * eexists [EvHandleWhappMessage m; EvLogPrintf _ [err]], _. simpl.
        split; [by rewrite <- app_assoc|]. split; reflexivity.
      * match goal with |- context [forRange _ msgs ?s1] =>
          destruct (IH s1) as (evs & rest & Htr & Hf & Hh) end.
        exists (EvHandleWhappMessage m :: evs), rest. simpl in Htr.
        split; [by rewrite Htr, <- app_assoc|].
        split; [exact Hf|]. simpl. by rewrite Hh.
Qed.

Lemma filter_newer_sorted (prev : Z) (msgs : list Message) :
  StronglySorted Z.le (Timestamp <$> msgs) ->
  StronglySorted Z.le (Timestamp <$> List.filter (fun m => prev <? Timestamp m) msgs).
Proof.
  induction msgs as [| m msgs IH]; [done|].
  rewrite fmap_cons. intros Hs. apply StronglySorted_inv in Hs as [Hs Hall].
  cbn [List.filter]. destruct (prev <? Timestamp m); [|by apply IH].
  rewrite fmap_cons. constructor; [by apply IH|].
  rewrite Forall_forall in Hall |- *. intros t Ht. apply Hall.
  apply list_elem_of_fmap in Ht as (m' & -> & Hin).
  apply list_elem_of_fmap. exists m'. split; [done|].
  apply list_elem_of_In, filter_In in Hin as [Hin _]. by apply list_elem_of_In.
Qed.

(** C2, as the code has it. For every chat and every watermark state, the
    messages catch-up hands over for that chat all have a timestamp strictly
    greater than the watermark in effect when the chat's turn starts
    ([math.MinInt64] when the chat has none), and they are, in the order the
    history fetch returned them, an initial part of the fetched messages
    newer than that watermark; hence they are non-decreasing in timestamp
    whenever the fetch result is. *)
Theorem catchUpChat_delivers_newer_in_fetch_order
    (empty : bool) (c : Chat whappID) (s : State) :
  let since := match timestampMap (conn s) !! chatKey c with
               | Some w => w
               | None => MinInt64
               end in
  exists evs,
    trace (catchUpChat env empty c s).1 = trace s ++ evs /\
    (forall m, m ∈ handledMessages evs -> since < Timestamp m) /\
    (forall m w, m ∈ handledMessages evs ->
       timestampMap (conn s) !! chatKey c = Some w -> w < Timestamp m) /\
    (forall w msgs,
       GetMessagesFromChatTillDate env (rawChat c) since (world s) = (w, inr msgs) ->
       (exists rest,
          List.filter (fun m => since <? Timestamp m) msgs
          = handledMessages evs ++ rest) /\
       (Sorted Z.le (Timestamp <$> msgs) ->
        Sorted Z.le (Timestamp <$> handledMessages evs))).
Proof.
  intros since.
  assert (Hcore : exists evs,
    trace (catchUpChat env empty c s).1 = trace s ++ evs /\
    (handledMessages evs = [] \/
     exists w msgs rest,
       GetMessagesFromChatTillDate env (rawChat c) since (world s) = (w, inr msgs) /\
       List.filter (fun m => since <? Timestamp m) msgs = handledMessages evs ++ rest)).
  { destruct (empty || negb (HasCapability (conn s) replayCapability)) eqn:Hreset.
    { rewrite (catchUpChat_reset _ _ _ Hreset). simpl.
      exists [EvGoSaveDatabaseEntry]. split; [done|]. by left. }
    unfold catchUpChat, bind, getConn. unfold TimestampMap.Get.
    assert (Hsince : (if match timestampMap (conn s) !! chatKey c with
                         | Some _ => true | None => false end
                      then match timestampMap (conn s) !! chatKey c with
                           | Some v => v | None => 0 end
                      else MinInt64) = since).
    { subst since. by destruct (timestampMap (conn s) !! chatKey c). }
    destruct (timestampMap (conn s) !! chatKey c) as [v|] eqn:Hlook;
      rewrite Hreset; simpl in Hsince |- *;
      (match goal with |- context [raw_Timestamp (rawChat c) <=? ?p] =>
         destruct (raw_Timestamp (rawChat c) <=? p) end);
      first
        [ by (exists []; simpl; rewrite app_nil_r; split; [done|]; left)
        | rewrite Hsince; unfold emit, callWorld; simpl;
          destruct (GetMessagesFromChatTillDate env (rawChat c) since (world s))
            as [w' [err | msgs']] eqn:Hfetch; simpl;
          [ eexists [EvGetMessages _ _; EvLogPrintf _ _]; simpl;
            rewrite <- app_assoc; split; [done|]; by left
          | match goal with |- context [forRange _ msgs' ?s1] =>
              destruct (replay_loop since msgs' s1) as (evs & rest & Htr & _ & Hh) end;
            exists (EvGetMessages (chatKey c) since :: evs); simpl in Htr |- *;
            split; [by rewrite Htr, <- app_assoc|];
            right; by exists w', msgs', rest ] ]. }
  destruct Hcore as (evs & Htr & Hcore). exists evs. split; [exact Htr|].
  assert (Hnewer : forall m, m ∈ handledMessages evs -> since < Timestamp m).
  { intros m Hm. destruct Hcore as [Hnone | (w & msgs & rest & _ & Hrest)].
    - rewrite Hnone in Hm. by apply elem_of_nil in Hm.
    - assert (Hin : In m (List.filter (fun m => since <? Timestamp m) msgs)).
      { rewrite Hrest. apply in_or_app. left. by apply list_elem_of_In. }
      apply filter_In in Hin as [_ Hlt]. lia. }
  split; [exact Hnewer|].
  split.
  { intros m w Hm Hw. specialize (Hnewer m Hm). subst since. by rewrite Hw in Hnewer. }
  intros w msgs Hf.
  assert (Hpre : exists rest,
             List.filter (fun m => since <? Timestamp m) msgs
             = handledMessages evs ++ rest).
  { destruct Hcore as [-> | (w' & msgs' & rest & Hf' & Hrest)]; [by eexists|].
    rewrite Hf in Hf'. injection Hf' as _ <-. by exists rest. }
  split; [exact Hpre|]. destruct Hpre as [rest Hrest].
  intros Hsorted. apply StronglySorted_Sorted.
  apply (Sorted_StronglySorted _) in Hsorted.
  apply (filter_newer_sorted since) in Hsorted.
  rewrite Hrest, fmap_app in Hsorted. by apply StronglySorted_app_1_l in Hsorted.
Qed.

(** *** Per-message failures *)

Lemma relayOne_trace (r : MessageRes) (s : State) :
  exists evs,
    trace (relayOne env r s).1 = trace s ++ evs /\
    handledMessages evs
    = (if bool_decide (res_Err r = None) then [res_Message r] else []) /\
    forall err,
      match res_Err r with
      | None => (handleWhappMessage env (res_Message r) (conn s, world s)).2
      | Some e => Some e
      end = Some err ->
      exists evs0,
        evs = evs0 ++ [EvLogPrintf "error handling new whapp message: %s\n" [err]].
Proof.
  unfold relayOne, bind. destruct (res_Err r) as [e|] eqn:Hr.
  - unfold ret, logIfErr, logPrintf, emit. simpl. eexists. split; [done|].
    split; [done|]. intros err [= <-]. by exists [].
  - rewrite handle_unfold.
    destruct (handleWhappMessage env (res_Message r) (conn s, world s))
      as [[cn w] [e|]]; unfold logIfErr, logPrintf, emit, ret; simpl.
    + exists [EvHandleWhappMessage (res_Message r);
              EvLogPrintf "error handling new whapp message: %s\n" [e]].
      split; [by rewrite <- app_assoc|]. split; [done|].
      intros err [= <-]. by eexists [_].
    + exists [EvHandleWhappMessage (res_Message r)]. by repeat split.
Qed.




(** *** The watermark under reset and restore *)

Lemma restoreUser_map (obj : Obj) (user : User) (s : State) :
  mapstructure_Decode env obj = inr user ->
  timestampMap (conn (restoreUser env obj s).1) = LastReceivedReceipts user.
Proof.
  intros Hdec. unfold restoreUser. rewrite Hdec.
  unfold bind, modifyConn, tryBind, bind, callWorld. simpl.
  destruct (WI_Open env (world s)) as [w [err | st]]; simpl; [done|].
  destruct (WI_SetLocalStorage env (LocalStorage user) w) as [w' [err|]]; done.
Qed.

(** C7, as the code has it. The reset of a catch-up run without replay
    writes each chat's current raw timestamp whatever the previous entry
    was, and leaves the entries of other keys alone; record restore replaces
    the whole map by the persisted snapshot whatever the map held. Neither
    compares with the previous value: over chats with pairwise distinct
    keys, an entry is kept or raised by the reset exactly when the chat's
    current raw timestamp is not older than it, and is rewound otherwise. So
    when no chat's current raw timestamp is older than its watermark, a run
    without replay leaves every entry of the map present with a value
    greater than or equal to the previous one. *)
Theorem reset_keeps_watermarks_when_chats_are_current (s : State)
    (Hreset : TimestampMap.Length (timestampMap (conn s)) = 0%nat \/
              HasCapability (conn s) replayCapability = false)
    (Hkeys : NoDup ((fun c => chatKey c) <$> Chats (conn s))) :
  (forall c, c ∈ Chats (conn s) ->
     timestampMap (conn (catchUp env s).1) !! chatKey c
     = Some (raw_Timestamp (rawChat c))) /\
  (forall k, k ∉ (fun c => chatKey c) <$> Chats (conn s) ->
     timestampMap (conn (catchUp env s).1) !! k = timestampMap (conn s) !! k) /\
  (forall c w, c ∈ Chats (conn s) ->
     timestampMap (conn s) !! chatKey c = Some w ->
     exists w',
       timestampMap (conn (catchUp env s).1) !! chatKey c = Some w' /\
       (w <= w' <-> w <= raw_Timestamp (rawChat c)) /\
       (w' < w <-> raw_Timestamp (rawChat c) < w)) /\
  ((forall c w, c ∈ Chats (conn s) ->
      timestampMap (conn s) !! chatKey c = Some w ->
      w <= raw_Timestamp (rawChat c)) ->
   forall k w, timestampMap (conn s) !! k = Some w ->
     exists w', timestampMap (conn (catchUp env s).1) !! k = Some w' /\ w <= w') /\
  (forall obj user s0,
     mapstructure_Decode env obj = inr user ->
     timestampMap (conn (restoreUser env obj s0).1) = LastReceivedReceipts user).
Proof.
  rewrite (catchUp_reset_map s Hreset).
  assert (Hwrite : forall c, c ∈ Chats (conn s) ->
            resetAll (timestampMap (conn s)) (Chats (conn s)) !! chatKey c
            = Some (raw_Timestamp (rawChat c))).
  { intros c Hc. by apply resetAll_chat. }
  split; [exact Hwrite|]. split; [|split; [|split]].
  - intros k Hk. by apply resetAll_other.
  - intros c w Hc Hw. exists (raw_Timestamp (rawChat c)).
    split; [by apply Hwrite|]. split; reflexivity.
  - intros Hcurrent k w Hk.
    destruct (decide (k ∈ (fun c => chatKey c) <$> Chats (conn s))) as [Hin | Hnin].
    + apply list_elem_of_fmap in Hin as (c & -> & Hc).
      exists (raw_Timestamp (rawChat c)). split; [by apply Hwrite|].
      by apply Hcurrent.
    + exists w. split; [|lia]. by rewrite resetAll_other.
  - intros obj user s0. apply restoreUser_map.
Qed.

(** *** Joining a chat *)

Lemma writeIRC_unfold (line : string) (s : State) :
  writeIRC env line s
  = ({| conn := conn s; world := (writeIRCNow env line (world s)).1;
        trace := trace s ++ [EvWriteIRC line (writeIRCNow env line (world s)).2] |},
     (writeIRCNow env line (world s)).2).
Proof.
  unfold writeIRC, bind, callWorld, emit, ret.
  by destruct (writeIRCNow env line (world s)).
Qed.

Section SocketWritable.
(** The socket accepts every line. *)
Hypothesis Hsocket : forall line w, (writeIRCNow env line w).2 = None.

Lemma writeIRC_ok (line : string) (s : State) :
  writeIRC env line s
  = ({| conn := conn s; world := (writeIRCNow env line (world s)).1;
        trace := trace s ++ [EvWriteIRC line None] |}, None).
Proof. by rewrite writeIRC_unfold, Hsocket. Qed.

Lemma joinNames_ok (identifier nick : string) (ps : list Participant)
    (names : list string) (s : State) :
  exists s' evs,
    joinNames env identifier nick ps names s
    = (s', names ++ List.map (fun p => (if IsAdmin p then "@" else "") +:+ SafeName env p)
                      (List.filter (fun p => negb (Contact_IsMe p)) ps)) /\
    conn s' = conn s /\
    trace s' = trace s ++ evs /\
    writtenLines evs
    = List.map (fun _ : Participant => ":whapp-irc MODE " +:+ identifier +:+ " +o " +:+ nick)
               (List.filter (fun p => Contact_IsMe p && IsAdmin p) ps).
Proof.
  revert names s. induction ps as [| p ps IH]; intros names s.
  - exists s, []. simpl. unfold ret. by rewrite !app_nil_r.
  - simpl. destruct (Contact_IsMe p) eqn:Hme; simpl.
    + destruct (IsAdmin p) eqn:Hadm; unfold bind at 1.
      * unfold bind at 1. rewrite writeIRC_ok. unfold ret at 1.
        match goal with |- context [joinNames _ _ _ ps names ?s1] =>
          destruct (IH names s1) as (s' & evs & Hrun & Hconn & Htr & Hw) end.
        exists s', (EvWriteIRC (":whapp-irc MODE " +:+ identifier +:+ " +o " +:+ nick) None
                    :: evs).
        split; [exact Hrun|]. split; [exact Hconn|].
        split; [by rewrite Htr; simpl; rewrite <- app_assoc|].
        simpl. by rewrite Hw.
      * unfold ret at 1. apply IH.
    + destruct (IH (names ++ [(if IsAdmin p then "@" else "") +:+ SafeName env p]) s)
        as (s' & evs & Hrun & Hconn & Htr & Hw).
      exists s', evs. rewrite Hrun, <- app_assoc. by repeat split.
Qed.

Lemma joinChat_first (c : Chat whappID) (s : State) :
  IsGroupChat c = true -> Joined c = false ->
  exists s1 evs,
    joinChat env (Some c) s = (s1, (Some (set_Joined true c), None)) /\
    trace s1 = trace s ++ evs /\
    writtenLines evs = joinSequence env (nickname (conn s)) c.
Proof.
  intros Hgroup Hnew. unfold joinChat. rewrite Hgroup, Hnew. simpl.
  unfold bind at 1. unfold getConn at 1.
  unfold bind at 1. rewrite writeIRC_ok.
  unfold bind at 1. rewrite writeIRC_ok.
  unfold bind at 1.
  match goal with |- context [joinNames _ ?i ?n ?ps [] ?s1] =>
    destruct (joinNames_ok i n ps [] s1) as (s2 & evs & Hrun & Hconn & Htr & Hw) end.
  rewrite Hrun. simpl.
  unfold bind at 1. rewrite writeIRC_ok.
  unfold bind at 1. rewrite writeIRC_ok.
  unfold ret. eexists _, _. split; [reflexivity|]. simpl.
  rewrite Htr. simpl. split.
  - rewrite <- !app_assoc. simpl. reflexivity.
  - unfold joinSequence. simpl. rewrite writtenLines_app, Hw. reflexivity.
Qed.

End SocketWritable.


(** *** Computations that always fail *)

Lemma fails_bind {A} (c : Mc A) (k : A -> Mc (option Err)) :
  (forall a, AlwaysFails (k a)) -> AlwaysFails (bind c k).
Proof. intros Hk s. unfold bind. destruct (c s) as [s' a]. apply Hk. Qed.

Lemma fails_andThen_l (c k : Mc (option Err)) :
  AlwaysFails c -> AlwaysFails (andThen c k).
Proof.
  intros Hc s. unfold andThen, bind. specialize (Hc s).
  destruct (c s) as [s' [err|]]; [done|]. by simpl in Hc.
Qed.

Lemma fails_andThen_r (c k : Mc (option Err)) :
  AlwaysFails k -> AlwaysFails (andThen c k).
Proof.
  intros Hk s. unfold andThen, bind.
  destruct (c s) as [s' [err|]]; [done|]. apply Hk.
Qed.

Lemma fails_tryBind {A} (c : Mc (Err + A)) (k : A -> Mc (option Err)) :
  (forall a, AlwaysFails (k a)) -> AlwaysFails (tryBind c k).
Proof.
  intros Hk s. unfold tryBind, bind.
  destruct (c s) as [s' [err | a]]; [done|]. apply Hk.
Qed.

Lemma fails_showLoginCode (k : Mc (option Err)) :
  AlwaysFails k -> AlwaysFails (showLoginCode env k).
Proof.
  intros Hk. unfold showLoginCode. apply fails_tryBind. intros code.
  destruct (qrcode_Encode env code) as [err | bytes]; [by intros s|].
  apply fails_bind. intros ts. apply fails_tryBind. intros qrFile s.
  unfold bind at 1.
  pose proof (fails_andThen_r (status env ("Scan this QR code: " +:+ URL qrFile)) k Hk s)
    as Hres.
  destruct (andThen (status env ("Scan this QR code: " +:+ URL qrFile)) k s)
    as [s1 res].
  unfold bind, callWorld, logIfErr, logPrintf, emit, ret.
  destruct (fs_RemoveFile env qrFile (world s1)) as [w [err|]]; exact Hres.
Qed.

(** *** Saving the record *)

Lemma saveDatabaseEntry_unfold (s : State) :
  let user := {| LocalStorage := localStorage (conn s);
                 LastReceivedReceipts := TimestampMap.GetCopy (timestampMap (conn s)) |} in
  let r := userDb_SaveItem env (nickname (conn s)) user (world s) in
  saveDatabaseEntry env s
  = ({| conn := conn s; world := r.1;
        trace := trace s ++ EvSaveItem (nickname (conn s)) user r.2
                  :: match r.2 with
                     | Some err => [EvLogPrintf "error while updating user entry: %s\n" [err]]
                     | None => []
                     end |}, r.2).
Proof.
  unfold saveDatabaseEntry, bind, getConn, callWorld, emit, logIfErr, logPrintf, ret.
  simpl.
  destruct (userDb_SaveItem env (nickname (conn s)) _ (world s)) as [w [err|]]; simpl.
  - by rewrite <- app_assoc.
  - reflexivity.
Qed.

(** *** What the retry supervisor sees of [setup] *)

Lemma quiet_ret {A} (a : A) : Unsupervised (ret a : Mc A).
Proof. intros s. exists []. by rewrite app_nil_r. Qed.

Lemma quiet_bind {A B} (c : Mc A) (k : A -> Mc B) :
  Unsupervised c -> (forall a, Unsupervised (k a)) -> Unsupervised (bind c k).
Proof.
  intros Hc Hk s. unfold bind. destruct (Hc s) as (evs1 & Htr1 & Hq1).
  destruct (c s) as [s1 a]. destruct (Hk a s1) as (evs2 & Htr2 & Hq2).
  exists (evs1 ++ evs2). simpl in Htr1. rewrite Htr2, Htr1, <- app_assoc.
  split; [done|]. by rewrite supervision_app, Hq1, Hq2.
Qed.

Lemma quiet_andThen (c k : Mc (option Err)) :
  Unsupervised c -> Unsupervised k -> Unsupervised (andThen c k).
Proof.
  intros Hc Hk. apply quiet_bind; [done|]. intros [err|]; [apply quiet_ret | done].
Qed.

Lemma quiet_tryBind {A} (c : Mc (Err + A)) (k : A -> Mc (option Err)) :
  Unsupervised c -> (forall a, Unsupervised (k a)) -> Unsupervised (tryBind c k).
Proof.
  intros Hc Hk. apply quiet_bind; [done|]. intros [err | a]; [apply quiet_ret | done].
Qed.

Lemma quiet_emit (e : Event) :
  isSupervision e = false -> Unsupervised (emit e : Mc unit).
Proof. intros He s. exists [e]. split; [done|]. unfold supervision. simpl. by rewrite He. Qed.

Lemma quiet_getConn : Unsupervised (getConn : Mc _).
Proof. intros s. exists []. by rewrite app_nil_r. Qed.

Lemma quiet_modifyConn (f : Connection whappID Me -> Connection whappID Me) :
  Unsupervised (modifyConn f : Mc unit).
Proof. intros s. exists []. by rewrite app_nil_r. Qed.

Lemma quiet_callWorld {A} (f : W -> W * A) : Unsupervised (callWorld f : Mc A).
Proof.
  intros s. exists []. unfold callWorld. destruct (f (world s)). simpl.
  by rewrite app_nil_r.
Qed.

Lemma quiet_forRange {A} (body : A -> Mc (option Err)) (l : list A) :
  (forall x, Unsupervised (body x)) -> Unsupervised (forRange body l).
Proof.
  intros Hb. induction l as [| x l IH]; simpl; [apply quiet_ret|].
  by apply quiet_andThen.
Qed.

Lemma quiet_logIfErr (format : string) (e : option Err) :
  Unsupervised (logIfErr format e : Mc unit).
Proof. destruct e; [by apply quiet_emit | apply quiet_ret]. Qed.

Lemma quiet_status (msg : string) : Unsupervised (status env msg).
Proof.
  unfold status. apply quiet_bind; [by apply quiet_emit|]. intros _.
  apply quiet_bind; [apply quiet_getConn|]. intros cn. apply quiet_callWorld.
Qed.

Lemma quiet_saveDatabaseEntry : Unsupervised (saveDatabaseEntry env).
Proof.
  unfold saveDatabaseEntry. apply quiet_bind; [apply quiet_getConn|]. intros cn.
  apply quiet_bind; [apply quiet_callWorld|]. intros err.
  apply quiet_bind; [by apply quiet_emit|]. intros _.
  apply quiet_bind; [apply quiet_logIfErr|]. intros _. apply quiet_ret.
Qed.

Lemma quiet_addChat (raw : whappChat whappID) : Unsupervised (addChat env raw).
Proof.
  unfold addChat, convertChat.
  apply quiet_bind.
  { apply quiet_bind; [apply quiet_callWorld|]. intros [err | ps]; apply quiet_ret. }
  intros [err | chat]; [apply quiet_ret|].
  apply quiet_bind.
  { destruct (IsGroupChat chat); by apply quiet_emit. }
  intros _. apply quiet_bind; [apply quiet_modifyConn|]. intros _. apply quiet_ret.
Qed.

Lemma quiet_setupLoggedIn : Unsupervised (setupLoggedIn env).
Proof.
  unfold setupLoggedIn. apply quiet_andThen; [apply quiet_callWorld|].
  apply quiet_bind; [apply quiet_status|]. intros _.
  apply quiet_andThen.
  { unfold persistLocalStorage. apply quiet_bind; [apply quiet_callWorld|]. intros r.
    apply quiet_bind; [apply quiet_modifyConn|]. intros _.
    destruct (snd r); [|apply quiet_saveDatabaseEntry].
    apply quiet_bind; [by apply quiet_emit|]. intros _. apply quiet_ret. }
  apply quiet_bind; [apply quiet_callWorld|]. intros r.
  apply quiet_bind; [apply quiet_modifyConn|]. intros _.
  destruct (snd r); [apply quiet_ret|].
  unfold addAllChats. apply quiet_tryBind; [apply quiet_callWorld|]. intros chats.
  apply quiet_forRange. intros raw.
  apply quiet_bind; [apply quiet_addChat|]. intros r0. apply quiet_ret.
Qed.

Lemma quiet_showLoginCode (k : Mc (option Err)) :
  Unsupervised k -> Unsupervised (showLoginCode env k).
Proof.
  intros Hk. unfold showLoginCode. apply quiet_tryBind.
  { apply quiet_bind; [apply quiet_callWorld|]. intros r. apply quiet_ret. }
  intros code. destruct (qrcode_Encode env code) as [err | bytes]; [apply quiet_ret|].
  apply quiet_bind; [apply quiet_callWorld|]. intros ts.
  apply quiet_tryBind; [apply quiet_callWorld|]. intros qrFile.
  apply quiet_bind; [apply quiet_andThen; [apply quiet_status | exact Hk]|].
  intros res. apply quiet_bind; [apply quiet_callWorld|]. intros e.
  apply quiet_bind; [apply quiet_logIfErr|]. intros _. apply quiet_ret.
Qed.

(** [setup] starts the bridge first, and neither starts it again nor stops
    it nor waits afterwards. *)
Lemma setup_supervision (s : State) :
  exists evs, trace (setup env s).1 = trace s ++ evs /\
              supervision evs = [EvBridgeStart].
Proof.
  set (rest :=
    (cn <- getConn ;;
     found <-? callWorld (userDb_GetItem env (nickname cn)) ;;
     (match found with
      | Some obj => restoreUser env obj
      | None => ret None
      end) ;;?
     (state <-? callWorld (WI_Open env) ;;
      match state with
      | Loggedout => showLoginCode env (setupLoggedIn env)
      | Loggedin => setupLoggedIn env
      end) : Mc (option Err))).
  assert (Hrest : Unsupervised rest).
  { apply quiet_bind; [apply quiet_getConn|]. intros cn.
    apply quiet_tryBind; [apply quiet_callWorld|]. intros found.
    apply quiet_andThen.
    - destruct found as [obj|]; [|apply quiet_ret]. unfold restoreUser.
      destruct (mapstructure_Decode env obj) as [err | user]; [apply quiet_ret|].
      apply quiet_bind; [apply quiet_modifyConn|]. intros _.
      apply quiet_tryBind; [apply quiet_callWorld|]. intros _.
      apply quiet_bind; [apply quiet_callWorld|]. intros e.
      apply quiet_bind; [apply quiet_logIfErr|]. intros _. apply quiet_ret.
    - apply quiet_tryBind; [apply quiet_callWorld|].
      intros [|]; [apply quiet_setupLoggedIn|].
      apply quiet_showLoginCode, quiet_setupLoggedIn. }
  change (setup env s) with (andThen (bridgeStart env) rest s).
  clearbody rest. unfold andThen. unfold bind at 1.
  assert (Hstart : bridgeStart env s
    = ({| conn := conn s; world := (bridge_Start env (world s)).1;
          trace := trace s ++ [EvBridgeStart] |}, (bridge_Start env (world s)).2)).
  { unfold bridgeStart, bind, emit, callWorld. simpl.
    by destruct (bridge_Start env (world s)). }
  rewrite Hstart. destruct (bridge_Start env (world s)).2 as [err|].
  - by exists [EvBridgeStart].
  - match goal with |- context [rest ?s1] =>
      destruct (Hrest s1) as (evs & Htr & Hq) end.
    exists (EvBridgeStart :: evs). simpl in Htr.
    split; [by rewrite Htr, <- app_assoc|]. unfold supervision in *. simpl.
    by rewrite Hq.
Qed.

(** *** Setup that never succeeds *)

Section SetupNeverSucceeds.
Hypothesis Hfail : AlwaysFails (setup env).

(** One attempt: stop the bridge, start it, fail, log the error. *)
Lemma setupAttempt_fails (s : State) :
  exists s' err evs,
    setupAttempt env s = (s', Some err) /\
    trace s' = trace s ++ evs ++ [EvLogPrintf "err while setting up: %s\n" [err]] /\
    supervision evs = [EvBridgeStop; EvBridgeStart].
Proof.
  unfold setupAttempt. unfold bind at 1.
  assert (Hstop : bridgeStop env s
    = ({| conn := conn s; world := bridge_Stop env (world s);
          trace := trace s ++ [EvBridgeStop] |}, tt)) by reflexivity.
  rewrite Hstop. unfold bind at 1.
  match goal with |- context [setup env ?s1] =>
    destruct (setup_supervision s1) as (evs & Htr & Hsup);
    pose proof (Hfail s1) as Hf;
    destruct (setup env s1) as [s2 [err|]]; [|done] end.
  unfold logIfErr, logPrintf, bind, emit, ret. simpl in Htr |- *.
  eexists _, err, (EvBridgeStop :: evs). split; [reflexivity|]. simpl.
  split; [by rewrite Htr, <- !app_assoc|].
  unfold supervision in *. simpl. by rewrite Hsup.
Qed.

(** [n + 1] failing attempts with a delay between consecutive ones. *)
Lemma retryLoop_exhausted (n : nat) (delay : Z) (s : State) :
  exists s' err evs,
    retryLoop n delay (setupAttempt env) s = (s', Some err) /\
    trace s' = trace s ++ evs ++ [EvLogPrintf "err while setting up: %s\n" [err]] /\
    supervision evs
    = [EvBridgeStop; EvBridgeStart]
      ++ concat (replicate n [EvSleep delay; EvBridgeStop; EvBridgeStart]).
Proof.
  revert s. induction n as [| n IH]; intros s; simpl.
  - unfold bind. destruct (setupAttempt_fails s) as (s1 & err & evs & -> & Htr & Hsup).
    exists s1, err, evs. by repeat split.
  - unfold bind at 1.
    destruct (setupAttempt_fails s) as (s1 & err1 & evs1 & -> & Htr1 & Hsup1).
    unfold bind at 1. unfold sleep, emit.
    match goal with |- context [retryLoop n delay _ ?s2] =>
      destruct (IH s2) as (s' & err & evs & Hrun & Htr & Hsup) end.
    exists s', err,
      (evs1 ++ [EvLogPrintf "err while setting up: %s\n" [err1]; EvSleep delay] ++ evs).
    split; [exact Hrun|]. simpl in Htr. split.
    + rewrite Htr, Htr1. rewrite <- !app_assoc. reflexivity.
    + rewrite !supervision_app, Hsup1, Hsup. reflexivity.
Qed.

End SetupNeverSucceeds.

End Facts.

(** ** The Ordered Resolution Pipeline *)

Module PipelineFacts.
Import Pipeline.

Section PipelineProofs.
Context {A B : Type}.
Variable resolve : A -> B.
Variable window : nat.

Local Abbreviation results sl := (resolve (slot_event sl)).

Lemma Inv_init (input : list A) : Inv resolve window input (init input).
Proof. split; simpl; [done | lia]. Qed.

Lemma Inv_step (input : list A) (a : Action) (st st' : State) :
  Inv resolve window input st -> step resolve window a st = Some st' ->
  Inv resolve window input st'.
Proof.
  intros [Hord Hwin]. unfold Inv. destruct a as [| i |]; cbn [step].
  - destruct (pending st) as [| e p] eqn:Hp; [done|].
    case_decide as Hroom; [|done]. intros [= <-]. cbn [pending slots consumed]. split.
    + rewrite Hord, fmap_app, fmap_cons. cbn [slot_event fmap list_fmap].
      by rewrite <- !app_assoc.
    + rewrite length_app. simpl. lia.
  - destruct (slots st !! i) as [sl|] eqn:Hi; [|done].
    destruct (slot_done sl); [done|]. intros [= <-]. cbn [pending slots consumed]. split.
    + rewrite Hord, list_fmap_insert. cbn [slot_event]. f_equal. f_equal.
      symmetry. apply list_insert_id. by rewrite list_lookup_fmap, Hi.
    + by rewrite length_insert.
  - destruct (slots st) as [| sl rest] eqn:Hs; [done|].
    destruct (slot_done sl); [|done]. intros [= <-]. cbn [pending slots consumed]. split.
    + rewrite Hord, fmap_cons. by rewrite <- !app_assoc.
    + simpl in Hwin. lia.
Qed.

Lemma Inv_run (input : list A) (sched : list Action) (st : State) :
  Inv resolve window input st -> Inv resolve window input (run resolve window sched st).
Proof.
  revert st. induction sched as [| a sched IH]; intros st Hinv; simpl; [done|].
  apply IH. destruct (step resolve window a st) as [st'|] eqn:Hstep; simpl; [|done].
  by eapply Inv_step.
Qed.

Lemma resolving_le_slots (st : @State A B) : (resolving st <= length (slots st))%nat.
Proof. unfold resolving. apply List.filter_length_le. Qed.

(** A state in which nothing can move has delivered everything. *)
Lemma quiescent_empty (st : State) :
  (0 < window)%nat -> quiescent resolve window st -> slots st = [] /\ pending st = [].
Proof.
  intros Hpos Hq.
  assert (Hslots : slots st = []).
  { destruct (slots st) as [| sl rest] eqn:Hs; [done|]. exfalso.
    destruct (slot_done sl) eqn:Hd.
    - specialize (Hq Consume). simpl in Hq. by rewrite Hs, Hd in Hq.
    - specialize (Hq (Finish 0)). simpl in Hq. rewrite Hs in Hq. simpl in Hq.
      by rewrite Hd in Hq. }
  split; [done|].
  destruct (pending st) as [| e p] eqn:Hp; [done|]. exfalso.
  specialize (Hq Accept). simpl in Hq. rewrite Hp, Hslots in Hq. simpl in Hq.
  by rewrite decide_True in Hq.
Qed.

(** Finishing and consuming the head slot, once per slot, empties the window. *)
Lemma run_drain (sls : list Slot) (p : list A) (out : list B) :
  run resolve window (concat (replicate (length sls) [Finish 0; Consume]))
      {| pending := p; slots := sls; consumed := out |}
  = {| pending := p; slots := []; consumed := out ++ ((fun sl => results sl) <$> sls) |}.
Proof.
  revert out. induction sls as [| sl sls IH]; intros out; simpl.
  - by rewrite app_nil_r.
  - destruct (slot_done sl) eqn:Hd; simpl; rewrite ?Hd; simpl.
    + rewrite IH. by rewrite <- app_assoc.
    + rewrite IH. by rewrite <- app_assoc.
Qed.

(** Accepting, finishing and consuming, once per pending event, on an empty
    window. *)
Lemma run_feed (p : list A) (out : list B) :
  (0 < window)%nat ->
  run resolve window (concat (replicate (length p) [Accept; Finish 0; Consume]))
      {| pending := p; slots := []; consumed := out |}
  = {| pending := []; slots := []; consumed := out ++ (resolve <$> p) |}.
Proof.
  intros Hpos. revert out. induction p as [| e p IH]; intros out; simpl.
  - by rewrite app_nil_r.
  - rewrite decide_True by exact Hpos. simpl. rewrite IH. by rewrite <- app_assoc.
Qed.

Lemma run_app (sched1 sched2 : list Action) (st : State) :
  run resolve window (sched1 ++ sched2) st
  = run resolve window sched2 (run resolve window sched1 st).
Proof. revert st. induction sched1 as [| a sched1 IH]; intros st; simpl; [done|]. apply IH. Qed.

(** C9. For every input sequence of events (the empty one included), every
    window and every schedule of acceptances, completions and consumptions,
    hence every assignment of resolution latencies, what the consumer has
    received is an initial part of the results in arrival order, and no more
    than the window of events are resolving at once. With a window of at
    least one the pipeline cannot get stuck: a state in which nothing can
    move has delivered every result, and from every reachable state some
    schedule delivers them all. *)
Theorem pipeline_order_and_window (input : list A) (sched : list Action) :
  let st := run resolve window sched (init input) in
  consumed st `prefix_of` (resolve <$> input) /\
  (resolving st <= window)%nat /\
  ((0 < window)%nat -> quiescent resolve window st -> consumed st = resolve <$> input) /\
  ((0 < window)%nat ->
   exists sched', consumed (run resolve window sched' st) = resolve <$> input).
Proof.
  intros st.
  assert (Hinv : Inv resolve window input st) by apply Inv_run, Inv_init.
  destruct Hinv as [Hord Hwin]. split; [|split; [|split]].
  - rewrite Hord. by eexists.
  - pose proof (resolving_le_slots st). lia.
  - intros Hpos Hq. destruct (quiescent_empty st Hpos Hq) as [Hs Hp].
    rewrite Hord, Hs, Hp. simpl. by rewrite app_nil_r.
  - intros Hpos.
    exists (concat (replicate (length (slots st)) [Finish 0; Consume])
            ++ concat (replicate (length (pending st)) [Accept; Finish 0; Consume])).
    rewrite run_app. destruct st as [p sls out]. simpl in *.
    rewrite run_drain, run_feed by exact Hpos. simpl.
    by rewrite Hord, <- app_assoc.
Qed.

End PipelineProofs.

(** The live relay's queue, [GetMessageQueue(ctx, messageCh, 50)], never has
    more than 50 events resolving. *)
Lemma live_queue_window {A B} (resolve : A -> B) (input : list A)
    (sched : list Action) :
  (resolving (run resolve queueSize sched (init input)) <= 50)%nat.
Proof.
  destruct (Inv_run resolve queueSize input sched _ (Inv_init resolve queueSize input))
    as [_ Hwin].
  pose proof (resolving_le_slots (run resolve queueSize sched (init input))).
  unfold queueSize in *. lia.
Qed.

End PipelineFacts.

(** ** The statements on concrete scenarios *)

Module Scenarios.
Import Demo MoreDemo.


(** A history fetch that returns 140 before 120 is replayed as 140, 120:
    the replayed timestamps decrease. *)
Lemma catchUp_replays_in_fetch_order_counterexample :
  handledMessages (trace (catchUpChat (demoEnv outOfOrder) false family sReplay).1)
  = [msg 140; msg 120] /\
  ~ Sorted Z.le
      (Timestamp <$>
         handledMessages (trace (catchUpChat (demoEnv outOfOrder) false family sReplay).1)).
Proof.
  split; [reflexivity|].
  change (~ Sorted Z.le [140; 120]). intros Hs.
  apply Sorted_inv in Hs as [_ Hhd]. apply HdRel_inv in Hhd. lia.
Qed.

(** With watermark 100 and an ordered history 90, 120, 140, the chat's turn
    fetches and replays 120 then 140. *)
Lemma catchUpChat_delivers_newer_in_fetch_order_witness :
  exists evs,
    trace (catchUpChat (demoEnv inOrder) false family sReplay).1
    = trace sReplay ++ evs /\
    (forall m, m ∈ handledMessages evs -> 100 < Timestamp m) /\
    Sorted Z.le (Timestamp <$> handledMessages evs).
Proof.
  destruct (catchUpChat_delivers_newer_in_fetch_order
              (demoEnv inOrder) false family sReplay)
    as (evs & Htr & Hnew & _ & Hfetch).
  exists evs. split; [exact Htr|]. split; [exact Hnew|].
  refine (proj2 (Hfetch 0%nat [msg 90; msg 120; msg 140] eq_refl) _).
  repeat constructor; simpl; lia.
Defined.



(** Setup whose bridge never starts. *)
Lemma noBrowser_setup_fails : AlwaysFails (setup (demoEnv noBrowser)).
Proof. intros s. unfold setup, andThen, bind. simpl. discriminate. Qed.



(** Three discoveries, the third of a chat already known: the list has
    one chat per ID, and the third call replaces the first entry in place. *)
Lemma addChat_one_chat_per_ID_witness :
  NoDup (ID <$> Chats (conn sFresh)) /\
  NoDup (ID <$> Chats (conn (foldl (fun s raw => (addChat (demoEnv quiet) raw s).1)
                                   sFresh [rawC1 1; rawC2 2; rawC1 3]))) /\
  exists s',
    addChat (demoEnv quiet) (rawC1 3) (start (bob [chatOf (rawC1 1) []; work] ∅ ∅))
    = (s', inr (chatOf (rawC1 3) [])) /\
    Chats (conn s') = [chatOf (rawC1 3) []; work].
Proof.
  split; [apply NoDup_nil_2|].
  destruct (addChat_one_chat_per_ID (demoEnv quiet) [rawC1 1; rawC2 2; rawC1 3] sFresh)
    as [Hnd Hcall]; [apply NoDup_nil_2|].
  split; [exact Hnd|].
  destruct (Hcall (rawC1 3) (start (bob [chatOf (rawC1 1) []; work] ∅ ∅)))
    as (s' & Hadd & _ & Hin & _).
  exists s'. split; [exact Hadd|].
  destruct Hin as (i & old & Hi & Hold & Hfirst & Hchats & _).
  { apply list_elem_of_here. }
  rewrite Hchats. destruct i as [| [| i]].
  - reflexivity.
  - exfalso. injection Hi as <-. discriminate Hold.
  - discriminate Hi.
Defined.

(** Without replay a chat whose current timestamp (150) is older than its
    watermark (200) has the watermark rewound; and the restore of a record
    whose snapshot holds 100 rewinds it as well. *)
Lemma reset_rewinds_watermark_counterexample :
  timestampMap (conn sStale) !! "C1" = Some 200 /\
  timestampMap (conn (catchUp (demoEnv quiet) sStale).1) !! "C1" = Some 150 /\
  150 < 200 /\
  timestampMap (conn (setup (demoEnv returning) sStale).1) !! "C1" = Some 100 /\
  100 < 200.
Proof. repeat split. Qed.

(** [C1] goes from 100 to its current 150 and [C2] gets its current 90; in
    [sStale] the entry 200 of [C1] is replaced by 150. *)
Lemma reset_keeps_watermarks_when_chats_are_current_witness :
  HasCapability (conn sNoReplay) replayCapability = false /\
  NoDup ((fun c => ID_String (demoEnv quiet) (ID c)) <$> Chats (conn sNoReplay)) /\
  timestampMap (conn (catchUp (demoEnv quiet) sNoReplay).1) !! "C1" = Some 150 /\
  timestampMap (conn (catchUp (demoEnv quiet) sNoReplay).1) !! "C2" = Some 90 /\
  (exists w', timestampMap (conn (catchUp (demoEnv quiet) sNoReplay).1) !! "C1" = Some w'
              /\ 100 <= w').
Proof.
  assert (Hkeys : NoDup ((fun c => ID_String (demoEnv quiet) (ID c))
                           <$> Chats (conn sNoReplay))).
  { apply (bool_decide_unpack _). reflexivity. }
  split; [reflexivity|]. split; [exact Hkeys|].
  destruct (reset_keeps_watermarks_when_chats_are_current
              (demoEnv quiet) sNoReplay (or_intror eq_refl) Hkeys)
    as (Hwrite & _ & _ & Hmono & _).
  split; [exact (Hwrite family (list_elem_of_here _ _))|].
  split; [exact (Hwrite work (list_elem_of_further _ _ _ (list_elem_of_here _ _)))|].
  refine (Hmono _ "C1" 100 eq_refl).
  intros c w Hc Hw.
  repeat (apply elem_of_cons in Hc as [-> | Hc]).
  - vm_compute in Hw. injection Hw as <-. vm_compute. discriminate.
  - vm_compute in Hw. discriminate.
  - by apply elem_of_nil in Hc.
Defined.

(** The store refuses the save of the local storage: [setup] fails with the
    store's error. *)
Lemma setup_fails_on_save_failure_counterexample :
  (setup (demoEnv diskFull) sFresh).2 = Some "disk full".
Proof. reflexivity. Qed.

(** Three events through a window of two, the second finished first. *)
Lemma pipeline_order_and_window_witness :
  Pipeline.consumed
    (Pipeline.run Z.succ 2
       [Pipeline.Accept; Pipeline.Accept; Pipeline.Accept; Pipeline.Finish 1;
        Pipeline.Consume; Pipeline.Finish 0; Pipeline.Consume; Pipeline.Consume]
       (Pipeline.init [10; 20; 30]))
  `prefix_of` (Z.succ <$> [10; 20; 30]).
Proof.
  apply (PipelineFacts.pipeline_order_and_window Z.succ 2 [10; 20; 30]).
Defined.

End Scenarios.

(** ** More of the connection: what the remaining code shows *)

Section MoreFacts.
Context {whappID Me Obj W : Type} `{EqDecision whappID}.
Variable env : Env whappID Me Obj W.

Local Open Scope conn_scope.
Local Abbreviation Mc := (M whappID Me W).
Local Abbreviation State := (St whappID Me W).
Local Abbreviation chatKey c := (ID_String env (ID c)).

(** *** Readings of the connection that a computation leaves alone *)

Section PreservesProj.
Context {X : Type}.
Variable proj : Connection whappID Me -> X.

Lemma pres_ret {A} (a : A) : Preserves proj (ret a : Mc A).
Proof. by intros s. Qed.

Lemma pres_bind {A B} (c : Mc A) (k : A -> Mc B) :
  Preserves proj c -> (forall a, Preserves proj (k a)) -> Preserves proj (bind c k).
Proof.
  intros Hc Hk s. unfold bind. specialize (Hc s).
  destruct (c s) as [s1 a]. rewrite <- Hc. apply Hk.
Qed.

Lemma pres_andThen (c k : Mc (option Err)) :
  Preserves proj c -> Preserves proj k -> Preserves proj (andThen c k).
Proof.
  intros Hc Hk. apply pres_bind; [done|]. intros [err|]; [apply pres_ret | done].
Qed.

Lemma pres_tryBind {A} (c : Mc (Err + A)) (k : A -> Mc (option Err)) :
  Preserves proj c -> (forall a, Preserves proj (k a)) -> Preserves proj (tryBind c k).
Proof.
  intros Hc Hk. apply pres_bind; [done|]. intros [err | a]; [apply pres_ret | done].
Qed.

Lemma pres_emit (e : Event) : Preserves proj (emit e : Mc unit).
Proof. by intros s. Qed.

Lemma pres_getConn : Preserves proj (getConn : Mc _).
Proof. by intros s. Qed.

Lemma pres_callWorld {A} (f : W -> W * A) : Preserves proj (callWorld f : Mc A).
Proof. intros s. unfold callWorld. by destruct (f (world s)). Qed.

Lemma pres_modifyConn (g : Connection whappID Me -> Connection whappID Me) :
  (forall cn, proj (g cn) = proj cn) -> Preserves proj (modifyConn g : Mc unit).
Proof. intros Hg s. apply Hg. Qed.

Lemma pres_forRange {A} (body : A -> Mc (option Err)) (l : list A) :
  (forall x, Preserves proj (body x)) -> Preserves proj (forRange body l).
Proof.
  intros Hb. induction l as [| x l IH]; simpl; [apply pres_ret|].
  by apply pres_andThen.
Qed.

Lemma pres_logIfErr (format : string) (e : option Err) :
  Preserves proj (logIfErr format e : Mc unit).
Proof. destruct e; [apply pres_emit | apply pres_ret]. Qed.

Lemma pres_status (msg : string) : Preserves proj (status env msg).
Proof.
  unfold status. apply pres_bind; [apply pres_emit|]. intros _.
  apply pres_bind; [apply pres_getConn|]. intros cn. apply pres_callWorld.
Qed.

Lemma pres_writeIRC (line : string) : Preserves proj (writeIRC env line).
Proof.
  unfold writeIRC. apply pres_bind; [apply pres_callWorld|]. intros r.
  apply pres_bind; [apply pres_emit|]. intros _. apply pres_ret.
Qed.

Lemma pres_saveDatabaseEntry : Preserves proj (saveDatabaseEntry env).
Proof.
  unfold saveDatabaseEntry. apply pres_bind; [apply pres_getConn|]. intros cn.
  apply pres_bind; [apply pres_callWorld|]. intros err.
  apply pres_bind; [apply pres_emit|]. intros _.
  apply pres_bind; [apply pres_logIfErr|]. intros _. apply pres_ret.
Qed.

(** The four fields [setup] assigns. *)
Hypothesis Hchats : forall l cn, proj (set_Chats l cn) = proj cn.
Hypothesis Hstorage : forall m cn, proj (set_localStorage m cn) = proj cn.
Hypothesis Hme : forall m cn, proj (set_me m cn) = proj cn.

Lemma pres_addChat (raw : whappChat whappID) : Preserves proj (addChat env raw).
Proof.
  unfold addChat, convertChat. apply pres_bind.
  { apply pres_bind; [apply pres_callWorld|]. intros [err | ps]; apply pres_ret. }
  intros [err | chat]; [apply pres_ret|].
  apply pres_bind.
  { destruct (IsGroupChat chat); apply pres_emit. }
  intros _. apply pres_bind; [by apply pres_modifyConn|]. intros _. apply pres_ret.
Qed.

Lemma pres_setupLoggedIn : Preserves proj (setupLoggedIn env).
Proof.
  unfold setupLoggedIn. apply pres_andThen; [apply pres_callWorld|].
  apply pres_bind; [apply pres_status|]. intros _.
  apply pres_andThen.
  { unfold persistLocalStorage. apply pres_bind; [apply pres_callWorld|]. intros r.
    apply pres_bind; [by apply pres_modifyConn|]. intros _.
    destruct (snd r); [|apply pres_saveDatabaseEntry].
    apply pres_bind; [apply pres_emit|]. intros _. apply pres_ret. }
  apply pres_bind; [apply pres_callWorld|]. intros r.
  apply pres_bind; [by apply pres_modifyConn|]. intros _.
  destruct (snd r); [apply pres_ret|].
  unfold addAllChats. apply pres_tryBind; [apply pres_callWorld|]. intros chats.
  apply pres_forRange. intros raw.
  apply pres_bind; [apply pres_addChat|]. intros r0. apply pres_ret.
Qed.

Lemma pres_showLoginCode (k : Mc (option Err)) :
  Preserves proj k -> Preserves proj (showLoginCode env k).
Proof.
  intros Hk. unfold showLoginCode. apply pres_tryBind.
  { apply pres_bind; [apply pres_callWorld|]. intros r. apply pres_ret. }
  intros code. destruct (qrcode_Encode env code) as [err | bytes]; [apply pres_ret|].
  apply pres_bind; [apply pres_callWorld|]. intros ts.
  apply pres_tryBind; [apply pres_callWorld|]. intros qrFile.
  apply pres_bind; [apply pres_andThen; [apply pres_status | exact Hk]|].
  intros res. apply pres_bind; [apply pres_callWorld|]. intros e.
  apply pres_bind; [apply pres_logIfErr|]. intros _. apply pres_ret.
Qed.

(** From the second [WI.Open] of [setup] to its end. *)
Lemma pres_setupOpen :
  Preserves proj
    (state <-? callWorld (WI_Open env) ;;
     match state with
     | Loggedout => showLoginCode env (setupLoggedIn env)
     | Loggedin => setupLoggedIn env
     end : Mc (option Err)).
Proof.
  apply pres_tryBind; [apply pres_callWorld|].
  intros [|]; [apply pres_setupLoggedIn|].
  apply pres_showLoginCode, pres_setupLoggedIn.
Qed.

(** With the Watermark Map among the fields [proj] does not read, the whole
    of [setup], an attempt and the supervised retries leave [proj] alone. *)
Hypothesis Hmap : forall m cn, proj (set_timestampMap m cn) = proj cn.

Lemma pres_restoreUser (obj : Obj) : Preserves proj (restoreUser env obj).
Proof.
  unfold restoreUser.
  destruct (mapstructure_Decode env obj) as [err | user]; [apply pres_ret|].
  apply pres_bind; [by apply pres_modifyConn|]. intros _.
  apply pres_tryBind; [apply pres_callWorld|]. intros _.
  apply pres_bind; [apply pres_callWorld|]. intros e.
  apply pres_bind; [apply pres_logIfErr|]. intros _. apply pres_ret.
Qed.

Lemma pres_setup : Preserves proj (setup env).
Proof.
  unfold setup. apply pres_andThen.
  { unfold bridgeStart. apply pres_bind; [apply pres_emit|]. intros _.
    apply pres_callWorld. }
  apply pres_bind; [apply pres_getConn|]. intros cn.
  apply pres_tryBind; [apply pres_callWorld|]. intros found.
  apply pres_andThen; [|apply pres_setupOpen].
  destruct found; [apply pres_restoreUser | apply pres_ret].
Qed.

Lemma pres_setupAttempt : Preserves proj (setupAttempt env).
Proof.
  unfold setupAttempt. apply pres_bind.
  { unfold bridgeStop. apply pres_bind; [apply pres_emit|]. intros _.
    apply pres_callWorld. }
  intros _. apply pres_bind; [apply pres_setup|]. intros err.
  apply pres_bind; [apply pres_logIfErr|]. intros _. apply pres_ret.
Qed.

Lemma pres_retryLoop (n : nat) (delay : Z) (f : Mc (option Err)) :
  Preserves proj f -> Preserves proj (retryLoop n delay f).
Proof.
  intros Hf. induction n as [| n IH]; simpl.
  - apply pres_bind; [done|]. intros [err|]; apply pres_ret.
  - apply pres_bind; [done|]. intros [err|]; [|apply pres_ret].
    apply pres_bind; [apply pres_emit | intros _; exact IH].
Qed.

Lemma pres_superviseSetup : Preserves proj (superviseSetup env).
Proof. apply pres_retryLoop, pres_setupAttempt. Qed.

End PreservesProj.

(** *** What [setup] changes in the connection *)

Lemma bridgeStart_unfold (s : State) :
  bridgeStart env s
  = ({| conn := conn s; world := (bridge_Start env (world s)).1;
        trace := trace s ++ [EvBridgeStart] |}, (bridge_Start env (world s)).2).
Proof.
  unfold bridgeStart, bind, emit, callWorld. simpl.
  by destruct (bridge_Start env (world s)).
Qed.

(** X12. Whatever its outcome, [setup] leaves the nickname, the capability
    set, the [welcomed] flag and the welcome channel as they were, and so do
    the supervised retries of [setup]: they only assign the Watermark Map,
    the local storage, the identity and the chat list. *)
Theorem setup_keeps_handshake_state (s : State) :
  (nickname (conn (setup env s).1) = nickname (conn s) /\
   caps (conn (setup env s).1) = caps (conn s) /\
   welcomed (conn (setup env s).1) = welcomed (conn s) /\
   welcomeCh_closed (conn (setup env s).1) = welcomeCh_closed (conn s)) /\
  (nickname (conn (superviseSetup env s).1) = nickname (conn s) /\
   caps (conn (superviseSetup env s).1) = caps (conn s) /\
   welcomed (conn (superviseSetup env s).1) = welcomed (conn s) /\
   welcomeCh_closed (conn (superviseSetup env s).1) = welcomeCh_closed (conn s)).
Proof.
  split; repeat split.
  all: first [ by apply (pres_setup (fun cn => nickname cn))
             | by apply (pres_setup (fun cn => caps cn))
             | by apply (pres_setup (fun cn => welcomed cn))
             | by apply (pres_setup (fun cn => welcomeCh_closed cn))
             | by apply (pres_superviseSetup (fun cn => nickname cn))
             | by apply (pres_superviseSetup (fun cn => caps cn))
             | by apply (pres_superviseSetup (fun cn => welcomed cn))
             | by apply (pres_superviseSetup (fun cn => welcomeCh_closed cn)) ].
Qed.

(** Without a stored record [setup] leaves the Watermark Map as it was. *)
Lemma setup_no_record_map
    (Hnone : forall key w, (userDb_GetItem env key w).2 = inr None)
    (s : State) :
  timestampMap (conn (setup env s).1) = timestampMap (conn s).
Proof.
  unfold setup, andThen. unfold bind at 1. rewrite bridgeStart_unfold.
  destruct (bridge_Start env (world s)).2 as [err|]; [done|].
  unfold bind at 1. unfold getConn at 1. unfold tryBind. unfold bind at 1.
  unfold callWorld at 1. cbn [conn world trace].
  match goal with |- context [userDb_GetItem env ?k ?w] =>
    pose proof (Hnone k w) as Hn; destruct (userDb_GetItem env k w) as [w1 r] end.
  simpl in Hn. subst r. unfold bind at 1. unfold ret at 1.
  match goal with |- context [bind _ _ ?s1] =>
    change (timestampMap (conn s)) with (timestampMap (conn s1)) end.
  by apply (pres_setupOpen (fun cn => timestampMap cn)).
Qed.

(** X14. When the bridge starts and the record store returns a record that
    decodes, [setup] replaces the Watermark Map by the record's snapshot,
    and the map is that snapshot even if [setup] fails afterwards. *)
Theorem setup_restores_stored_watermarks (obj : Obj) (user : User)
    (Hstart : forall w, (bridge_Start env w).2 = None)
    (Hfound : forall key w, (userDb_GetItem env key w).2 = inr (Some obj))
    (Hdecode : mapstructure_Decode env obj = inr user)
    (s : State) :
  timestampMap (conn (setup env s).1) = LastReceivedReceipts user.
Proof.
  unfold setup, andThen. unfold bind at 1. rewrite bridgeStart_unfold, Hstart.
  unfold bind at 1. unfold getConn at 1. unfold tryBind. unfold bind at 1.
  unfold callWorld at 1. cbn [conn world trace].
  match goal with |- context [userDb_GetItem env ?k ?w] =>
    pose proof (Hfound k w) as Hf; destruct (userDb_GetItem env k w) as [w1 r] end.
  simpl in Hf. subst r. unfold bind at 1.
  match goal with |- context [restoreUser env obj ?s1] =>
    pose proof (restoreUser_map env obj user s1 Hdecode) as Hmap;
    destruct (restoreUser env obj s1) as [s2 [err|]] end.
  - exact Hmap.
  - simpl in Hmap. rewrite <- Hmap.
    by apply (pres_setupOpen (fun cn => timestampMap cn)).
Qed.

(** *** The NICK branch of the dispatch task *)

Local Abbreviation greeting1 nick :=
  (":whapp-irc 001 " +:+ nick +:+ " Welcome to whapp-irc, " +:+ nick +:+ ".").
Local Abbreviation greeting2 nick :=
  (":whapp-irc 002 " +:+ nick +:+ " Enjoy the ride.").

(** X8. A NICK that arrives after the welcome, or that carries the empty
    nickname, only stores the nickname: nothing is written, the bridge is
    not touched, and the dispatch task goes on. *)
Theorem onNick_only_renames (nick : string) (s : State)
    (Hseen : welcomed (conn s) = true \/ nick = "") :
  onNick env nick s
  = ({| conn := set_nickname nick (conn s); world := world s; trace := trace s |},
     Continue).
Proof.
  unfold onNick, welcome. unfold bind at 1. unfold modifyConn at 1.
  unfold bind at 1. unfold bind at 1. unfold getConn at 1.
  cbn [conn set_nickname welcomed nickname].
  destruct Hseen as [-> | ->]; [reflexivity|].
  rewrite orb_true_r. reflexivity.
Qed.

(** X9. When the socket refuses the first greeting line, the NICK branch
    reports that it gives up and returns without ever stopping or starting
    the bridge; [welcomed] is still false and the welcome channel still
    open. *)
Theorem onNick_greeting_refused (nick : string) (s : State) (err : Err)
    (Hfirst : welcomed (conn s) = false)
    (Hnick : nick <> "")
    (Hrefused : (writeIRCNow env (greeting1 nick) (world s)).2 = Some err) :
  exists s',
    onNick env nick s = (s', Return) /\
    trace s'
    = trace s ++ [EvWriteIRC (greeting1 nick) (Some err);
                  EvStatus ("giving up trying to setup whapp bridge: " +:+ err)] /\
    welcomed (conn s') = false /\
    welcomeCh_closed (conn s') = welcomeCh_closed (conn s).
Proof.
  unfold onNick, welcome. unfold bind at 1. unfold modifyConn at 1.
  unfold bind at 1. unfold bind at 1. unfold getConn at 1.
  cbn [conn set_nickname welcomed nickname]. rewrite Hfirst.
  rewrite bool_decide_eq_false_2 by exact Hnick. cbn [orb].
  unfold bind at 1. rewrite writeIRC_unfold. cbn [world]. rewrite Hrefused.
  unfold ret at 1. cbn [snd]. unfold bind at 1. rewrite status_unfold. unfold ret.
  eexists. split; [reflexivity|]. cbn [trace conn]. split.
  - by rewrite <- app_assoc.
  - by split.
Qed.

(** After an accepted greeting, the NICK branch hands over to the retry
    supervisor. *)
Lemma onNick_greeted (nick : string) (s : State) :
  welcomed (conn s) = false -> nick <> "" ->
  (forall line w, (writeIRCNow env line w).2 = None) ->
  exists s1,
    conn s1 = set_welcomed true (set_nickname nick (conn s)) /\
    trace s1 = trace s ++ [EvWriteIRC (greeting1 nick) None;
                           EvWriteIRC (greeting2 nick) None] /\
    onNick env nick s
    = match superviseSetup env s1 with
      | (s2, Some err) =>
          ((status env ("giving up trying to setup whapp bridge: " +:+ err) s2).1,
           Return)
      | (s2, None) =>
          ({| conn := set_welcomeCh_closed true (conn s2); world := world s2;
              trace := trace s2 ++ [EvCloseWelcomeCh] |}, Continue)
      end.
Proof.
  intros Hfirst Hnick Hsocket.
  unfold onNick, welcome. unfold bind at 1. unfold modifyConn at 1.
  unfold bind at 1. unfold bind at 1. unfold getConn at 1.
  cbn [conn set_nickname welcomed nickname]. rewrite Hfirst.
  rewrite bool_decide_eq_false_2 by exact Hnick. cbn [orb].
  unfold bind at 1. rewrite (writeIRC_ok env Hsocket).
  unfold bind at 1. rewrite (writeIRC_ok env Hsocket).
  unfold bind at 1. unfold modifyConn at 1.
  unfold bind at 1.
  match goal with |- context [superviseSetup env ?s1] => exists s1 end.
  split; [reflexivity|]. split; [cbn [trace]; by rewrite <- app_assoc|].
  destruct (superviseSetup env _) as [s2 [err|]].
  - unfold ret at 1. cbn [snd]. unfold bind at 1.
    by destruct (status env _ s2).
  - reflexivity.
Qed.

(** X10. After the retry supervisor has given up, the connection is marked
    welcomed under the new nickname, the welcome channel has not been
    closed, and no close of it was recorded: what waits for that channel is
    not released, and a later NICK would only rename. *)
Theorem onNick_gives_up_without_welcome (nick : string) (s : State)
    (Hfirst : welcomed (conn s) = false)
    (Hnick : nick <> "")
    (Hsocket : forall line w, (writeIRCNow env line w).2 = None)
    (Hfail : AlwaysFails (setup env)) :
  exists s',
    onNick env nick s = (s', Return) /\
    welcomed (conn s') = true /\
    nickname (conn s') = nick /\
    welcomeCh_closed (conn s') = welcomeCh_closed (conn s) /\
    forall nick', onNick env nick' s'
                  = ({| conn := set_nickname nick' (conn s'); world := world s';
                        trace := trace s' |}, Continue).
Proof.
  destruct (onNick_greeted nick s Hfirst Hnick Hsocket) as (s1 & Hconn & _ & ->).
  pose proof (pres_superviseSetup (fun cn => welcomed cn)
                ltac:(done) ltac:(done) ltac:(done) ltac:(done) s1) as Hw.
  pose proof (pres_superviseSetup (fun cn => nickname cn)
                ltac:(done) ltac:(done) ltac:(done) ltac:(done) s1) as Hn.
  pose proof (pres_superviseSetup (fun cn => welcomeCh_closed cn)
                ltac:(done) ltac:(done) ltac:(done) ltac:(done) s1) as Hc.
  destruct (retryLoop_exhausted env Hfail 4 1000 s1) as (s2 & err & evs & Hrun & _).
  unfold superviseSetup, retry_Do in *. rewrite Hrun in *. simpl in Hw, Hn, Hc.
  rewrite Hconn in Hw, Hn, Hc. simpl in Hw, Hn, Hc.
  rewrite status_unfold. eexists. split; [reflexivity|]. cbn [conn fst].
  split; [exact Hw|]. split; [exact Hn|]. split; [exact Hc|].
  intros nick'.
  unfold onNick, welcome. unfold bind at 1. unfold modifyConn at 1.
  unfold bind at 1. unfold bind at 1. unfold getConn at 1.
  cbn [conn set_nickname welcomed nickname world trace]. by rewrite Hw.
Qed.

(** X11. When [setup] succeeds, a first NICK on a socket that accepts the
    greeting writes the two greeting lines, makes exactly one attempt (one
    stop and one start of the bridge, no delay), closes the welcome channel
    and lets the dispatch task go on. *)
Theorem onNick_welcomes_after_setup (nick : string) (s : State)
    (Hfirst : welcomed (conn s) = false)
    (Hnick : nick <> "")
    (Hsocket : forall line w, (writeIRCNow env line w).2 = None)
    (Hsetup : forall s0, (setup env s0).2 = None) :
  exists s' evs,
    onNick env nick s = (s', Continue) /\
    trace s' = trace s ++ [EvWriteIRC (greeting1 nick) None;
                           EvWriteIRC (greeting2 nick) None]
               ++ evs ++ [EvCloseWelcomeCh] /\
    supervision evs = [EvBridgeStop; EvBridgeStart] /\
    welcomed (conn s') = true /\
    welcomeCh_closed (conn s') = true /\
    nickname (conn s') = nick.
Proof.
  destruct (onNick_greeted nick s Hfirst Hnick Hsocket) as (s1 & Hconn & Htr1 & ->).
  pose proof (pres_superviseSetup (fun cn => welcomed cn)
                ltac:(done) ltac:(done) ltac:(done) ltac:(done) s1) as Hw.
  pose proof (pres_superviseSetup (fun cn => nickname cn)
                ltac:(done) ltac:(done) ltac:(done) ltac:(done) s1) as Hn.
  assert (Hrun : exists s2 evs,
            superviseSetup env s1 = (s2, None) /\
            trace s2 = trace s1 ++ evs /\
            supervision evs = [EvBridgeStop; EvBridgeStart]).
  { unfold superviseSetup, retry_Do. simpl. unfold bind at 1.
    unfold setupAttempt. unfold bind at 1.
    assert (Hstop : bridgeStop env s1
      = ({| conn := conn s1; world := bridge_Stop env (world s1);
            trace := trace s1 ++ [EvBridgeStop] |}, tt)) by reflexivity.
    rewrite Hstop. unfold bind at 1.
    match goal with |- context [setup env ?s0] =>
      destruct (setup_supervision env s0) as (evs & Htr & Hsup);
      pose proof (Hsetup s0) as Hok;
      destruct (setup env s0) as [s2 [err|]]; [done|] end.
    unfold logIfErr, bind, ret. simpl in Htr |- *.
    exists s2, (EvBridgeStop :: evs). split; [reflexivity|].
    split; [by rewrite Htr, <- app_assoc|].
    unfold supervision in *. simpl. by rewrite Hsup. }
  destruct Hrun as (s2 & evs & Hrun & Htr2 & Hsup). rewrite Hrun in *.
  simpl in Hw, Hn. rewrite Hconn in Hw, Hn. simpl in Hw, Hn.
  eexists _, evs. split; [reflexivity|]. cbn [trace conn].
  split; [by rewrite Htr2, Htr1, <- !app_assoc|].
  split; [exact Hsup|]. split; [exact Hw|]. split; [reflexivity | exact Hn].
Qed.

(** *** Catch-up: the cases the replay policy distinguishes *)

Lemma saves_read_empty {A} (l : list A) :
  handledMessages ((fun _ => EvGoSaveDatabaseEntry) <$> l) = [] /\
  fetches ((fun _ => EvGoSaveDatabaseEntry) <$> l) = [].
Proof.
  induction l as [| x l [IH1 IH2]]; [done|]. rewrite fmap_cons.
  unfold handledMessages, fetches in *. simpl. by rewrite IH1, IH2.
Qed.

(** X13. A first session never replays. When the record store holds no
    record, [setup] leaves the Watermark Map as it was, whether it succeeds
    or fails; so on a connection whose map is still empty, the catch-up that
    follows [setup] hands over no message and fetches no history, even if
    the client asserted whapp-irc/replay, and records for every chat its
    current raw timestamp. *)
Theorem first_session_never_replays
    (Hnone : forall key w, (userDb_GetItem env key w).2 = inr None)
    (s : State) :
  timestampMap (conn (setup env s).1) = timestampMap (conn s) /\
  (timestampMap (conn s) = ∅ ->
   exists s2 evs,
     catchUp env (setup env s).1 = (s2, None) /\
     trace s2 = trace (setup env s).1 ++ evs /\
     handledMessages evs = [] /\
     fetches evs = [] /\
     timestampMap (conn s2)
     = foldl (fun (m : gmap string Z) (c : Chat whappID) =>
                <[chatKey c := raw_Timestamp (rawChat c)]> m)
             ∅ (Chats (conn (setup env s).1))).
Proof.
  pose proof (setup_no_record_map Hnone s) as Hmap. split; [exact Hmap|].
  intros Hempty. rewrite Hempty in Hmap.
  set (s1 := (setup env s).1) in *.
  assert (Hflag : Nat.eqb (TimestampMap.Length (timestampMap (conn s1))) 0
                  || negb (HasCapability (conn s1) replayCapability) = true).
  { rewrite Hmap. reflexivity. }
  unfold catchUp, andThen. unfold bind, getConn.
  rewrite (catchUp_loop_reset env _ _ _ Hflag), status_unfold. unfold ret.
  eexists _, _. split; [reflexivity|]. cbn [trace conn].
  split; [by rewrite <- app_assoc|].
  destruct (saves_read_empty (Chats (conn s1))) as [Hh Hf].
  split; [by rewrite handledMessages_app, Hh|].
  split; [by rewrite fetches_app, Hf|].
  simpl. by rewrite Hmap.
Qed.

(** X15. With the replay capability asserted and a non-empty Watermark Map,
    the turn of a chat whose current raw timestamp is not newer than its
    watermark changes nothing at all: no fetch, no write, no save. The same
    holds for a chat without watermark whose raw timestamp is not positive,
    because a missing entry reads as 0. *)
Theorem catchUpChat_skips_chat_without_news (c : Chat whappID) (s : State)
    (Hreplay : HasCapability (conn s) replayCapability = true) :
  (forall w, timestampMap (conn s) !! chatKey c = Some w ->
             raw_Timestamp (rawChat c) <= w ->
             catchUpChat env false c s = (s, None)) /\
  (timestampMap (conn s) !! chatKey c = None ->
   raw_Timestamp (rawChat c) <= 0 ->
   catchUpChat env false c s = (s, None)).
Proof.
  split.
  - intros w Hw Hold. unfold catchUpChat, bind, getConn, TimestampMap.Get.
    rewrite Hw, Hreplay. simpl.
    assert (Hle : (raw_Timestamp (rawChat c) <=? w) = true) by lia.
    by rewrite Hle.
  - intros Hw Hold. unfold catchUpChat, bind, getConn, TimestampMap.Get.
    rewrite Hw, Hreplay. simpl.
    assert (Hle : (raw_Timestamp (rawChat c) <=? 0) = true) by lia.
    by rewrite Hle.
Qed.

(** When no handling fails, the replay loop hands over every message newer
    than [prevTimestamp]. *)
Lemma replay_loop_all (prev : Z) (msgs : list Message) (s : State) :
  (forall m cw, (handleWhappMessage env m cw).2 = None) ->
  exists s' evs,
    forRange (replayMessage env prev) msgs s = (s', None) /\
    trace s' = trace s ++ evs /\
    handledMessages evs = List.filter (fun m => prev <? Timestamp m) msgs.
Proof.
  intros Hok. revert s. induction msgs as [| m msgs IH]; intros s.
  - exists s, []. simpl. by rewrite app_nil_r.
  - destruct (Timestamp m <=? prev) eqn:Hle.
    + assert (Hlt : (prev <? Timestamp m) = false) by lia.
      assert (Hbody : replayMessage env prev m s = (s, None)).
      { unfold replayMessage. by rewrite Hle. }
      rewrite (forRange_continue _ _ _ _ _ Hbody). cbn [List.filter].
      rewrite Hlt. apply IH.
    + assert (Hlt : (prev <? Timestamp m) = true) by lia.
      assert (Hbody : exists s1,
                replayMessage env prev m s = (s1, None) /\
                trace s1 = trace s ++ [EvHandleWhappMessage m]).
      { unfold replayMessage. rewrite Hle. unfold bind. rewrite handle_unfold.
        pose proof (Hok m (conn s, world s)) as Hm.
        destruct (handleWhappMessage env m (conn s, world s)) as [[cn w] r].
        simpl in Hm. subst r. eexists. split; reflexivity. }
      destruct Hbody as (s1 & Hbody & Htr1).
      rewrite (forRange_continue _ _ _ _ _ Hbody).
      destruct (IH s1) as (s' & evs & Hrun & Htr & Hh).
      exists s', (EvHandleWhappMessage m :: evs). split; [exact Hrun|].
      split; [by rewrite Htr, Htr1, <- app_assoc|].
      cbn [List.filter]. rewrite Hlt. simpl. by rewrite Hh.
Qed.

(** X16. With the replay capability asserted and a non-empty Watermark Map,
    a chat that has no watermark of its own and a positive raw timestamp is
    fetched from [math.MinInt64], that is from the beginning of its history;
    when the fetch succeeds and no handling fails, every fetched message
    (every one above [math.MinInt64]) is handed over, in fetch order. *)
Theorem catchUpChat_replays_whole_history (c : Chat whappID) (s : State)
    (Hreplay : HasCapability (conn s) replayCapability = true)
    (Hnew : timestampMap (conn s) !! chatKey c = None)
    (Hactive : 0 < raw_Timestamp (rawChat c)) :
  exists evs,
    trace (catchUpChat env false c s).1 = trace s ++ evs /\
    fetches evs = [(chatKey c, MinInt64)] /\
    forall w msgs,
      GetMessagesFromChatTillDate env (rawChat c) MinInt64 (world s) = (w, inr msgs) ->
      (forall m cw, (handleWhappMessage env m cw).2 = None) ->
      (catchUpChat env false c s).2 = None /\
      handledMessages evs = List.filter (fun m => MinInt64 <? Timestamp m) msgs.
Proof.
  unfold catchUpChat, bind, getConn, TimestampMap.Get.
  rewrite Hnew, Hreplay. simpl.
  assert (Hle : (raw_Timestamp (rawChat c) <=? 0) = false) by lia. rewrite Hle.
  unfold emit, callWorld. simpl.
  destruct (GetMessagesFromChatTillDate env (rawChat c) MinInt64 (world s))
    as [w' [err | msgs']] eqn:Hfetch; simpl.
  - eexists [EvGetMessages _ _; EvLogPrintf _ _]. rewrite <- app_assoc.
    split; [done|]. split; [done|]. intros w msgs [=].
  - match goal with |- context [forRange _ msgs' ?s1] =>
      destruct (replay_loop env MinInt64 msgs' s1) as (evs & rest & Htr & Hf & _) end.
    exists (EvGetMessages (chatKey c) MinInt64 :: evs). simpl in Htr.
    split; [by rewrite Htr, <- app_assoc|].
    split; [simpl; by rewrite Hf|].
    intros w msgs [= _ <-] Hok.
    match goal with |- context [forRange _ msgs' ?s1] =>
      destruct (replay_loop_all MinInt64 msgs' s1 Hok) as (s' & evs' & Hrun & Htr' & Hh) end.
    rewrite Hrun in Htr |- *. split; [reflexivity|]. simpl in Htr, Htr'.
    rewrite Htr in Htr'. apply app_inv_head in Htr'. subst evs'. exact Hh.
Qed.

(** *** Catch-up: when "ready" is announced *)

Local Abbreviation notStatus := (fun e : Event => statusLines [e] = []).

Lemma statusLines_app (evs1 evs2 : list Event) :
  statusLines (evs1 ++ evs2) = statusLines evs1 ++ statusLines evs2.
Proof. unfold statusLines. apply flat_map_app. Qed.

Lemma statusLines_none (evs : list Event) :
  Forall notStatus evs -> statusLines evs = [].
Proof.
  induction 1 as [| e evs He _ IH]; [done|].
  change (e :: evs) with ([e] ++ evs). by rewrite statusLines_app, He, IH.
Qed.

Lemma emits_ret {A} (P : Event -> Prop) (a : A) : Emits P (ret a : Mc A).
Proof. intros s. exists []. by rewrite app_nil_r. Qed.

Lemma emits_bind {A B} (P : Event -> Prop) (c : Mc A) (k : A -> Mc B) :
  Emits P c -> (forall a, Emits P (k a)) -> Emits P (bind c k).
Proof.
  intros Hc Hk s. unfold bind. destruct (Hc s) as (evs1 & Htr1 & Hq1).
  destruct (c s) as [s1 a]. destruct (Hk a s1) as (evs2 & Htr2 & Hq2).
  exists (evs1 ++ evs2). simpl in Htr1. rewrite Htr2, Htr1, <- app_assoc.
  split; [done|]. by apply Forall_app.
Qed.

Lemma emits_emit (P : Event -> Prop) (e : Event) : P e -> Emits P (emit e : Mc unit).
Proof. intros He s. exists [e]. split; [done|]. by constructor. Qed.

Lemma emits_forRange {A} (P : Event -> Prop) (body : A -> Mc (option Err)) (l : list A) :
  (forall x, Emits P (body x)) -> Emits P (forRange body l).
Proof.
  intros Hb. induction l as [| x l IH]; simpl; [apply emits_ret|].
  unfold andThen. apply emits_bind; [done|]. intros [err|]; [apply emits_ret | done].
Qed.

Lemma catchUpChat_no_status (empty : bool) (c : Chat whappID) :
  Emits notStatus (catchUpChat env empty c).
Proof.
  unfold catchUpChat. apply emits_bind.
  { intros s. exists []. by rewrite app_nil_r. }
  intros cn. destruct (TimestampMap.Get (timestampMap cn) (chatKey c)) as [prev found].
  destruct (empty || negb (HasCapability cn replayCapability)).
  { apply emits_bind; [intros s; exists []; by rewrite app_nil_r|]. intros _.
    apply emits_bind; [by apply emits_emit | intros _; apply emits_ret]. }
  destruct (raw_Timestamp (rawChat c) <=? prev); [apply emits_ret|].
  apply emits_bind; [by apply emits_emit|]. intros _.
  apply emits_bind.
  { intros s. exists []. unfold callWorld.
    destruct (GetMessagesFromChatTillDate env (rawChat c) _ (world s)). simpl.
    by rewrite app_nil_r. }
  intros [err | msgs].
  { apply emits_bind; [by apply emits_emit | intros _; apply emits_ret]. }
  apply emits_forRange. intros m. unfold replayMessage.
  destruct (Timestamp m <=? _); [apply emits_ret|].
  apply emits_bind.
  { intros s. rewrite handle_unfold. exists [EvHandleWhappMessage m].
    split; [done|]. by constructor. }
  intros [err|]; [|apply emits_ret].
  apply emits_bind; [by apply emits_emit | intros _; apply emits_ret].
Qed.

Lemma catchUp_unfold (s : State) :
  catchUp env s
  = match forRange
            (catchUpChat env (Nat.eqb (TimestampMap.Length (timestampMap (conn s))) 0))
            (Chats (conn s)) s with
    | (s1, Some err) => (s1, Some err)
    | (s1, None) =>
        ({| conn := conn s1;
            world := (conn_status env (conn s1) "ready for new messages" (world s1)).1;
            trace := trace s1 ++ [EvStatus "ready for new messages"] |}, None)
    end.
Proof.
  unfold catchUp, andThen. unfold bind, getConn.
  destruct (forRange _ (Chats (conn s)) s) as [s1 [err|]]; [done|].
  by rewrite status_unfold.
Qed.

(** X17. Catch-up sends the status line "ready for new messages" exactly
    when it returns nil, as the last thing it does and only once; when it
    returns an error it sends no status line at all. *)
Theorem catchUp_ready_iff_completed (s : State) :
  exists evs,
    trace (catchUp env s).1 = trace s ++ evs /\
    statusLines evs
    = match (catchUp env s).2 with
      | None => ["ready for new messages"]
      | Some _ => []
      end /\
    ((catchUp env s).2 = None ->
     exists evs0, evs = evs0 ++ [EvStatus "ready for new messages"]).
Proof.
  rewrite catchUp_unfold.
  destruct (emits_forRange notStatus _ (Chats (conn s))
              (catchUpChat_no_status
                 (Nat.eqb (TimestampMap.Length (timestampMap (conn s))) 0)) s)
    as (evs1 & Htr1 & Hq1).
  destruct (forRange _ (Chats (conn s)) s) as [s1 [err|]]; simpl in Htr1.
  - exists evs1. split; [exact Htr1|]. split; [by apply statusLines_none | done].
  - cbn [fst snd trace].
    exists (evs1 ++ [EvStatus "ready for new messages"]).
    split; [by rewrite Htr1, <- app_assoc|].
    split; [|by eexists].
    by rewrite statusLines_app, (statusLines_none _ Hq1).
Qed.

(** *** Live relay: what ends it *)

(** *** Saves of the record *)

Local Abbreviation notRefused := (fun e : Event => refusedSaves [e] = []).

Lemma refusedSaves_app (evs1 evs2 : list Event) :
  refusedSaves (evs1 ++ evs2) = refusedSaves evs1 ++ refusedSaves evs2.
Proof. unfold refusedSaves. apply flat_map_app. Qed.

Lemma refusedSaves_none (evs : list Event) :
  Forall notRefused evs -> refusedSaves evs = [].
Proof.
  induction 1 as [| e evs He _ IH]; [done|].
  change (e :: evs) with ([e] ++ evs). by rewrite refusedSaves_app, He, IH.
Qed.

Lemma emits_silent {A} (P : Event -> Prop) (f : Mc A) :
  (forall s, trace (f s).1 = trace s) -> Emits P f.
Proof. intros Hf s. exists []. by rewrite app_nil_r. Qed.

Lemma emits_getConn (P : Event -> Prop) : Emits P (getConn : Mc _).
Proof. by apply emits_silent. Qed.

Lemma emits_modifyConn (P : Event -> Prop)
    (f : Connection whappID Me -> Connection whappID Me) :
  Emits P (modifyConn f : Mc unit).
Proof. by apply emits_silent. Qed.

Lemma emits_callWorld {A} (P : Event -> Prop) (f : W -> W * A) :
  Emits P (callWorld f : Mc A).
Proof. apply emits_silent. intros s. unfold callWorld. by destruct (f (world s)). Qed.

Lemma emits_andThen (P : Event -> Prop) (c k : Mc (option Err)) :
  Emits P c -> Emits P k -> Emits P (andThen c k).
Proof.
  intros Hc Hk. apply emits_bind; [done|]. intros [err|]; [apply emits_ret | done].
Qed.

Lemma emits_tryBind {A} (P : Event -> Prop) (c : Mc (Err + A))
    (k : A -> Mc (option Err)) :
  Emits P c -> (forall a, Emits P (k a)) -> Emits P (tryBind c k).
Proof.
  intros Hc Hk. apply emits_bind; [done|]. intros [err | a]; [apply emits_ret | done].
Qed.

Lemma emits_logIfErr (P : Event -> Prop) (format : string) (e : option Err) :
  (forall err, P (EvLogPrintf format [err])) -> Emits P (logIfErr format e : Mc unit).
Proof. intros HP. destruct e; [by apply emits_emit | apply emits_ret]. Qed.

Lemma status_not_refused (msg : string) : Emits notRefused (status env msg).
Proof.
  unfold status. apply emits_bind; [by apply emits_emit|]. intros _.
  apply emits_bind; [apply emits_getConn|]. intros cn. apply emits_callWorld.
Qed.

Lemma addAllChats_not_refused : Emits notRefused (addAllChats env).
Proof.
  unfold addAllChats. apply emits_tryBind; [apply emits_callWorld|]. intros chats.
  apply emits_forRange. intros raw. apply emits_bind; [|intros r; apply emits_ret].
  unfold addChat. apply emits_bind.
  { unfold convertChat. apply emits_bind; [apply emits_callWorld|].
    intros [err | ps]; apply emits_ret. }
  intros [err | chat]; [apply emits_ret|].
  apply emits_bind.
  { destruct (IsGroupChat chat); by apply emits_emit. }
  intros _. apply emits_bind; [apply emits_modifyConn|]. intros _. apply emits_ret.
Qed.

Lemma restoreUser_not_refused (obj : Obj) : Emits notRefused (restoreUser env obj).
Proof.
  unfold restoreUser. destruct (mapstructure_Decode env obj) as [err | user];
    [apply emits_ret|].
  apply emits_bind; [apply emits_modifyConn|]. intros _.
  apply emits_tryBind; [apply emits_callWorld|]. intros _.
  apply emits_bind; [apply emits_callWorld|]. intros e.
  apply emits_bind; [by apply emits_logIfErr|]. intros _. apply emits_ret.
Qed.

Lemma rrs_emits (f : Mc (option Err)) : Emits notRefused f -> ReturnsRefusedSave f.
Proof.
  intros Hf s. destruct (Hf s) as (evs & Htr & Hnone). exists evs.
  split; [exact Htr|]. rewrite (refusedSaves_none _ Hnone). intros err Herr.
  by apply elem_of_nil in Herr.
Qed.

Lemma rrs_bind {A} (c : Mc A) (k : A -> Mc (option Err)) :
  Emits notRefused c -> (forall a, ReturnsRefusedSave (k a)) ->
  ReturnsRefusedSave (bind c k).
Proof.
  intros Hc Hk s. unfold bind. destruct (Hc s) as (evs1 & Htr1 & Hnone).
  destruct (c s) as [s1 a]. destruct (Hk a s1) as (evs2 & Htr2 & Hret).
  exists (evs1 ++ evs2). simpl in Htr1. rewrite Htr2, Htr1, <- app_assoc.
  split; [done|]. rewrite refusedSaves_app, (refusedSaves_none _ Hnone). exact Hret.
Qed.

Lemma rrs_andThen_r (c k : Mc (option Err)) :
  Emits notRefused c -> ReturnsRefusedSave k -> ReturnsRefusedSave (andThen c k).
Proof.
  intros Hc Hk. apply rrs_bind; [done|]. intros [err|]; [|done].
  apply rrs_emits, emits_ret.
Qed.

Lemma rrs_tryBind {A} (c : Mc (Err + A)) (k : A -> Mc (option Err)) :
  Emits notRefused c -> (forall a, ReturnsRefusedSave (k a)) ->
  ReturnsRefusedSave (tryBind c k).
Proof.
  intros Hc Hk. apply rrs_bind; [done|]. intros [err | a]; [|done].
  apply rrs_emits, emits_ret.
Qed.

(** A step that returns its refused save, followed by steps that do not
    save. *)
Lemma rrs_andThen_l (c k : Mc (option Err)) :
  ReturnsRefusedSave c -> Emits notRefused k -> ReturnsRefusedSave (andThen c k).
Proof.
  intros Hc Hk s. unfold andThen, bind. destruct (Hc s) as (evs1 & Htr1 & Hret).
  destruct (c s) as [s1 [err|]]; cbn [fst snd] in *.
  - exists evs1. by split.
  - destruct (Hk s1) as (evs2 & Htr2 & Hnone). exists (evs1 ++ evs2).
    rewrite Htr2, Htr1, <- app_assoc. split; [done|].
    rewrite refusedSaves_app, (refusedSaves_none _ Hnone), app_nil_r.
    intros err Herr. by specialize (Hret err Herr).
Qed.

Lemma rrs_saveDatabaseEntry : ReturnsRefusedSave (saveDatabaseEntry env).
Proof.
  intros s. rewrite saveDatabaseEntry_unfold. cbv zeta. cbn [fst snd trace].
  eexists. split; [reflexivity|].
  destruct (userDb_SaveItem env _ _ (world s)) as [w [e|]]; cbn [fst snd].
  - intros err Herr. unfold refusedSaves in Herr. simpl in Herr.
    apply list_elem_of_singleton in Herr. by subst.
  - intros err Herr. by apply elem_of_nil in Herr.
Qed.

Lemma rrs_persistLocalStorage : ReturnsRefusedSave (persistLocalStorage env).
Proof.
  unfold persistLocalStorage. apply rrs_bind; [apply emits_callWorld|]. intros r.
  apply rrs_bind; [apply emits_modifyConn|]. intros _.
  destruct (snd r) as [err|]; [|apply rrs_saveDatabaseEntry].
  apply rrs_emits, emits_bind; [by apply emits_emit | intros _; apply emits_ret].
Qed.

Lemma rrs_setupLoggedIn : ReturnsRefusedSave (setupLoggedIn env).
Proof.
  unfold setupLoggedIn. apply rrs_andThen_r; [apply emits_callWorld|].
  apply rrs_bind; [apply status_not_refused|]. intros _.
  apply rrs_andThen_l; [apply rrs_persistLocalStorage|].
  apply emits_bind; [apply emits_callWorld|]. intros r.
  apply emits_bind; [apply emits_modifyConn|]. intros _.
  destruct (snd r); [apply emits_ret | apply addAllChats_not_refused].
Qed.

Lemma rrs_showLoginCode (k : Mc (option Err)) :
  ReturnsRefusedSave k -> ReturnsRefusedSave (showLoginCode env k).
Proof.
  intros Hk. unfold showLoginCode. apply rrs_tryBind.
  { apply emits_bind; [apply emits_callWorld | intros r; apply emits_ret]. }
  intros code. destruct (qrcode_Encode env code) as [err | bytes];
    [apply rrs_emits, emits_ret|].
  apply rrs_bind; [apply emits_callWorld|]. intros ts.
  apply rrs_tryBind; [apply emits_callWorld|]. intros qrFile s.
  unfold bind.
  destruct (rrs_andThen_r (status env ("Scan this QR code: " +:+ URL qrFile)) k
              (status_not_refused _) Hk s) as (evs1 & Htr1 & Hret).
  destruct (andThen (status env ("Scan this QR code: " +:+ URL qrFile)) k s)
    as [s1 res]. cbn [fst snd] in *.
  unfold bind, callWorld, logIfErr, logPrintf, emit, ret.
  destruct (fs_RemoveFile env qrFile (world s1)) as [w [err|]]; cbn [fst snd trace].
  - exists (evs1 ++ [EvLogPrintf "error while removing QR code: %s\n" [err]]).
    rewrite Htr1, <- app_assoc. split; [done|].
    rewrite refusedSaves_app. cbn [refusedSaves flat_map app]. rewrite app_nil_r.
    exact Hret.
  - exists evs1. split; [exact Htr1 | exact Hret].
Qed.

Lemma rrs_setup : ReturnsRefusedSave (setup env).
Proof.
  unfold setup. apply rrs_andThen_r.
  { unfold bridgeStart. apply emits_bind; [by apply emits_emit|]. intros _.
    apply emits_callWorld. }
  apply rrs_bind; [apply emits_getConn|]. intros cn.
  apply rrs_tryBind; [apply emits_callWorld|]. intros found.
  apply rrs_andThen_r.
  { destruct found; [apply restoreUser_not_refused | apply emits_ret]. }
  apply rrs_tryBind; [apply emits_callWorld|].
  intros [|]; [apply rrs_setupLoggedIn | apply rrs_showLoginCode, rrs_setupLoggedIn].
Qed.

(** C8, as the code has it. [saveDatabaseEntry] leaves the connection's
    in-memory state as it is, returns what the store answered, and logs a
    refusal. Catch-up only starts its saves as detached tasks: its state,
    trace and result are the same whatever the store answers to a save. But
    [setup] returns the error of a refused save: it saves only after a
    successful [GetLocalStorage] (a failed one is logged and the save
    skipped), and whenever that save is refused [setup] returns exactly the
    store's error; so when the local storage can always be read and the
    store refuses every save, [setup] fails from every state. *)
Theorem save_failure_logged_and_returned :
  (forall s, conn (saveDatabaseEntry env s).1 = conn s) /\
  (forall s,
     (saveDatabaseEntry env s).2
     = (userDb_SaveItem env (nickname (conn s))
          {| LocalStorage := localStorage (conn s);
             LastReceivedReceipts := TimestampMap.GetCopy (timestampMap (conn s)) |}
          (world s)).2) /\
  (forall s err,
     (saveDatabaseEntry env s).2 = Some err ->
     exists evs,
       trace (saveDatabaseEntry env s).1
       = trace s ++ evs ++ [EvLogPrintf "error while updating user entry: %s\n" [err]]) /\
  (forall save s, catchUp (withSaveItem env save) s = catchUp env s) /\
  (forall s, exists evs,
     trace (setup env s).1 = trace s ++ evs /\
     forall err, err ∈ refusedSaves evs -> (setup env s).2 = Some err) /\
  (forall s err,
     (WI_GetLocalStorage env (world s)).2.2 = Some err ->
     exists s',
       persistLocalStorage env s = (s', None) /\
       trace s' = trace s ++ [EvLogPrintf "error while getting local storage: %s\n" [err]]) /\
  (forall s err,
     (WI_GetLocalStorage env (world s)).2.2 = None ->
     (userDb_SaveItem env (nickname (conn s))
        {| LocalStorage := (WI_GetLocalStorage env (world s)).2.1;
           LastReceivedReceipts := TimestampMap.GetCopy (timestampMap (conn s)) |}
        (WI_GetLocalStorage env (world s)).1).2 = Some err ->
     (persistLocalStorage env s).2 = Some err) /\
  ((forall w, (WI_GetLocalStorage env w).2.2 = None) ->
   (forall key user w, (userDb_SaveItem env key user w).2 <> None) ->
   AlwaysFails (setup env)).
Proof.
  split; [|split; [|split; [|split; [|split; [|split; [|split]]]]]].
  - intros s. by rewrite saveDatabaseEntry_unfold.
  - intros s. by rewrite saveDatabaseEntry_unfold.
  - intros s err. rewrite saveDatabaseEntry_unfold. simpl. intros ->.
    by eexists [_].
  - intros save s. reflexivity.
  - apply rrs_setup.
  - intros s err Hstorage. unfold persistLocalStorage, bind, callWorld, modifyConn.
    destruct (WI_GetLocalStorage env (world s)) as [w [ls e]]. cbn [fst snd] in *.
    subst e. unfold logPrintf, emit, ret. eexists. split; reflexivity.
  - intros s err Hstorage Hsave. unfold persistLocalStorage, bind, callWorld, modifyConn.
    destruct (WI_GetLocalStorage env (world s)) as [w [ls e]]. cbn [fst snd] in *.
    subst e. rewrite saveDatabaseEntry_unfold. cbn [fst snd conn world].
    destruct (conn s). exact Hsave.
  - intros Hstorage Hrefused.
    assert (Hpersist : AlwaysFails (persistLocalStorage env)).
    { intros s. unfold persistLocalStorage, bind, callWorld, modifyConn.
      pose proof (Hstorage (world s)) as Hs.
      destruct (WI_GetLocalStorage env (world s)) as [w [ls e]]. simpl in Hs |- *.
      subst e. rewrite saveDatabaseEntry_unfold. simpl. apply Hrefused. }
    assert (Hlogged : AlwaysFails (setupLoggedIn env)).
    { unfold setupLoggedIn. apply fails_andThen_r, fails_bind. intros _.
      by apply fails_andThen_l. }
    unfold setup. apply fails_andThen_r, fails_bind. intros cn.
    apply fails_tryBind. intros found. apply fails_andThen_r, fails_tryBind.
    intros [|]; [exact Hlogged | by apply fails_showLoginCode].
Qed.

(** X18. The live-relay task hands to [handleWhappMessage] exactly the
    results that resolved among those it took from the queue before its
    select received the cancellation or an error from the listener, in queue
    order; nothing queued after that is handled, and a failed handling never
    hides a later message. *)
Theorem liveRelay_handles_until_stopped (evs : list LiveEvent) (s : State) :
  exists new,
    trace (liveRelay env evs s).1 = trace s ++ new /\
    handledMessages new
    = res_Message <$> List.filter (fun r => bool_decide (res_Err r = None))
                                  (queuedBeforeStop evs).
Proof.
  revert s. induction evs as [| ev evs IH]; intros s.
  - exists []. simpl. by rewrite app_nil_r.
  - destruct ev as [| err | r]; simpl.
    + exists []. by rewrite app_nil_r.
    + by eexists [_].
    + unfold bind. destruct (relayOne_trace env r s) as (evs1 & Htr1 & Hh1 & _).
      destruct (relayOne env r s) as [s1 []]. simpl in Htr1.
      destruct (IH s1) as (new & Htr & Hh).
      exists (evs1 ++ new). split; [by rewrite Htr, Htr1, <- app_assoc|].
      rewrite handledMessages_app, Hh1, Hh.
      by destruct (bool_decide (res_Err r = None)).
Qed.

(** *** The chat list: lookups after [addChat] *)

Lemma upsertChat_cons (chat c : Chat whappID) (l : list (Chat whappID)) :
  upsertChat chat (c :: l)
  = if decide (ID c = ID chat) then chat :: l else c :: upsertChat chat l.
Proof.
  unfold upsertChat. simpl. destruct (decide (ID c = ID chat)); [done|].
  by destruct (indexOfID (ID chat) l).
Qed.

Lemma find_upsert_same (chat : Chat whappID) (l : list (Chat whappID)) :
  List.find (fun c => bool_decide (ID c = ID chat)) (upsertChat chat l) = Some chat.
Proof.
  induction l as [| c l IH].
  - unfold upsertChat. simpl. by rewrite bool_decide_eq_true_2.
  - rewrite upsertChat_cons. destruct (decide (ID c = ID chat)) as [Heq | Hne]; simpl.
    + by rewrite bool_decide_eq_true_2.
    + by rewrite bool_decide_eq_false_2.
Qed.

Lemma find_upsert_other (id : whappID) (chat : Chat whappID) (l : list (Chat whappID)) :
  id <> ID chat ->
  List.find (fun c => bool_decide (ID c = id)) (upsertChat chat l)
  = List.find (fun c => bool_decide (ID c = id)) l.
Proof.
  intros Hid. induction l as [| c l IH].
  - unfold upsertChat. simpl. by rewrite bool_decide_eq_false_2.
  - rewrite upsertChat_cons. destruct (decide (ID c = ID chat)) as [Heq | Hne]; simpl.
    + rewrite !bool_decide_eq_false_2; congruence.
    + by rewrite IH.
Qed.

(** X1. After a successful [addChat], looking the platform ID up with
    [GetChatByID] returns the chat just stored, and the lookup of every
    other ID is what it was before. The stored chat is a fresh projection:
    it is not joined and has no message IDs, also when it takes the place of
    a chat that was joined. *)
Theorem addChat_then_GetChatByID (raw : whappChat whappID) (s s' : State)
    (chat : Chat whappID)
    (Hadd : addChat env raw s = (s', inr chat)) :
  GetChatByID (conn s') (raw_ID raw) = Some chat /\
  rawChat chat = raw /\
  Joined chat = false /\
  MessageIDs chat = [] /\
  forall id, id <> raw_ID raw ->
    GetChatByID (conn s') id = GetChatByID (conn s) id.
Proof.
  pose proof (addChat_unfold env raw s) as Hu.
  destruct (chat_Participants env raw (world s)) as [w [err | ps]].
  { rewrite Hu in Hadd. discriminate. }
  destruct Hu as (chat' & ev & Hchat & Hu). rewrite Hu in Hadd.
  injection Hadd as <- <-. unfold GetChatByID. simpl.
  assert (Hid : ID chat' = raw_ID raw) by (by subst chat').
  rewrite <- Hid. split; [apply find_upsert_same|].
  split; [by subst chat'|]. split; [by subst chat'|]. split; [by subst chat'|].
  intros id Hne. by apply find_upsert_other.
Qed.

(** One iteration of the loop of [addAllChats]. *)
Local Abbreviation addOne :=
  (fun chat : whappChat whappID =>
     r <- addChat env chat ;;
     ret (match r with inl err => Some err | inr _ => None end)).

Lemma addOne_IDs (raw : whappChat whappID) (s : State) :
  (forall id, id ∈ ID <$> Chats (conn s) ->
              id ∈ ID <$> Chats (conn (addOne raw s).1)) /\
  ((addOne raw s).2 = None -> raw_ID raw ∈ ID <$> Chats (conn (addOne raw s).1)).
Proof.
  unfold bind. pose proof (addChat_unfold env raw s) as Hu.
  destruct (chat_Participants env raw (world s)) as [w [err | ps]].
  - rewrite Hu. simpl. split; [done|]. intros [=].
  - destruct Hu as (chat & ev & Hchat & ->). simpl.
    rewrite upsertChat_IDs. assert (Hid : ID chat = raw_ID raw) by (by subst chat).
    case_decide as Hin.
    + split; [done|]. intros _. by rewrite <- Hid.
    + split.
      * intros id Hidin. apply elem_of_app. by left.
      * intros _. rewrite <- Hid. apply elem_of_app. right. by apply list_elem_of_singleton.
Qed.

Lemma addOne_loop_IDs (chats : list (whappChat whappID)) (s : State) :
  (forall id, id ∈ ID <$> Chats (conn s) ->
              id ∈ ID <$> Chats (conn (forRange addOne chats s).1)) /\
  ((forRange addOne chats s).2 = None ->
   forall raw, raw ∈ chats ->
     raw_ID raw ∈ ID <$> Chats (conn (forRange addOne chats s).1)).
Proof.
  revert s. induction chats as [| raw chats IH]; intros s.
  - simpl. split; [done|]. intros _ raw Hraw. by apply elem_of_nil in Hraw.
  - destruct (addOne_IDs raw s) as [Hkeep Hnew]. cbv beta in Hkeep, Hnew.
    match type of Hnew with (?t).2 = None -> _ =>
      destruct t as [s1 [err|]] eqn:Hone end; simpl in Hkeep, Hnew.
    + rewrite (forRange_return addOne raw chats s s1 err Hone). simpl.
      split; [exact Hkeep|]. intros [=].
    + rewrite (forRange_continue addOne raw chats s s1 Hone).
      destruct (IH s1) as [Hkeep' Hall]. split.
      * intros id Hid. by apply Hkeep', Hkeep.
      * intros Hok raw' Hraw'. apply elem_of_cons in Hraw' as [-> | Hraw'].
        -- by apply Hkeep', Hnew.
        -- by apply Hall.
Qed.

(** X2. [addAllChats], the last step of [setup], never removes a chat ID
    from the chat list, whether it succeeds or fails; and when it returns
    nil, every chat the platform enumerated is in the list under its ID. *)
Theorem addAllChats_registers_every_chat (s : State) :
  (forall id, id ∈ ID <$> Chats (conn s) ->
              id ∈ ID <$> Chats (conn (addAllChats env s).1)) /\
  ((addAllChats env s).2 = None ->
   forall w chats,
     WI_GetAllChats env (world s) = (w, inr chats) ->
     forall raw, raw ∈ chats ->
       raw_ID raw ∈ ID <$> Chats (conn (addAllChats env s).1)).
Proof.
  unfold addAllChats, tryBind. unfold bind at 1. unfold bind at 2. unfold bind at 3.
  unfold callWorld.
  destruct (WI_GetAllChats env (world s)) as [w' [err | chats']]; simpl.
  - split; [done|]. intros [=].
  - match goal with |- context [forRange _ chats' ?s1] =>
      destruct (addOne_loop_IDs chats' s1) as [Hkeep Hall] end.
    split; [exact Hkeep|]. intros Hok w chats [= _ <-]. by apply Hall.
Qed.

(** *** Joining a chat on any socket *)

Lemma attemptedLines_app (evs1 evs2 : list Event) :
  attemptedLines (evs1 ++ evs2) = attemptedLines evs1 ++ attemptedLines evs2.
Proof. unfold attemptedLines. apply flat_map_app. Qed.

Lemma joinNames_attempts (identifier nick : string) (ps : list Participant)
    (names : list string) (s : State) :
  exists s' evs,
    joinNames env identifier nick ps names s
    = (s', names ++ List.map (fun p => (if IsAdmin p then "@" else "") +:+ SafeName env p)
                      (List.filter (fun p => negb (Contact_IsMe p)) ps)) /\
    trace s' = trace s ++ evs /\
    attemptedLines evs
    = List.map (fun _ : Participant => ":whapp-irc MODE " +:+ identifier +:+ " +o " +:+ nick)
               (List.filter (fun p => Contact_IsMe p && IsAdmin p) ps).
Proof.
  revert names s. induction ps as [| p ps IH]; intros names s.
  - exists s, []. simpl. unfold ret. by rewrite !app_nil_r.
  - simpl. destruct (Contact_IsMe p) eqn:Hme; simpl.
    + destruct (IsAdmin p) eqn:Hadm; unfold bind at 1.
      * unfold bind at 1. rewrite writeIRC_unfold. unfold ret at 1.
        match goal with |- context [joinNames _ _ _ ps names ?s1] =>
          destruct (IH names s1) as (s' & evs & Hrun & Htr & Hw) end.
        eexists s', (EvWriteIRC _ _ :: evs).
        split; [exact Hrun|].
        split; [by rewrite Htr; simpl; rewrite <- app_assoc|].
        simpl. by rewrite Hw.
      * unfold ret at 1. apply IH.
    + destruct (IH (names ++ [(if IsAdmin p then "@" else "") +:+ SafeName env p]) s)
        as (s' & evs & Hrun & Htr & Hw).
      exists s', evs. rewrite Hrun, <- app_assoc. by repeat split.
Qed.

Lemma joinChat_outcome (c : Chat whappID) (s : State) :
  IsGroupChat c = true -> Joined c = false ->
  exists s' c' err evs,
    joinChat env (Some c) s = (s', (c', err)) /\
    trace s' = trace s ++ evs /\
    attemptedLines evs `prefix_of` joinSequence env (nickname (conn s)) c /\
    (err = None ->
     attemptedLines evs = joinSequence env (nickname (conn s)) c /\
     c' = Some (set_Joined true c)) /\
    (err <> None -> c' = Some c).
Proof.
  intros Hgroup Hnew.
  unfold joinChat. rewrite Hgroup, Hnew. cbn [negb]. cbv iota.
  unfold joinSequence. cbv zeta.
  unfold bind at 1. unfold getConn at 1. cbv zeta.
  unfold bind at 1. rewrite writeIRC_unfold.
  match goal with |- context [writeIRCNow env ?l ?w] =>
    destruct (writeIRCNow env l w) as [w1 [e1|]] end; cbn [fst snd].
  { unfold ret. eexists _, _, _, [EvWriteIRC _ (Some e1)].
    split; [reflexivity|]. cbn [trace].
    split; [done|]. split; [eexists; simpl; reflexivity|]. by split. }
  unfold bind at 1. rewrite writeIRC_unfold. cbn [world].
  match goal with |- context [writeIRCNow env ?l w1] =>
    destruct (writeIRCNow env l w1) as [w2 [e2|]] end; cbn [fst snd].
  { unfold ret. eexists _, _, _, [EvWriteIRC _ None; EvWriteIRC _ (Some e2)].
    split; [reflexivity|]. cbn [trace].
    split; [by rewrite <- app_assoc|]. split; [eexists; simpl; reflexivity|]. by split. }
  unfold bind at 1.
  match goal with |- context [joinNames _ ?i ?n ?ps [] ?s1] =>
    destruct (joinNames_attempts i n ps [] s1) as (s2 & evs & Hrun & Htr & Hw) end.
  rewrite Hrun. cbn [app trace] in Htr |- *.
  unfold bind at 1. rewrite writeIRC_unfold.
  match goal with |- context [writeIRCNow env ?l (world s2)] =>
    destruct (writeIRCNow env l (world s2)) as [w3 [e3|]] end; cbn [fst snd].
  { unfold ret.
    eexists _, _, _,
      ([EvWriteIRC _ None; EvWriteIRC _ None] ++ evs ++ [EvWriteIRC _ (Some e3)]).
    split; [reflexivity|]. cbn [trace]. split; [by rewrite Htr, <- !app_assoc|].
    split; [|by split].
    eexists [_]. rewrite !attemptedLines_app, Hw. simpl.
    by rewrite <- !app_assoc. }
  unfold bind at 1. rewrite writeIRC_unfold. cbn [world].
  match goal with |- context [writeIRCNow env ?l w3] =>
    destruct (writeIRCNow env l w3) as [w4 [e4|]] end; cbn [fst snd].
  { unfold ret.
    eexists _, _, _,
      ([EvWriteIRC _ None; EvWriteIRC _ None] ++ evs
       ++ [EvWriteIRC _ None; EvWriteIRC _ (Some e4)]).
    split; [reflexivity|]. cbn [trace]. split; [by rewrite Htr, <- !app_assoc|].
    split; [|by split].
    exists []. rewrite !attemptedLines_app, Hw. simpl.
    by rewrite app_nil_r. }
  unfold ret.
  eexists _, _, _,
    ([EvWriteIRC _ None; EvWriteIRC _ None] ++ evs
     ++ [EvWriteIRC _ None; EvWriteIRC _ None]).
  split; [reflexivity|]. cbn [trace]. split; [by rewrite Htr, <- !app_assoc|].
  rewrite !attemptedLines_app, Hw. simpl.
  split; [by exists []; rewrite app_nil_r|]. split; [done|].
  intros Hne. by destruct Hne.
Qed.

(** X19. On any socket, working or failing, [joinChat] of a group chat that
    is not yet joined hands to the socket an initial part of the chat's
    JOIN/TOPIC/NAMES sequence, in order and nothing else. When it returns
    nil it has handed over the whole sequence and the chat is marked joined;
    when it returns an error the chat is left exactly as it was, not
    joined. *)
Theorem joinChat_writes_prefix_of_sequence (c : Chat whappID) (s : State)
    (Hgroup : IsGroupChat c = true) (Hnew : Joined c = false) :
  exists evs,
    trace (joinChat env (Some c) s).1 = trace s ++ evs /\
    attemptedLines evs `prefix_of` joinSequence env (nickname (conn s)) c /\
    ((joinChat env (Some c) s).2.2 = None ->
     attemptedLines evs = joinSequence env (nickname (conn s)) c /\
     (joinChat env (Some c) s).2.1 = Some (set_Joined true c)) /\
    ((joinChat env (Some c) s).2.2 <> None ->
     (joinChat env (Some c) s).2.1 = Some c).
Proof.
  destruct (joinChat_outcome c s Hgroup Hnew)
    as (s' & c' & err & evs & -> & Htr & Hpre & Hok & Hko).
  exists evs. cbn [fst snd].
  split; [exact Htr|]. split; [exact Hpre|]. split; [exact Hok | exact Hko].
Qed.

(** X20. Re-adding a chat that was joined makes it joinable again: after a
    successful [addChat] of a group chat, on a socket that accepts every
    line, [joinChat] of the chat that [GetChatByID] returns writes the whole
    JOIN/TOPIC/NAMES sequence, whether or not the chat it replaced had
    already been joined. *)
Theorem rediscovered_chat_is_joined_again (raw : whappChat whappID) (s s' : State)
    (chat : Chat whappID)
    (Hsocket : forall line w, (writeIRCNow env line w).2 = None)
    (Hgroup : raw_IsGroupChat raw = true)
    (Hadd : addChat env raw s = (s', inr chat)) :
  exists s2 evs,
    joinChat env (GetChatByID (conn s') (raw_ID raw)) s'
    = (s2, (Some (set_Joined true chat), None)) /\
    trace s2 = trace s' ++ evs /\
    writtenLines evs = joinSequence env (nickname (conn s')) chat.
Proof.
  pose proof (addChat_unfold env raw s) as Hu.
  destruct (chat_Participants env raw (world s)) as [w [err | ps]].
  { rewrite Hu in Hadd. discriminate. }
  destruct Hu as (chat' & ev & Hchat & Hu). rewrite Hu in Hadd.
  injection Hadd as <- <-.
  assert (Hid : ID chat' = raw_ID raw) by (by subst chat').
  unfold GetChatByID. cbn [conn Chats set_Chats]. rewrite <- Hid, find_upsert_same.
  apply (joinChat_first env Hsocket); by subst chat'.
Qed.

(** *** Lookups by identifier and presence *)

Section Lookups.
Context {Presence : Type}.
Variable strings_ToLower : string -> string.
Variable zeroPresence : Presence.
Variable GetPresence : whappChat whappID -> W -> W * (Presence * option Err).

(** [List.find] returns the first element that passes the test. *)
Lemma find_first {A} (p : A -> bool) (l : list A) :
  match List.find p l with
  | Some x =>
      exists before after,
        l = before ++ x :: after /\ p x = true /\
        Forall (fun y => p y = false) before
  | None => Forall (fun y => p y = false) l
  end.
Proof.
  induction l as [| y l IH]; simpl; [constructor|].
  destruct (p y) eqn:Hy.
  - exists [], l. by repeat split.
  - destruct (List.find p l) as [x|].
    + destruct IH as (before & after & -> & Hx & Hbefore).
      exists (y :: before), after. repeat split; [done|]. by constructor.
    + by constructor.
Qed.

Lemma find_after_misses {A} (p : A -> bool) (before after : list A) (x : A) :
  Forall (fun y => p y = false) before -> p x = true ->
  List.find p (before ++ x :: after) = Some x.
Proof.
  intros Hbefore Hx. induction Hbefore as [| y before Hy _ IH]; simpl.
  - by rewrite Hx.
  - by rewrite Hy.
Qed.

(** X3. [GetChatByIdentifier] compares identifiers through
    [strings.ToLower]: it returns the first chat of the list whose lowered
    identifier equals the lowered argument (no chat before it in the list
    has one), and nil only when no chat has one; so identifiers with the
    same lowered form find the same chat, and a chat of the list is found
    under its own identifier exactly when no earlier chat has the same
    lowered identifier, the earliest such chat being found otherwise. *)
Theorem GetChatByIdentifier_case_insensitive
    (cn : Connection whappID Me) (identifier : string) :
  match GetChatByIdentifier env strings_ToLower cn identifier with
  | Some c =>
      exists before after,
        Chats cn = before ++ c :: after /\
        strings_ToLower (Identifier env c) = strings_ToLower identifier /\
        Forall (fun c' => strings_ToLower (Identifier env c')
                          <> strings_ToLower identifier) before
  | None =>
      forall c, c ∈ Chats cn ->
        strings_ToLower (Identifier env c) <> strings_ToLower identifier
  end /\
  (forall other, strings_ToLower other = strings_ToLower identifier ->
     GetChatByIdentifier env strings_ToLower cn other
     = GetChatByIdentifier env strings_ToLower cn identifier) /\
  (forall before c after,
     Chats cn = before ++ c :: after ->
     Forall (fun c' => strings_ToLower (Identifier env c')
                       <> strings_ToLower (Identifier env c)) before ->
     GetChatByIdentifier env strings_ToLower cn (Identifier env c) = Some c) /\
  (forall c, c ∈ Chats cn ->
     exists c', GetChatByIdentifier env strings_ToLower cn (Identifier env c) = Some c' /\
                strings_ToLower (Identifier env c') = strings_ToLower (Identifier env c)).
Proof.
  assert (Hfirst : forall identifier,
    match GetChatByIdentifier env strings_ToLower cn identifier with
    | Some c =>
        exists before after,
          Chats cn = before ++ c :: after /\
          strings_ToLower (Identifier env c) = strings_ToLower identifier /\
          Forall (fun c' => strings_ToLower (Identifier env c')
                            <> strings_ToLower identifier) before
    | None =>
        forall c, c ∈ Chats cn ->
          strings_ToLower (Identifier env c) <> strings_ToLower identifier
    end).
  { clear identifier. intros identifier. unfold GetChatByIdentifier. cbv zeta.
    match goal with |- context [List.find ?p ?l] =>
      pose proof (find_first p l) as Hfind; destruct (List.find p l) as [c|] end.
    - destruct Hfind as (before & after & Hsplit & Hc & Hbefore).
      exists before, after. split; [exact Hsplit|].
      split; [by apply bool_decide_eq_true_1 in Hc|].
      eapply Forall_impl; [exact Hbefore|]. intros c' Hc'. simpl in Hc'.
      by apply bool_decide_eq_false_1 in Hc'.
    - intros c Hc. rewrite Forall_forall in Hfind. specialize (Hfind c Hc).
      simpl in Hfind. by apply bool_decide_eq_false_1 in Hfind. }
  split; [apply Hfirst|]. split; [|split].
  - intros other Heq. unfold GetChatByIdentifier. cbv zeta. by rewrite Heq.
  - intros before c after Hsplit Hbefore. unfold GetChatByIdentifier. cbv zeta.
    rewrite Hsplit. apply find_after_misses.
    + eapply Forall_impl; [exact Hbefore|]. intros c' Hc'. simpl.
      by apply bool_decide_eq_false_2.
    + by apply bool_decide_eq_true_2.
  - intros c Hc. specialize (Hfirst (Identifier env c)).
    destruct (GetChatByIdentifier env strings_ToLower cn (Identifier env c)) as [c'|].
    + destruct Hfirst as (before & after & _ & Heq & _). by exists c'.
    + by destruct (Hfirst c Hc).
Qed.

Lemma presenceOf_find (userID : whappID) (chats : list (Chat whappID)) (s : State) :
  presenceOf zeroPresence GetPresence userID chats s
  = match List.find (fun c => bool_decide (ID c = userID)) chats with
    | Some c =>
        ({| conn := conn s; world := (GetPresence (rawChat c) (world s)).1;
            trace := trace s |},
         ((GetPresence (rawChat c) (world s)).2.1, true,
          (GetPresence (rawChat c) (world s)).2.2))
    | None => (s, (zeroPresence, false, None))
    end.
Proof.
  induction chats as [| c chats IH]; simpl; [done|].
  destruct (decide (ID c = userID)) as [Heq | Hne].
  - rewrite bool_decide_eq_true_2 by done. unfold bind, callWorld, ret.
    by destruct (GetPresence (rawChat c) (world s)) as [w [p e]].
  - by rewrite bool_decide_eq_false_2.
Qed.

(** X4. [getPresenceByUserID] asks the platform for the presence of exactly
    the chat that [GetChatByID] returns for the ID, and reports it as found
    with the platform's presence and error. When no chat of the list has the
    ID it calls nothing, changes nothing, and returns the zero presence, not
    found, and a nil error; so [found] tells whether the ID is in the chat
    list. *)
Theorem getPresenceByUserID_queries_known_chat (userID : whappID) (s : State) :
  getPresenceByUserID zeroPresence GetPresence userID s
  = match GetChatByID (conn s) userID with
    | Some c =>
        ({| conn := conn s; world := (GetPresence (rawChat c) (world s)).1;
            trace := trace s |},
         ((GetPresence (rawChat c) (world s)).2.1, true,
          (GetPresence (rawChat c) (world s)).2.2))
    | None => (s, (zeroPresence, false, None))
    end /\
  ((getPresenceByUserID zeroPresence GetPresence userID s).2.1.2 = true
   <-> userID ∈ ID <$> Chats (conn s)).
Proof.
  assert (Hrun : getPresenceByUserID zeroPresence GetPresence userID s
                 = presenceOf zeroPresence GetPresence userID (Chats (conn s)) s)
    by reflexivity.
  rewrite Hrun, presenceOf_find. unfold GetChatByID. split; [reflexivity|].
  destruct (List.find _ (Chats (conn s))) as [c|] eqn:Hfind; simpl.
  - split; [intros _ | done]. apply find_some in Hfind as [Hin Heq].
    apply bool_decide_eq_true_1 in Heq. apply list_elem_of_fmap. exists c.
    split; [done | by apply list_elem_of_In].
  - split; [done|]. intros Hin. apply list_elem_of_fmap in Hin as (c & -> & Hc).
    apply list_elem_of_In in Hc. pose proof (find_none _ _ Hfind c Hc) as Hne.
    simpl in Hne. by apply bool_decide_eq_false_1 in Hne.
Qed.

End Lookups.

(** *** The reader task *)

Lemma readLoop_outcome (decoded : list (Err + option IrcMessage))
    (sent : list IrcMessage) (s : State) :
  exists s' fin new evs,
    readLoop env decoded sent s = (s', (sent ++ new, fin)) /\
    trace s' = trace s ++ evs /\
    Forall (fun m => Command m <> "PING") new /\
    new `prefix_of` forwardable decoded /\
    attemptedLines evs `prefix_of` pongsDue decoded /\
    (fin = Waiting ->
     new = forwardable decoded /\ writtenLines evs = pongsDue decoded) /\
    (fin = Panicked -> exists d, d ∈ decoded /\ panicsReader d = true).
Proof.
  revert sent s. induction decoded as [| d decoded IH]; intros sent s.
  - exists s, Waiting, [], []. simpl. rewrite !app_nil_r. by repeat split.
  - destruct d as [err | [msg|]].
    + simpl. unfold bind, logPrintf, emit, ret.
      eexists _, Returned, [], [_]. rewrite app_nil_r.
      split; [reflexivity|]. cbn [trace]. split; [done|]. split; [done|].
      split; [apply prefix_nil|]. split; [apply prefix_nil|]. by split.
    + cbn [readLoop forwardable pongsDue flat_map].
      destruct (bool_decide (Command msg = "PING")) eqn:Hping.
      * destruct (Params msg) as [| param params] eqn:Hparams.
        -- exists s, Panicked, [], []. unfold ret. rewrite !app_nil_r.
           split; [done|]. split; [done|]. split; [done|].
           split; [apply prefix_nil|]. split; [apply prefix_nil|].
           split; [done|]. intros _.
           exists (inr (Some msg)). split; [apply list_elem_of_here|].
           simpl. by rewrite Hping, Hparams.
        -- unfold bind at 1. rewrite writeIRC_unfold.
           destruct (writeIRCNow env (pongLine param) (world s)) as [w [e|]];
             cbn [fst snd].
           ++ unfold ret. eexists _, Returned, [], [_]. rewrite app_nil_r.
              split; [reflexivity|]. cbn [trace]. split; [done|]. split; [done|].
              split; [apply prefix_nil|].
              split; [simpl; by eexists|]. by split.
           ++ match goal with |- context [readLoop env decoded sent ?s1] =>
                destruct (IH sent s1)
                  as (s' & fin & new & evs & Hrun & Htr & Hnp & Hpre & Hpong & Hw & Hp) end.
              exists s', fin, new, (EvWriteIRC (pongLine param) None :: evs).
              split; [exact Hrun|]. cbn [trace] in Htr.
              split; [by rewrite Htr, <- app_assoc|]. split; [exact Hnp|].
              split; [exact Hpre|].
              split; [simpl; by apply prefix_cons|].
              split.
              ** intros Hfin. destruct (Hw Hfin) as [-> Hwl]. split; [done|].
                 simpl. by rewrite Hwl.
              ** intros Hfin. destruct (Hp Hfin) as (d & Hd & Hbad).
                 exists d. split; [by apply list_elem_of_further | done].
      * destruct (IH (sent ++ [msg]) s)
          as (s' & fin & new & evs & Hrun & Htr & Hnp & Hpre & Hpong & Hw & Hp).
        exists s', fin, (msg :: new), evs.
        split; [by rewrite Hrun, <- app_assoc|]. split; [exact Htr|].
        split; [constructor; [by apply bool_decide_eq_false_1 in Hping | exact Hnp]|].
        split; [simpl; by apply prefix_cons|].
        split; [by rewrite app_nil_l|].
        split.
        ** intros Hfin. destruct (Hw Hfin) as [-> Hwl]. by rewrite app_nil_l.
        ** intros Hfin. destruct (Hp Hfin) as (d & Hd & Hbad).
           exists d. split; [by apply list_elem_of_further | done].
    + exists s, Panicked, [], []. simpl. unfold ret. rewrite !app_nil_r.
      split; [done|]. split; [done|]. split; [done|].
      split; [apply prefix_nil|]. split; [apply prefix_nil|].
      split; [done|]. intros _.
      exists (inr None). split; [apply list_elem_of_here | done].
Qed.

(** X5. The reader task answers PINGs itself and never puts one on the
    channel to dispatch: what it forwards is, in order, an initial part of
    the decoded messages that are not PINGs, and what it hands to the socket
    is, in order, an initial part of the PONG lines owed, one per PING with
    that PING's first parameter. When it has read all its input and is
    waiting for more, every non-PING message has been forwarded and every
    PONG has been written. *)
Theorem readLoop_answers_pings_itself (decoded : list (Err + option IrcMessage))
    (s : State) :
  exists new evs,
    (readLoop env decoded [] s).2.1 = new /\
    trace (readLoop env decoded [] s).1 = trace s ++ evs /\
    Forall (fun m => Command m <> "PING") new /\
    new `prefix_of` forwardable decoded /\
    attemptedLines evs `prefix_of` pongsDue decoded /\
    ((readLoop env decoded [] s).2.2 = Waiting ->
     new = forwardable decoded /\ writtenLines evs = pongsDue decoded).
Proof.
  destruct (readLoop_outcome decoded [] s)
    as (s' & fin & new & evs & -> & Htr & Hnp & Hpre & Hpong & Hw & _).
  exists new, evs. cbn [fst snd]. rewrite app_nil_l.
  split; [done|]. split; [exact Htr|]. split; [exact Hnp|].
  split; [exact Hpre|]. split; [exact Hpong | exact Hw].
Qed.

(** X6. The reader task panics only when it reads a nil message or a PING
    without parameter, and it does panic on either as soon as it reads it:
    nothing that follows is read, forwarded or answered. *)
Theorem readLoop_panics_on_bare_ping :
  (forall decoded sent s,
     (readLoop env decoded sent s).2.2 = Panicked ->
     exists d, d ∈ decoded /\ panicsReader d = true) /\
  (forall d decoded sent s,
     panicsReader d = true ->
     readLoop env (d :: decoded) sent s = (s, (sent, Panicked))).
Proof.
  split.
  - intros decoded sent s Hfin.
    destruct (readLoop_outcome decoded sent s)
      as (s' & fin & new & evs & Hrun & _ & _ & _ & _ & _ & Hp).
    rewrite Hrun in Hfin. by apply Hp.
  - intros [err | [msg|]] decoded sent s Hbad; simpl in Hbad; [done| |done].
    apply andb_true_iff in Hbad as [Hping Hparams].
    apply bool_decide_eq_true_1 in Hparams. simpl. by rewrite Hping, Hparams.
Qed.

(** *** The dispatch task *)

Section Dispatch.
Variable handleIRCCommand :
  IrcMessage -> Connection whappID Me * W ->
  (Connection whappID Me * W) * option HandlerErr.

Local Abbreviation dispatch := (dispatchLoop env handleIRCCommand).

(** One command other than NICK: what the dispatch task does with it. *)
Lemma dispatch_command (msg : IrcMessage) (rest : list DispatchEvent)
    (handed : list IrcMessage) (s : State) :
  Command msg <> "NICK" ->
  let r := handleIRCCommand msg (conn s, world s) in
  dispatch (DispatchMsg msg :: rest) handed s
  = match r.2 with
    | Some err =>
        let s1 := {| conn := r.1.1; world := r.1.2;
                     trace := trace s
                              ++ [EvLogPrintf "error handling new irc message: %s\n"
                                    [he_Error err]] |} in
        if he_isErrClosedPipe err then (s1, (handed ++ [msg], Returned))
        else dispatch rest (handed ++ [msg]) s1
    | None =>
        dispatch rest (handed ++ [msg])
          {| conn := r.1.1; world := r.1.2; trace := trace s |}
    end.
Proof.
  intros Hcmd. cbn [dispatchLoop]. rewrite bool_decide_eq_false_2 by exact Hcmd.
  unfold bind at 1. unfold callHandleIRCCommand.
  destruct (handleIRCCommand msg (conn s, world s)) as [[cn w] [err|]]; cbv zeta;
    cbn [fst snd]; [|reflexivity].
  unfold bind at 1. unfold logPrintf, emit.
  by destruct (he_isErrClosedPipe err).
Qed.

Lemma handleAll_writes_nothing (msgs : list IrcMessage)
    (cw : Connection whappID Me * W) :
  attemptedLines (handleAll handleIRCCommand msgs cw).2 = [].
Proof.
  revert cw. induction msgs as [| msg msgs IH]; intros cw; simpl; [done|].
  destruct (handleIRCCommand msg cw) as [cw1 r]. specialize (IH cw1).
  destruct (handleAll handleIRCCommand msgs cw1) as [cw2 logs].
  by destruct r.
Qed.

(** X7. An error of [handleIRCCommand] does not end the dispatch task
    unless it is [io.ErrClosedPipe]. A command other than NICK whose handling
    fails with another error is logged ("error handling new irc message")
    and the task goes on with the next one: over a run of such commands
    every one is handed to [handleIRCCommand] in arrival order, the trace
    grows by exactly one log line per failed command, with that error's
    text, and nothing is written to the socket by the task itself. On
    [io.ErrClosedPipe] the task logs the error and returns, and the commands
    after it are not handled. *)
Theorem dispatch_ends_only_on_closed_pipe :
  (forall (msgs : list IrcMessage) (rest : list DispatchEvent)
          (handed : list IrcMessage) (s : State),
     Forall (fun m => Command m <> "NICK") msgs ->
     (forall m cw err, (handleIRCCommand m cw).2 = Some err ->
                       he_isErrClosedPipe err = false) ->
     exists s1 evs,
       dispatch ((DispatchMsg <$> msgs) ++ rest) handed s
       = dispatch rest (handed ++ msgs) s1 /\
       trace s1 = trace s ++ evs /\
       attemptedLines evs = [] /\
       evs = (handleAll handleIRCCommand msgs (conn s, world s)).2 /\
       (conn s1, world s1) = (handleAll handleIRCCommand msgs (conn s, world s)).1) /\
  (forall (msg : IrcMessage) (rest : list DispatchEvent)
          (handed : list IrcMessage) (s : State) (err : HandlerErr),
     Command msg <> "NICK" ->
     (handleIRCCommand msg (conn s, world s)).2 = Some err ->
     he_isErrClosedPipe err = false ->
     dispatch (DispatchMsg msg :: rest) handed s
     = dispatch rest (handed ++ [msg])
         {| conn := (handleIRCCommand msg (conn s, world s)).1.1;
            world := (handleIRCCommand msg (conn s, world s)).1.2;
            trace := trace s
                     ++ [EvLogPrintf "error handling new irc message: %s\n"
                           [he_Error err]] |}) /\
  (forall (msg : IrcMessage) (rest : list DispatchEvent)
          (handed : list IrcMessage) (s : State) (err : HandlerErr),
     Command msg <> "NICK" ->
     (handleIRCCommand msg (conn s, world s)).2 = Some err ->
     he_isErrClosedPipe err = true ->
     exists s',
       dispatch (DispatchMsg msg :: rest) handed s
       = (s', (handed ++ [msg], Returned)) /\
       trace s' = trace s ++ [EvLogPrintf "error handling new irc message: %s\n"
                                [he_Error err]]).
Proof.
  split; [|split].
  - intros msgs rest handed s Hcmds Hopen. revert handed s.
    induction Hcmds as [| msg msgs Hcmd _ IH]; intros handed s.
    + exists s, []. simpl. by rewrite !app_nil_r.
    + rewrite fmap_cons. cbn [app]. rewrite (dispatch_command _ _ _ _ Hcmd). cbv zeta.
      pose proof (Hopen msg (conn s, world s)) as Hmsg.
      cbn [handleAll].
      destruct (handleIRCCommand msg (conn s, world s)) as [[cn w] [err|]];
        cbn [fst snd] in *.
      * rewrite (Hmsg err eq_refl).
        match goal with |- context [dispatch _ (handed ++ [msg]) ?s0] =>
          destruct (IH (handed ++ [msg]) s0) as (s1 & evs & Hrun & Htr & Hw & Hevs & Hcw)
        end.
        cbn [conn world trace] in Htr, Hevs, Hcw.
        destruct (handleAll handleIRCCommand msgs (cn, w)) as [cw2 logs].
        cbn [fst snd] in *.
        eexists s1, (_ :: evs). rewrite <- app_assoc in Hrun.
        split; [exact Hrun|].
        split; [by rewrite Htr, <- app_assoc|]. split; [exact Hw|].
        split; [by rewrite Hevs | exact Hcw].
      * match goal with |- context [dispatch _ (handed ++ [msg]) ?s0] =>
          destruct (IH (handed ++ [msg]) s0) as (s1 & evs & Hrun & Htr & Hw & Hevs & Hcw)
        end.
        cbn [conn world trace] in Htr, Hevs, Hcw.
        destruct (handleAll handleIRCCommand msgs (cn, w)) as [cw2 logs].
        cbn [fst snd] in *.
        exists s1, evs. rewrite <- app_assoc in Hrun.
        split; [exact Hrun|]. split; [exact Htr|]. split; [exact Hw|].
        split; [exact Hevs | exact Hcw].
  - intros msg rest handed s err Hcmd Herr Hopen.
    rewrite (dispatch_command _ _ _ _ Hcmd). cbv zeta. by rewrite Herr, Hopen.
  - intros msg rest handed s err Hcmd Herr Hclosed.
    rewrite (dispatch_command _ _ _ _ Hcmd). cbv zeta. rewrite Herr, Hclosed.
    eexists. split; reflexivity.
Qed.

End Dispatch.

(** *** Giving up *)

(** C4. When [setup] fails on every attempt, a first NICK on a socket that
    accepts the greeting runs exactly 5 attempts, each preceded by a stop of
    the Session Bridge and opening with its start, with one delay of 1000 ms
    between consecutive attempts (4 in all); the error of the last attempt is
    then reported to the client in a status line, after which the dispatch
    task returns without handling anything it would receive later. But the
    connection is not closed: the bridge was started last and is not stopped
    again, the connection is marked welcomed, and the welcome channel is
    left as it was, so the main flow of [BindSocket], which waits for that
    channel at line 163, is still waiting. *)
Theorem setup_retry_exhausted (nick : string) (s : State)
    (Hfirst : welcomed (conn s) = false)
    (Hnick : nick <> "")
    (Hsocket : forall line w, (writeIRCNow env line w).2 = None)
    (Hfail : AlwaysFails (setup env)) :
  exists s' err evs,
    onNick env nick s = (s', Return) /\
    trace s'
    = trace s ++ evs
      ++ [EvLogPrintf "err while setting up: %s\n" [err];
          EvStatus ("giving up trying to setup whapp bridge: " +:+ err)] /\
    supervision evs
    = [EvBridgeStop; EvBridgeStart; EvSleep 1000;
       EvBridgeStop; EvBridgeStart; EvSleep 1000;
       EvBridgeStop; EvBridgeStart; EvSleep 1000;
       EvBridgeStop; EvBridgeStart; EvSleep 1000;
       EvBridgeStop; EvBridgeStart] /\
    supervision (evs ++ [EvLogPrintf "err while setting up: %s\n" [err];
                         EvStatus ("giving up trying to setup whapp bridge: " +:+ err)])
    = supervision evs /\
    welcomed (conn s') = true /\
    welcomeCh_closed (conn s') = welcomeCh_closed (conn s) /\
    (welcomeCh_closed (conn s) = false -> awaitWelcome (conn s') = Waiting) /\
    (forall (handleIRCCommand :
               IrcMessage -> Connection whappID Me * W ->
               (Connection whappID Me * W) * option HandlerErr)
            (params : list string) (rest : list DispatchEvent)
            (handed : list IrcMessage),
       dispatchLoop env handleIRCCommand
         (DispatchMsg {| Command := "NICK"; Params := nick :: params |} :: rest)
         handed s
       = (s', (handed, Returned))).
Proof.
  destruct (onNick_greeted nick s Hfirst Hnick Hsocket) as (s1 & Hconn & Htr1 & Hnick1).
  pose proof (pres_superviseSetup (fun cn => welcomed cn)
                ltac:(done) ltac:(done) ltac:(done) ltac:(done) s1) as Hw.
  pose proof (pres_superviseSetup (fun cn => welcomeCh_closed cn)
                ltac:(done) ltac:(done) ltac:(done) ltac:(done) s1) as Hc.
  destruct (retryLoop_exhausted env Hfail 4 1000 s1)
    as (s2 & err & evs & Hrun & Htr2 & Hsup).
  unfold superviseSetup, retry_Do in *. rewrite Hrun in *. cbn [fst] in Hw, Hc.
  rewrite Hconn in Hw, Hc. cbn [welcomed welcomeCh_closed set_welcomed set_nickname]
    in Hw, Hc.
  rewrite status_unfold in Hnick1. cbn [fst] in Hnick1.
  eexists _, err, ([EvWriteIRC _ None; EvWriteIRC _ None] ++ evs).
  split; [exact Hnick1|]. cbn [trace conn].
  split; [by rewrite Htr2, Htr1, <- !app_assoc|].
  split; [rewrite supervision_app; exact Hsup|].
  split; [by rewrite supervision_app, app_nil_r|].
  split; [exact Hw|]. split; [exact Hc|].
  split; [intros Hopen; unfold awaitWelcome; cbn [conn]; by rewrite Hc, Hopen|].
  intros handleIRCCommand params rest handed. cbn [dispatchLoop Command Params].
  rewrite bool_decide_eq_true_2 by reflexivity.
  unfold bind at 1. by rewrite Hnick1.
Qed.

(** *** The login-state task *)

(** X23. The login-state task goes on exactly as long as the platform
    reports the state logged in: it is still waiting if and only if
    everything it received was [true]. Otherwise it returns at the first
    cancellation, listener error or [false], logs the error or the logout
    (nothing on a cancellation), and looks at nothing it receives later; it
    never writes to the socket and never changes the connection. *)
Theorem watchLogin_ends_on_first_news (evs : list LoginEvent) (s : State) :
  watchLogin evs s
  = ({| conn := conn s; world := world s;
        trace := trace s
                 ++ match firstNews evs with
                    | Some (LoginErr err) =>
                        [EvLogPrintf
                           "error while listening for whatsapp loggedin state: %s\n"
                           [err]]
                    | Some (LoginRes _) => [EvLogPrintln ["logged out of whatsapp!"]]
                    | Some LoginCtxDone | None => []
                    end |},
     match firstNews evs with Some _ => Returned | None => Waiting end) /\
  ((watchLogin evs s).2 = Waiting <-> Forall (fun e => e = LoginRes true) evs) /\
  (forall trues e rest,
     Forall (fun e => e = LoginRes true) trues -> e <> LoginRes true ->
     watchLogin (trues ++ e :: rest) s = watchLogin [e] s /\
     (watchLogin [e] s).2 = Returned).
Proof.
  assert (Hrun : forall evs,
    watchLogin evs s
    = ({| conn := conn s; world := world s;
          trace := trace s
                   ++ match firstNews evs with
                      | Some (LoginErr err) =>
                          [EvLogPrintf
                             "error while listening for whatsapp loggedin state: %s\n"
                             [err]]
                      | Some (LoginRes _) => [EvLogPrintln ["logged out of whatsapp!"]]
                      | Some LoginCtxDone | None => []
                      end |},
       match firstNews evs with Some _ => Returned | None => Waiting end)).
  { clear evs. intros evs. induction evs as [| [| err | [|]] evs IH]; cbn [watchLogin].
    - unfold ret, firstNews. simpl. rewrite app_nil_r. by destruct s.
    - unfold ret, firstNews. simpl. rewrite app_nil_r. by destruct s.
    - reflexivity.
    - rewrite IH. reflexivity.
    - reflexivity. }
  assert (Hnews : forall evs,
    firstNews evs = None <-> Forall (fun e => e = LoginRes true) evs).
  { clear. intros evs. induction evs as [| [| err | [|]] evs IH]; unfold firstNews in *;
      simpl.
    - split; [constructor | done].
    - split; [done | by inversion 1].
    - split; [done | by inversion 1].
    - rewrite IH. split; [by constructor | by inversion 1].
    - split; [done | by inversion 1]. }
  split; [apply Hrun|]. split.
  - rewrite Hrun. cbn [snd]. rewrite <- Hnews. by destruct (firstNews evs).
  - intros trues e rest Htrues He. split.
    + induction Htrues as [| t trues -> _ IH]; [|exact IH].
      cbn [app]. rewrite !Hrun. unfold firstNews. simpl.
      by destruct e as [| err | [|]].
    + rewrite Hrun. unfold firstNews. simpl. by destruct e as [| err | [|]].
Qed.

End MoreFacts.

(** ** More of util.go *)

Module MoreUtilFacts.
Import Util Extensions.

(** X21. [ircSafeString] leaves a string unchanged exactly when the string
    is made of ASCII letters, decimal digits and ['+'] only, for a
    transliterator that returns ASCII text and leaves such strings alone. *)
Theorem ircSafeString_fixpoints
    (Unidecode : list rune -> list rune)
    (Hascii : forall s, Forall (fun r => isASCII r = true) (Unidecode s))
    (Hfix : forall s, Forall (fun r => asciiAlnumPlus r = true) s -> Unidecode s = s)
    (str : list rune) :
  ircSafeString Unidecode str = str <-> Forall (fun r => asciiAlnumPlus r = true) str.
Proof.
  split.
  - intros <-. unfold ircSafeString. apply UtilFacts.replace_keeps_alnum, Hascii.
  - intros Hsafe. unfold ircSafeString. cbv zeta. rewrite (Hfix _ Hsafe).
    by apply UtilFacts.replace_fixes_alnum.
Qed.

Section ExtensionFacts.
Context {Bytes : Type}.
Variable filetype_Match : Bytes -> Err + string.
Variable mime_ExtensionsByType : string -> Err + list string.

(** X22. [getExtension] never returns "unknown": an undetected type and a
    failed detection both give the empty string. [getExtensionByMimeOrBytes]
    returns the first registered extension of the MIME type without its
    first character whenever that is not empty, and otherwise exactly what
    [getExtension] returns for the bytes; an error of the MIME lookup is
    swallowed. It panics only if the first registered extension is the
    empty string. *)
Theorem extension_lookup_falls_back_to_bytes (mime : string) (bytes : Bytes) :
  getExtension filetype_Match bytes <> "unknown" /\
  match mime_ExtensionsByType mime with
  | inr (String dot res :: _) =>
      getExtensionByMimeOrBytes filetype_Match mime_ExtensionsByType mime bytes
      = Some (if bool_decide (res = "") then getExtension filetype_Match bytes else res)
  | inr (EmptyString :: _) =>
      getExtensionByMimeOrBytes filetype_Match mime_ExtensionsByType mime bytes = None
  | inr [] | inl _ =>
      getExtensionByMimeOrBytes filetype_Match mime_ExtensionsByType mime bytes
      = Some (getExtension filetype_Match bytes)
  end.
Proof.
  split.
  - unfold getExtension. destruct (filetype_Match bytes) as [err | res]; [done|].
    case_bool_decide as Hres; [done | exact Hres].
  - unfold getExtensionByMimeOrBytes, getExtensionByMime.
    destruct (mime_ExtensionsByType mime) as [err | [| [| dot res] exts]]; simpl;
      try reflexivity.
    by case_bool_decide.
Qed.

End ExtensionFacts.
End MoreUtilFacts.

(** ** Scenarios for the tasks and lookups *)

Module MoreScenarios.
Import Demo MoreDemo.

(** Setup in the quiet scenario succeeds from every state. *)
Lemma quiet_setup_succeeds (s0 : St string unit nat) :
  (setup (demoEnv quiet) s0).2 = None.
Proof. destruct s0 as [cn w tr]. reflexivity. Qed.

(** A user with a stored record gets the record's watermarks back. *)
Lemma setup_restores_stored_watermarks_witness :
  timestampMap (conn (setup (demoEnv returning) sFresh).1)
  = LastReceivedReceipts storedUser.
Proof.
  apply (setup_restores_stored_watermarks (demoEnv returning) storedUser storedUser).
  - intros w. reflexivity.
  - intros key w. reflexivity.
  - reflexivity.
Defined.

(** A second NICK after the welcome. *)
Lemma onNick_only_renames_witness :
  welcomed (conn sReplay) = true /\
  onNick (demoEnv quiet) "robert" sReplay
  = ({| conn := set_nickname "robert" (conn sReplay); world := world sReplay;
        trace := trace sReplay |}, Continue).
Proof.
  split; [reflexivity|].
  apply (onNick_only_renames (demoEnv quiet) "robert" sReplay). by left.
Defined.

(** The socket refuses the first greeting line. *)
Lemma onNick_greeting_refused_witness :
  exists s',
    onNick (demoEnv refusing) "bob" sFresh = (s', Return) /\
    supervision (trace s') = [] /\
    welcomed (conn s') = false /\
    welcomeCh_closed (conn s') = false.
Proof.
  destruct (onNick_greeting_refused (demoEnv refusing) "bob" sFresh "broken pipe")
    as (s' & Hrun & Htr & Hw & Hch).
  - reflexivity.
  - discriminate.
  - reflexivity.
  - exists s'. split; [exact Hrun|]. split; [rewrite Htr; reflexivity|].
    split; [exact Hw | exact Hch].
Defined.

(** The bridge never starts: the supervisor gives up, and the connection is
    left welcomed with the welcome channel open. *)
Lemma onNick_gives_up_without_welcome_witness :
  exists s',
    onNick (demoEnv noBrowser) "bob" sFresh = (s', Return) /\
    welcomed (conn s') = true /\
    nickname (conn s') = "bob" /\
    welcomeCh_closed (conn s') = false.
Proof.
  destruct (onNick_gives_up_without_welcome (demoEnv noBrowser) "bob" sFresh)
    as (s' & Hrun & Hw & Hn & Hch & _).
  - reflexivity.
  - discriminate.
  - intros line w. reflexivity.
  - exact Scenarios.noBrowser_setup_fails.
  - exists s'. split; [exact Hrun|]. split; [exact Hw|]. split; [exact Hn | exact Hch].
Defined.

(** Everything works: one attempt, then the welcome channel is closed. *)
Lemma onNick_welcomes_after_setup_witness :
  exists s' evs,
    onNick (demoEnv quiet) "bob" sFresh = (s', Continue) /\
    supervision evs = [EvBridgeStop; EvBridgeStart] /\
    welcomed (conn s') = true /\
    welcomeCh_closed (conn s') = true /\
    nickname (conn s') = "bob".
Proof.
  destruct (onNick_welcomes_after_setup (demoEnv quiet) "bob" sFresh)
    as (s' & evs & Hrun & _ & Hsup & Hw & Hch & Hn).
  - reflexivity.
  - discriminate.
  - intros line w. reflexivity.
  - exact quiet_setup_succeeds.
  - exists s', evs. split; [exact Hrun|]. split; [exact Hsup|].
    split; [exact Hw|]. split; [exact Hch | exact Hn].
Defined.

(** A first session with two chats: the map is empty after setup, and
    catch-up only records the chats' current timestamps. *)
Lemma first_session_never_replays_witness :
  timestampMap (conn (setup (demoEnv firstTime) sFresh).1) = ∅ /\
  exists s2 evs,
    catchUp (demoEnv firstTime) (setup (demoEnv firstTime) sFresh).1 = (s2, None) /\
    handledMessages evs = [] /\
    fetches evs = [] /\
    timestampMap (conn s2) !! "C1" = Some 150 /\
    timestampMap (conn s2) !! "C2" = Some 90.
Proof.
  destruct (first_session_never_replays (demoEnv firstTime)
              (fun key w => eq_refl) sFresh) as [Hmap Hcatch].
  split; [exact Hmap|].
  destruct (Hcatch eq_refl) as (s2 & evs & Hrun & _ & Hh & Hf & Htm).
  exists s2, evs. split; [exact Hrun|]. split; [exact Hh|]. split; [exact Hf|].
  rewrite Htm. split; reflexivity.
Defined.

(** [C1] is at 150 and its watermark is 200: its turn does nothing. *)
Lemma catchUpChat_skips_chat_without_news_witness :
  HasCapability (conn sCurrent) replayCapability = true /\
  catchUpChat (demoEnv inOrder) false family sCurrent = (sCurrent, None).
Proof.
  split; [reflexivity|].
  refine (proj1 (catchUpChat_skips_chat_without_news
                   (demoEnv inOrder) family sCurrent _) 200 _ _).
  - reflexivity.
  - reflexivity.
  - simpl. lia.
Defined.

(** [C2] has no watermark: its whole history is replayed. *)
Lemma catchUpChat_replays_whole_history_witness :
  exists evs,
    trace (catchUpChat (demoEnv inOrder) false work sNewChat).1
    = trace sNewChat ++ evs /\
    fetches evs = [("C2", MinInt64)] /\
    (catchUpChat (demoEnv inOrder) false work sNewChat).2 = None /\
    handledMessages evs = [msg 90; msg 120; msg 140].
Proof.
  destruct (catchUpChat_replays_whole_history (demoEnv inOrder) work sNewChat)
    as (evs & Htr & Hf & Hall).
  - reflexivity.
  - reflexivity.
  - simpl. lia.
  - destruct (Hall 0%nat [msg 90; msg 120; msg 140] eq_refl (fun _ _ => eq_refl))
      as [Hok Hh].
    exists evs. split; [exact Htr|]. split; [exact Hf|]. split; [exact Hok|].
    rewrite Hh. reflexivity.
Defined.

(** [C1] had been joined; the platform reports it again. *)
Lemma addChat_then_GetChatByID_witness :
  GetChatByID (conn (addChat (demoEnv quiet) (rawC1 150) sJoined).1) "C1"
  = Some (chatOf (rawC1 150) []) /\
  GetChatByID (conn sJoined) "C1" = Some (set_Joined true family) /\
  GetChatByID (conn (addChat (demoEnv quiet) (rawC1 150) sJoined).1) "C2"
  = Some work.
Proof.
  destruct (addChat_then_GetChatByID (demoEnv quiet) (rawC1 150) sJoined
              (addChat (demoEnv quiet) (rawC1 150) sJoined).1
              (chatOf (rawC1 150) []) eq_refl)
    as (Hfound & _ & _ & _ & Hother).
  split; [exact Hfound|]. split; [reflexivity|].
  rewrite (Hother "C2"); [reflexivity | discriminate].
Defined.

(** The platform enumerates [C1] and [C2]; both are registered. *)
Lemma addAllChats_registers_every_chat_witness :
  "C1" ∈ ID <$> Chats (conn (addAllChats (demoEnv firstTime) sFresh).1) /\
  "C2" ∈ ID <$> Chats (conn (addAllChats (demoEnv firstTime) sFresh).1).
Proof.
  pose proof (proj2 (addAllChats_registers_every_chat (demoEnv firstTime) sFresh)
                eq_refl 0%nat [rawC1 150; rawC2 90] eq_refl) as Hall.
  split.
  - apply (Hall (rawC1 150)). apply list_elem_of_here.
  - apply (Hall (rawC2 90)). apply list_elem_of_further, list_elem_of_here.
Defined.

(** The socket refuses the topic line: only JOIN and the topic line were
    handed over, and the chat is still not joined. *)
Lemma joinChat_writes_prefix_of_sequence_witness :
  IsGroupChat family = true /\ Joined family = false /\
  exists evs,
    trace (joinChat (demoEnv brokenPipe) (Some family) (start (bob [family] ∅ ∅))).1
    = trace (start (bob [family] ∅ ∅)) ++ evs /\
    attemptedLines evs `prefix_of` joinSequence (demoEnv brokenPipe) "bob" family /\
    (joinChat (demoEnv brokenPipe) (Some family) (start (bob [family] ∅ ∅))).2.1
    = Some family.
Proof.
  split; [reflexivity|]. split; [reflexivity|].
  destruct (joinChat_writes_prefix_of_sequence (demoEnv brokenPipe) family
              (start (bob [family] ∅ ∅)) eq_refl eq_refl)
    as (evs & Htr & Hpre & _ & Hfail).
  exists evs. split; [exact Htr|]. split; [exact Hpre|].
  apply Hfail. discriminate.
Defined.

(** [C1] had been joined; after the platform reports it again, joining it
    writes the whole sequence once more. *)
Lemma rediscovered_chat_is_joined_again_witness :
  Joined <$> GetChatByID (conn sJoined) "C1" = Some true /\
  exists s2 evs,
    joinChat (demoEnv quiet)
      (GetChatByID (conn (addChat (demoEnv quiet) (rawC1 150) sJoined).1) "C1")
      (addChat (demoEnv quiet) (rawC1 150) sJoined).1
    = (s2, (Some (set_Joined true (chatOf (rawC1 150) [])), None)) /\
    writtenLines evs
    = [":bob JOIN #family"; ":whapp-irc 332 bob #family :family";
       ":whapp-irc 353 bob @ #family :";
       ":whapp-irc 366 bob #family :End of /NAMES list."].
Proof.
  split; [reflexivity|].
  destruct (rediscovered_chat_is_joined_again (demoEnv quiet) (rawC1 150) sJoined
              (addChat (demoEnv quiet) (rawC1 150) sJoined).1
              (chatOf (rawC1 150) []))
    as (s2 & evs & Hrun & _ & Hw).
  - intros line w. reflexivity.
  - reflexivity.
  - reflexivity.
  - exists s2, evs. split; [exact Hrun|]. rewrite Hw. reflexivity.
Defined.

(** Three commands, two of which fail without a closed pipe, are all handed
    over and the two failures are logged; a QUIT that fails with a closed
    pipe ends the task before JOIN. *)
Lemma dispatch_ends_only_on_closed_pipe_witness :
  (exists s1,
     dispatchLoop (demoEnv quiet) demoHandleOpen
       ((DispatchMsg <$> [privmsg; join; privmsg]) ++ [DispatchClosed]) [] sReplay
     = dispatchLoop (demoEnv quiet) demoHandleOpen
         [DispatchClosed] [privmsg; join; privmsg] s1 /\
     trace s1
     = trace sReplay
       ++ [EvLogPrintf "error handling new irc message: %s\n" ["unknown chat"];
           EvLogPrintf "error handling new irc message: %s\n" ["unknown chat"]]) /\
  (exists s',
     dispatchLoop (demoEnv quiet) demoHandle
       [DispatchMsg quit; DispatchMsg join] [] sReplay
     = (s', ([quit], Returned))).
Proof.
  split.
  - destruct (proj1 (dispatch_ends_only_on_closed_pipe (demoEnv quiet) demoHandleOpen)
                [privmsg; join; privmsg] [DispatchClosed] [] sReplay)
      as (s1 & evs & Hrun & Htr & _ & Hevs & _).
    + repeat constructor; discriminate.
    + intros m cw err. unfold demoHandleOpen. cbn [snd].
      case_bool_decide; [|discriminate]. intros [= <-]. reflexivity.
    + exists s1. split; [exact Hrun|]. rewrite Htr, Hevs. reflexivity.
  - destruct (proj2 (proj2 (dispatch_ends_only_on_closed_pipe
                              (demoEnv quiet) demoHandle))
                quit [DispatchMsg join] [] sReplay ErrClosedPipe)
      as (s' & Hrun & _).
    + discriminate.
    + reflexivity.
    + reflexivity.
    + exists s'. exact Hrun.
Defined.

(** The bridge never starts: five attempts, the diagnostic, the end of the
    dispatch task; and the main flow of [BindSocket] is still waiting for
    the welcome channel. *)
Lemma setup_retry_exhausted_witness :
  welcomed (conn sFresh) = false /\
  exists s' err evs,
    onNick (demoEnv noBrowser) "bob" sFresh = (s', Return) /\
    trace s'
    = trace sFresh ++ evs
      ++ [EvLogPrintf "err while setting up: %s\n" [err];
          EvStatus ("giving up trying to setup whapp bridge: " +:+ err)] /\
    supervision evs
    = [EvBridgeStop; EvBridgeStart; EvSleep 1000;
       EvBridgeStop; EvBridgeStart; EvSleep 1000;
       EvBridgeStop; EvBridgeStart; EvSleep 1000;
       EvBridgeStop; EvBridgeStart; EvSleep 1000;
       EvBridgeStop; EvBridgeStart] /\
    welcomed (conn s') = true /\
    welcomeCh_closed (conn s') = false /\
    awaitWelcome (conn s') = Waiting.
Proof.
  split; [reflexivity|].
  destruct (setup_retry_exhausted (demoEnv noBrowser) "bob" sFresh)
    as (s' & err & evs & Hrun & Htr & Hsup & _ & Hw & Hc & Hwait & _).
  - reflexivity.
  - discriminate.
  - intros line w. reflexivity.
  - exact Scenarios.noBrowser_setup_fails.
  - exists s', err, evs. split; [exact Hrun|]. split; [exact Htr|].
    split; [exact Hsup|]. split; [exact Hw|]. split; [exact Hc|].
    apply Hwait. reflexivity.
Defined.

(** The store answers "disk full": [setup] returns exactly that error, and
    fails from every state. *)
Lemma save_failure_logged_and_returned_witness :
  (setup (demoEnv diskFull) sFresh).2 = Some "disk full" /\
  AlwaysFails (setup (demoEnv diskFull)).
Proof.
  destruct (save_failure_logged_and_returned (demoEnv diskFull))
    as (_ & _ & _ & _ & Hsetup & _ & _ & Hfails).
  split.
  - destruct (Hsetup sFresh) as (evs & Htr & Hret). apply Hret.
    assert (Hevs : evs = trace (setup (demoEnv diskFull) sFresh).1)
      by (rewrite Htr; reflexivity).
    rewrite Hevs. apply (bool_decide_unpack _). reflexivity.
  - apply Hfails.
    + intros w. reflexivity.
    + intros key user w. discriminate.
Defined.

(** A nickname already made of safe characters is a fixpoint. *)
Lemma ircSafeString_fixpoints_witness :
  Util.ircSafeString Util.toyUnidecode [72; 43; 49] = [72; 43; 49]
  <-> Forall (fun r => Util.asciiAlnumPlus r = true) [72; 43; 49].
Proof.
  apply (MoreUtilFacts.ircSafeString_fixpoints Util.toyUnidecode
           UtilFacts.toyUnidecode_ascii UtilFacts.toyUnidecode_fixes_alnum).
Defined.

End MoreScenarios.
